(** * git-profile: a shallow embedding of [main.go] and its command contracts

    The program is a small command line tool: it keeps named git identities
    in a JSON file and applies one of them by calling the [git] binary.
    This development embeds [main.go] as functions of an explicit world
    (files, console, the replies of the processes it starts) and proves the
    command contracts over that embedding.

    Layout:
    - [GoLib]: the parts of Go's standard library the program calls
      (strings.TrimSpace, unicode/utf8, the documents and field names of
      encoding/json, flag, fmt.Sscanf with the verb d, sort.Strings,
      filepath.Join);
    - [Profile] and [Config] with their JSON encoding and decoding;
    - [World], the state the program runs in, and [M], the monad of commands;
    - the functions of [main.go], under their own names;
    - the theorems, one group per command contract (C1 to C10), followed
      by further properties of the store, the commands and the earlier
      program. *)

From Stdlib Require Import ZArith NArith List String Ascii Lia.
From stdpp Require Import base option gmap strings list fin_maps sorting.

Set Warnings "-register-all".

Local Open Scope string_scope.
Local Open Scope Z_scope.

(* ===================================================================== *)
(** ** Bytes and strings

    A Go string is a sequence of bytes; [string] (a list of [ascii], that
    is of 8-bit characters) is exactly that. *)

Definition byte_val (c : ascii) : N := N_of_ascii c.

Definition is_byte (n : N) (c : ascii) : bool := N.eqb (byte_val c) n.

Definition byte_in (lo hi : N) (c : ascii) : bool :=
  (N.leb lo (byte_val c) && N.leb (byte_val c) hi)%bool.

Definition string_rev (s : string) : string :=
  string_of_list_ascii (rev (list_ascii_of_string s)).

Definition newline : ascii := ascii_of_N 0x0A.

Module GoLib.

(* --------------------------------------------------------------------- *)
(** *** unicode/utf8

    [first] and [acceptRanges] of unicode/utf8: for a leading byte, the
    length of the sequence it starts and the range its second byte must lie
    in; [None] for a byte that starts no sequence. *)

Definition lead_info (c : ascii) : option (nat * N * N) :=
  let b := byte_val c in
  if N.ltb b 0x80 then Some (1%nat, 0%N, 0%N)
  else if N.ltb b 0xC2 then None
  else if N.leb b 0xDF then Some (2%nat, 0x80%N, 0xBF%N)
  else if N.eqb b 0xE0 then Some (3%nat, 0xA0%N, 0xBF%N)
  else if N.eqb b 0xED then Some (3%nat, 0x80%N, 0x9F%N)
  else if N.leb b 0xEF then Some (3%nat, 0x80%N, 0xBF%N)
  else if N.eqb b 0xF0 then Some (4%nat, 0x90%N, 0xBF%N)
  else if N.leb b 0xF3 then Some (4%nat, 0x80%N, 0xBF%N)
  else if N.eqb b 0xF4 then Some (4%nat, 0x80%N, 0x8F%N)
  else None.

Definition is_cont (c : ascii) : bool := byte_in 0x80 0xBF c.

(** [utf8.DecodeRuneInString s]: [Some n] when [s] starts with a well-formed
    sequence of [n] bytes, [None] when the function returns
    [(RuneError, 1)] (or [(RuneError, 0)] on the empty string). *)
Definition rune_len (s : string) : option nat :=
  match s with
  | EmptyString => None
  | String c0 r0 =>
    match lead_info c0 with
    | None => None
    | Some (1%nat, _, _) => Some 1%nat
    | Some (sz, lo, hi) =>
      match r0 with
      | EmptyString => None
      | String c1 r1 =>
        if negb (byte_in lo hi c1) then None
        else if (sz <=? 2)%nat then Some 2%nat
        else
          match r1 with
          | EmptyString => None
          | String c2 r2 =>
            if negb (is_cont c2) then None
            else if (sz <=? 3)%nat then Some 3%nat
            else
              match r2 with
              | EmptyString => None
              | String c3 _ => if is_cont c3 then Some 4%nat else None
              end
          end
      end
    end
  end.

(** The replacement character U+FFFD, in UTF-8. *)
Definition replacement : string :=
  String (ascii_of_N 0xEF) (String (ascii_of_N 0xBF) (String (ascii_of_N 0xBD) EmptyString)).

(** [utf8.ValidString].  [pending] counts the bytes of the current sequence
    that are still to be passed over (the sequence was checked when its
    first byte was met). *)
Fixpoint valid_from (pending : nat) (s : string) : bool :=
  match s with
  | EmptyString => true
  | String c r =>
    match pending with
    | S k => valid_from k r
    | O =>
      match rune_len s with
      | Some n => valid_from (Nat.pred n) r
      | None => false
      end
    end
  end.

Definition ValidString (s : string) : bool := valid_from 0 s.

(** The string that encoding/json writes for a Go string, read back: the
    encoder's [appendString] replaces every byte at which
    [DecodeRuneInString] returns [(RuneError, 1)] by the escape of U+FFFD
    and keeps well-formed sequences (escaped or not) as they are. *)
Fixpoint coerce_from (pending : nat) (s : string) : string :=
  match s with
  | EmptyString => EmptyString
  | String c r =>
    match pending with
    | S k => String c (coerce_from k r)
    | O =>
      match rune_len s with
      | Some n => String c (coerce_from (Nat.pred n) r)
      | None => replacement +:+ coerce_from 0 r
      end
    end
  end.

Definition toValidUTF8 (s : string) : string := coerce_from 0 s.

(* --------------------------------------------------------------------- *)
(** *** strings.TrimSpace

    The code points with the property White_Space, as bytes:
    U+0009..U+000D and U+0020; U+0085 and U+00A0 (C2 85, C2 A0);
    U+1680 (E1 9A 80); U+2000..U+200A, U+2028, U+2029, U+202F (E2 80 xx);
    U+205F (E2 81 9F); U+3000 (E3 80 80). *)

Definition space1 (a : ascii) : bool :=
  (byte_in 0x09 0x0D a || is_byte 0x20 a)%bool.

Definition space2 (a b : ascii) : bool :=
  (is_byte 0xC2 a && (is_byte 0x85 b || is_byte 0xA0 b))%bool.

Definition space3 (a b c : ascii) : bool :=
  ((is_byte 0xE1 a && is_byte 0x9A b && is_byte 0x80 c)
   || (is_byte 0xE2 a && is_byte 0x80 b &&
       (byte_in 0x80 0x8A c || is_byte 0xA8 c || is_byte 0xA9 c || is_byte 0xAF c))
   || (is_byte 0xE2 a && is_byte 0x81 b && is_byte 0x9F c)
   || (is_byte 0xE3 a && is_byte 0x80 b && is_byte 0x80 c))%bool.

Fixpoint trim_left (s : string) : string :=
  match s with
  | String a r1 =>
    if space1 a then trim_left r1
    else
      match r1 with
      | String b r2 =>
        if space2 a b then trim_left r2
        else
          match r2 with
          | String c r3 => if space3 a b c then trim_left r3 else s
          | EmptyString => s
          end
      | EmptyString => s
      end
  | EmptyString => s
  end.

(** The same scan on the reversed string: a white space character is met
    last byte first. *)
Fixpoint trim_left_rev (s : string) : string :=
  match s with
  | String a r1 =>
    if space1 a then trim_left_rev r1
    else
      match r1 with
      | String b r2 =>
        if space2 b a then trim_left_rev r2
        else
          match r2 with
          | String c r3 => if space3 c b a then trim_left_rev r3 else s
          | EmptyString => s
          end
      | EmptyString => s
      end
  | EmptyString => s
  end.

Definition TrimSpace (s : string) : string :=
  string_rev (trim_left_rev (string_rev (trim_left s))).

(* --------------------------------------------------------------------- *)
(** *** encoding/json: documents and field names

    A JSON document as a tree.  Strings are held decoded (what the decoder
    hands to the program); an object keeps its members in the order of the
    text, duplicates included.  The text layer (quoting, escapes, white
    space, indentation) is not modelled: a file either holds a document or
    bytes that do not parse. *)

Inductive json :=
| JNull
| JBool (b : bool)
| JNumber (literal : string)
| JString (s : string)
| JArray (items : list json)
| JObject (members : list (string * json)).

(** [foldName]: the key under which the decoder looks a member up when no
    field has exactly its name.  ASCII letters go to upper case; the two
    code points outside ASCII whose simple case folding reaches an ASCII
    letter, U+017F (C5 BF) and U+212A (E2 84 AA), go to S and K.  All other
    bytes outside ASCII are kept: they fold to code points outside ASCII, so
    the comparison with the (ASCII) names of the program's fields is the
    decoder's. *)
Definition upper (c : ascii) : ascii :=
  if byte_in 0x61 0x7A c then ascii_of_N (byte_val c - 32) else c.

Fixpoint foldName (s : string) : string :=
  match s with
  | EmptyString => EmptyString
  | String a r1 =>
    match r1 with
    | String b r2 =>
      if (is_byte 0xC5 a && is_byte 0xBF b)%bool then String "S"%char (foldName r2)
      else
        match r2 with
        | String c r3 =>
          if (is_byte 0xE2 a && is_byte 0x84 b && is_byte 0xAA c)%bool
          then String "K"%char (foldName r3)
          else String (upper a) (foldName r1)
        | EmptyString => String (upper a) (foldName r1)
        end
    | EmptyString => String (upper a) EmptyString
    end
  end.

(** Does the member name [key] select the struct field tagged [name]? *)
Definition field_match (name key : string) : bool :=
  (String.eqb key name || String.eqb (foldName key) (foldName name))%bool.

(* --------------------------------------------------------------------- *)
(** *** sort.Strings: ascending byte-wise order *)

Definition string_le (a b : string) : Prop := String.leb a b = true.

#[export] Instance string_le_dec a b : Decision (string_le a b).
Proof. unfold string_le. apply _. Defined.

Definition sort_strings (l : list string) : list string :=
  merge_sort string_le l.

(* --------------------------------------------------------------------- *)
(** *** fmt.Sscanf(line, "%d", &n)

    [SkipSpace] as Sscanf runs it (a newline is not white space there but
    an error), an optional sign, a non-empty run of [0-9] (the verb d takes
    no underscore: only the verb v does), handed to
    strconv.ParseInt in base 10 for 64 bits; input left over after the
    number is not looked at. *)

Fixpoint skip_space (s : string) : option string :=
  match s with
  | String a r1 =>
    if is_byte 0x0A a then None
    else if space1 a then skip_space r1
    else
      match r1 with
      | String b r2 =>
        if space2 a b then skip_space r2
        else
          match r2 with
          | String c r3 => if space3 a b c then skip_space r3 else Some s
          | EmptyString => Some s
          end
      | EmptyString => Some s
      end
  | EmptyString => Some s
  end.

Definition is_digit (c : ascii) : bool := byte_in 0x30 0x39 c.

(** The longest prefix of decimal digits. *)
Fixpoint number_token (s : string) : string :=
  match s with
  | String c r =>
    if is_digit c then String c (number_token r) else EmptyString
  | EmptyString => EmptyString
  end.

(** strconv.ParseUint in base 10, without the bound: [None] on a character
    that is not a digit. *)
Fixpoint parse_digits (acc : Z) (s : string) : option Z :=
  match s with
  | EmptyString => Some acc
  | String c r =>
    if is_digit c then parse_digits (10 * acc + (Z.of_N (byte_val c) - 48)) r
    else None
  end.

Definition ParseInt64 (negative : bool) (digits : string) : option Z :=
  match digits with
  | EmptyString => None
  | _ =>
    match parse_digits 0 digits with
    | None => None
    | Some u =>
      if negative then (if u <=? 2 ^ 63 then Some (- u) else None)
      else (if u <? 2 ^ 63 then Some u else None)
    end
  end.

Definition Sscanf_d (line : string) : option Z :=
  match skip_space line with
  | None => None
  | Some EmptyString => None
  | Some (String c r as s) =>
    if is_byte 0x2D c then ParseInt64 true (number_token r)
    else if is_byte 0x2B c then ParseInt64 false (number_token r)
    else ParseInt64 false (number_token s)
  end.

(* --------------------------------------------------------------------- *)
(** *** fmt: the verb d

    The verb d of fmt on an integer that is not negative: its decimal
    digits, the last one first into the buffer, as strconv's formatBits
    writes them.  The fuel bounds the number of digits. *)

Fixpoint decimal_digits (fuel : nat) (n : Z) (acc : string) : string :=
  match fuel with
  | O => acc
  | S fuel =>
    let acc := String (ascii_of_N (Z.to_N (48 + n mod 10))) acc in
    if n <? 10 then acc else decimal_digits fuel (n / 10) acc
  end.

Definition FormatInt (n : Z) : string :=
  decimal_digits (S (Z.to_nat (Z.log2 n))) n "".

(* --------------------------------------------------------------------- *)
(** *** flag

    A flag set holds, for each defined flag, its current value (at first
    the default) and, after parsing, the arguments that follow the flags. *)

Inductive flag_value :=
| FString (s : string)
| FBool (b : bool).

Inductive flag_error :=
| ErrHelp
| ErrBadSyntax (arg : string)
| ErrNotDefined (name : string)
| ErrNeedsArgument (name : string)
| ErrInvalidBool (value name : string).

(** strconv.ParseBool *)
Definition ParseBool (s : string) : option bool :=
  if existsb (String.eqb s) ["1"; "t"; "T"; "TRUE"; "true"; "True"] then Some true
  else if existsb (String.eqb s) ["0"; "f"; "F"; "FALSE"; "false"; "False"] then Some false
  else None.

Fixpoint flag_lookup (formal : list (string * flag_value)) (name : string) : option flag_value :=
  match formal with
  | [] => None
  | (n, v) :: rest => if String.eqb n name then Some v else flag_lookup rest name
  end.

Fixpoint flag_set (formal : list (string * flag_value)) (name : string) (v : flag_value)
  : list (string * flag_value) :=
  match formal with
  | [] => []
  | (n, old) :: rest =>
    if String.eqb n name then (n, v) :: rest else (n, old) :: flag_set rest name v
  end.

(** Split [name=value] at the first [=] that is not the first character. *)
Fixpoint split_eq (s : string) : string * option string :=
  match s with
  | EmptyString => (EmptyString, None)
  | String c r =>
    if is_byte 0x3D c then (EmptyString, Some r)
    else let '(n, v) := split_eq r in (String c n, v)
  end.

Definition split_flag (name : string) : string * option string :=
  match name with
  | EmptyString => (EmptyString, None)
  | String c r => let '(n, v) := split_eq r in (String c n, v)
  end.

(** The text of a flag argument after its one or two minus signs; [None]
    when the argument is not a flag (it ends the flags and stays), [Some
    None] for the terminator [--] (it ends the flags and is dropped). *)
Definition flag_name (s : string) : option (option string) :=
  match s with
  | String m (String c r) =>
    if negb (is_byte 0x2D m) then None
    else if is_byte 0x2D c then
      match r with
      | EmptyString => Some None
      | _ => Some (Some r)
      end
    else Some (Some (String c r))
  | _ => None
  end.

(** [FlagSet.Parse], as the loop over [parseOne]: the flags' values and the
    remaining arguments, or the error that stopped it. *)
Fixpoint parse_flags (formal : list (string * flag_value)) (args : list string)
  : (list (string * flag_value) * list string) + flag_error :=
  match args with
  | [] => inl (formal, [])
  | s :: rest =>
    match flag_name s with
    | None => inl (formal, args)
    | Some None => inl (formal, rest)
    | Some (Some text) =>
      match text with
      | EmptyString => inr (ErrBadSyntax s)
      | String c0 _ =>
        if (is_byte 0x2D c0 || is_byte 0x3D c0)%bool then inr (ErrBadSyntax s)
        else
          let '(name, value) := split_flag text in
          match flag_lookup formal name with
          | None =>
            if (String.eqb name "help" || String.eqb name "h")%bool then inr ErrHelp
            else inr (ErrNotDefined name)
          | Some (FBool _) =>
            match value with
            | Some v =>
              match ParseBool v with
              | Some b => parse_flags (flag_set formal name (FBool b)) rest
              | None => inr (ErrInvalidBool v name)
              end
            | None => parse_flags (flag_set formal name (FBool true)) rest
            end
          | Some (FString _) =>
            match value with
            | Some v => parse_flags (flag_set formal name (FString v)) rest
            | None =>
              match rest with
              | v :: rest' => parse_flags (flag_set formal name (FString v)) rest'
              | [] => inr (ErrNeedsArgument name)
              end
            end
          end
      end
    end
  end.

Definition flag_string (formal : list (string * flag_value)) (name : string) : string :=
  match flag_lookup formal name with
  | Some (FString s) => s
  | _ => EmptyString
  end.

Definition flag_bool (formal : list (string * flag_value)) (name : string) : bool :=
  match flag_lookup formal name with
  | Some (FBool b) => b
  | _ => false
  end.

(* --------------------------------------------------------------------- *)
(** *** path/filepath

    [filepath.Join] and the [filepath.Clean] it ends with, for the slash as
    separator: a cleaned path has no empty element, no [.], and [..] only
    at its front and only when it is not rooted; the empty path cleans to
    [.]. *)

(** The elements of a path: what stands between its separators. *)
Fixpoint split_slash (s : string) : list string :=
  match s with
  | EmptyString => [EmptyString]
  | String c r =>
    if is_byte 0x2F c then EmptyString :: split_slash r
    else
      match split_slash r with
      | e :: es => String c e :: es
      | [] => [String c EmptyString]
      end
  end.

Fixpoint join_slash (l : list string) : string :=
  match l with
  | [] => EmptyString
  | [e] => e
  | e :: rest => e +:+ "/" +:+ join_slash rest
  end.

(** One element of the path met by [Clean]: an empty element and [.] are
    dropped; [..] takes the last element back, stays when there is none to
    take back and the path is not rooted, and is dropped at the root.  The
    elements kept so far are held last one first. *)
Definition clean_elem (rooted : bool) (kept : list string) (e : string) : list string :=
  if (String.eqb e "" || String.eqb e ".")%bool then kept
  else if String.eqb e ".." then
    match kept with
    | last :: before =>
      if String.eqb last ".." then ".." :: kept else before
    | [] => if rooted then [] else [".."]
    end
  else e :: kept.

(** filepath.Clean, with the slash as separator. *)
Definition Clean (path : string) : string :=
  match path with
  | EmptyString => "."
  | String c _ =>
    let rooted := is_byte 0x2F c in
    let body := join_slash (rev (foldl (clean_elem rooted) [] (split_slash path))) in
    if rooted then "/" +:+ body
    else if String.eqb body "" then "." else body
  end.

(** filepath.Join on two elements: leading empty elements are dropped, the
    others joined with the separator, and the result cleaned. *)
Definition Join (dir name : string) : string :=
  if negb (String.eqb dir "") then Clean (dir +:+ "/" +:+ name)
  else if negb (String.eqb name "") then Clean name
  else "".

Arguments Join : simpl never.

End GoLib.

Import GoLib.

(* ===================================================================== *)
(** ** The program's data: [Profile] and [Config] *)

Record Profile := mkProfile {
  ID : string;          (* json:"id" *)
  GitUser : string;     (* json:"git_user" *)
  GitEmail : string;    (* json:"git_email" *)
  SSHKeyPath : string   (* json:"ssh_key_path,omitempty" *)
}.

(** A Go map is [nil] or a map; reading a [nil] map finds nothing. *)
Record Config := mkConfig {
  Profiles : option (gmap string Profile)   (* json:"profiles" *)
}.

Definition zeroProfile : Profile := mkProfile "" "" "" "".

Definition entries (cfg : Config) : gmap string Profile :=
  default ∅ (Profiles cfg).

(** [cfg.Profiles[id]] in its one-value form: the zero value when absent. *)
Definition profile_at (cfg : Config) (id : string) : Profile :=
  default zeroProfile (entries cfg !! id).

(* --------------------------------------------------------------------- *)
(** *** encoding/json on [Config]

    [Marshal]: struct fields in declaration order under their tag names, an
    empty [ssh_key_path] left out, a [nil] map as [null], a map as an object
    with its keys in ascending order, every string made valid UTF-8. *)

Definition marshal_Profile (p : Profile) : json :=
  JObject
    ([("id", JString (toValidUTF8 (ID p)));
      ("git_user", JString (toValidUTF8 (GitUser p)));
      ("git_email", JString (toValidUTF8 (GitEmail p)))]
     ++ (if String.eqb (SSHKeyPath p) "" then []
         else [("ssh_key_path", JString (toValidUTF8 (SSHKeyPath p)))])).

Definition key_le (a b : string * Profile) : Prop := string_le a.1 b.1.

#[export] Instance key_le_dec a b : Decision (key_le a b).
Proof. unfold key_le. apply _. Defined.

Definition marshal_member (kv : string * Profile) : string * json :=
  (toValidUTF8 kv.1, marshal_Profile kv.2).

Definition marshal_map (m : gmap string Profile) : json :=
  JObject (marshal_member <$> merge_sort key_le (map_to_list m)).

Definition marshal_Config (cfg : Config) : json :=
  JObject [("profiles",
            match Profiles cfg with
            | None => JNull
            | Some m => marshal_map m
            end)].

(** [Unmarshal] into an existing value.  [None] stands for any error: the
    program drops the value it was decoding into whenever there is one.
    [null] leaves a string or a struct as it is and makes a map [nil]; a
    member whose name selects no field is skipped; members are taken in
    order, so that a later one overwrites an earlier one. *)

Fixpoint fold_members {A B : Type} (f : A → B → option A) (l : list B) (a : A) : option A :=
  match l with
  | [] => Some a
  | b :: rest =>
    match f a b with
    | Some a' => fold_members f rest a'
    | None => None
    end
  end.

Definition unmarshal_string (j : json) (old : string) : option string :=
  match j with
  | JNull => Some old
  | JString s => Some s
  | _ => None
  end.

Definition unmarshal_Profile_member (p : Profile) (kv : string * json) : option Profile :=
  let '(k, v) := kv in
  if field_match "id" k then
    s ← unmarshal_string v (ID p);
    Some (mkProfile s (GitUser p) (GitEmail p) (SSHKeyPath p))
  else if field_match "git_user" k then
    s ← unmarshal_string v (GitUser p);
    Some (mkProfile (ID p) s (GitEmail p) (SSHKeyPath p))
  else if field_match "git_email" k then
    s ← unmarshal_string v (GitEmail p);
    Some (mkProfile (ID p) (GitUser p) s (SSHKeyPath p))
  else if field_match "ssh_key_path" k then
    s ← unmarshal_string v (SSHKeyPath p);
    Some (mkProfile (ID p) (GitUser p) (GitEmail p) s)
  else Some p.

Definition unmarshal_Profile (j : json) (p : Profile) : option Profile :=
  match j with
  | JNull => Some p
  | JObject members => fold_members unmarshal_Profile_member members p
  | _ => None
  end.

(** Each element of a map is decoded into a fresh zero value. *)
Definition unmarshal_map_member (m : gmap string Profile) (kv : string * json)
  : option (gmap string Profile) :=
  p ← unmarshal_Profile kv.2 zeroProfile;
  Some (<[kv.1 := p]> m).

Definition unmarshal_map (j : json) (m : option (gmap string Profile))
  : option (option (gmap string Profile)) :=
  match j with
  | JNull => Some None
  | JObject members => Some <$> fold_members unmarshal_map_member members (default ∅ m)
  | _ => None
  end.

Definition unmarshal_Config_member (cfg : Config) (kv : string * json) : option Config :=
  if field_match "profiles" kv.1 then
    mkConfig <$> unmarshal_map kv.2 (Profiles cfg)
  else Some cfg.

Definition unmarshal_Config (j : json) (cfg : Config) : option Config :=
  match j with
  | JNull => Some cfg
  | JObject members => fold_members unmarshal_Config_member members cfg
  | _ => None
  end.

(* ===================================================================== *)
(** ** The world the program runs in *)

(** A file holds a JSON document or text that does not parse as one. *)
Inductive FileData :=
| JsonText (doc : json)
| OtherText (bytes : string).

(** Go's [error] values, as far as the program makes or passes them on. *)
Inductive error :=
| SysError (op path : string)           (* from package os *)
| ExecError (argv : list string)        (* a process that did not exit with 0 *)
| DecodeError                           (* from encoding/json *)
| Errorf (format : string) (args : list string) (wrapped : option error).

Inductive arg :=
| AStr (s : string)
| AInt (n : Z)
| AErr (e : error).

(** What is written to a console stream: the call, not the rendered text. *)
Inductive output :=
| OutPrint (s : string)
| OutPrintln (s : string)
| OutPrintf (format : string) (args : list arg)
| FlagReport (flagset : string) (e : flag_error).   (* package flag: message and usage *)

(** The calls into the operating system, in the order they are made.
    [stdout] and [stderr] below record what the program itself writes; what
    a started [git] writes to the streams it inherits is git's own and is
    not part of them. *)
Inductive event :=
| EvMkdirAll (path : string)
| EvOpen (path : string)
| EvCreate (path : string)
| EvWrite (path : string)
| EvRename (old new : string)
| EvWriteFile (path : string)
| EvExec (argv : list string)
| EvReadLine.

Record World := mkWorld {
  user_config_dir : option string;     (* os.UserConfigDir(); None: not defined *)
  files : gmap string FileData;        (* regular files by path *)
  faults : list bool;                  (* for each coming file operation: does it fail? *)
  replies : list (option string);      (* for each coming process: its output, None: failure *)
  stdin : string;
  stdout : list output;
  stderr : list output;
  trace : list event
}.

Definition set_files (f : gmap string FileData) (w : World) : World :=
  mkWorld (user_config_dir w) f (faults w) (replies w) (stdin w) (stdout w) (stderr w) (trace w).
Definition set_faults (f : list bool) (w : World) : World :=
  mkWorld (user_config_dir w) (files w) f (replies w) (stdin w) (stdout w) (stderr w) (trace w).
Definition set_replies (r : list (option string)) (w : World) : World :=
  mkWorld (user_config_dir w) (files w) (faults w) r (stdin w) (stdout w) (stderr w) (trace w).
Definition set_stdin (s : string) (w : World) : World :=
  mkWorld (user_config_dir w) (files w) (faults w) (replies w) s (stdout w) (stderr w) (trace w).
Definition set_stdout (o : list output) (w : World) : World :=
  mkWorld (user_config_dir w) (files w) (faults w) (replies w) (stdin w) o (stderr w) (trace w).
Definition set_stderr (o : list output) (w : World) : World :=
  mkWorld (user_config_dir w) (files w) (faults w) (replies w) (stdin w) (stdout w) o (trace w).
Definition set_trace (t : list event) (w : World) : World :=
  mkWorld (user_config_dir w) (files w) (faults w) (replies w) (stdin w) (stdout w) (stderr w) t.

(** *** The monad of commands: a state transformer that may end the process *)

Inductive res (A : Type) :=
| Val (a : A)
| Exit (code : Z).
Arguments Val {A} a.
Arguments Exit {A} code.

Definition M (A : Type) : Type := World → res A * World.

#[export] Instance M_ret : MRet M := λ A a w, (Val a, w).

#[export] Instance M_bind : MBind M := λ A B f m w,
  match m w with
  | (Val a, w') => f a w'
  | (Exit c, w') => (Exit c, w')
  end.

Definition os_Exit {A : Type} (code : Z) : M A := λ w, (Exit code, w).

Definition log (e : event) : M unit := λ w, (Val tt, set_trace (trace w ++ [e]) w).

Definition to_stdout (o : output) : M unit := λ w, (Val tt, set_stdout (stdout w ++ [o]) w).

Definition to_stderr (o : output) : M unit := λ w, (Val tt, set_stderr (stderr w ++ [o]) w).

(** Does the file operation that comes now fail?  An empty schedule means
    no failure. *)
Definition fault : M bool := λ w,
  match faults w with
  | [] => (Val false, w)
  | b :: rest => (Val b, set_faults rest w)
  end.

Definition os_UserConfigDir : M (string + error) := λ w,
  match user_config_dir w with
  | Some d => (Val (inl d), w)
  | None => (Val (inr (SysError "UserConfigDir" "")), w)
  end.

Definition file_at (path : string) : M (option FileData) := λ w,
  (Val (files w !! path), w).

Definition put_file (path : string) (d : FileData) : M unit := λ w,
  (Val tt, set_files (<[path := d]> (files w)) w).

Definition move_file (old new : string) (d : FileData) : M unit := λ w,
  (Val tt, set_files (<[new := d]> (delete old (files w))) w).

(** Directories are not part of [files]: creating one succeeds or fails. *)
Definition os_MkdirAll (path : string) : M (option error) :=
  log (EvMkdirAll path);;
  f ← fault;
  mret (if f : bool then Some (SysError "mkdir" path) else None).

Inductive open_result :=
| Opened (data : FileData)
| NotExist
| OpenFailed (e : error).

Definition os_Open (path : string) : M open_result :=
  log (EvOpen path);;
  f ← fault;
  if f : bool then mret (OpenFailed (SysError "open" path))
  else
    d ← file_at path;
    mret (match d with Some d => Opened d | None => NotExist end).

(** os.Create: the file exists afterwards and is empty. *)
Definition os_Create (path : string) : M (option error) :=
  log (EvCreate path);;
  f ← fault;
  if f : bool then mret (Some (SysError "open" path))
  else put_file path (OtherText "");; mret None.

(** Writing the whole content of an open file. *)
Definition file_write (path : string) (d : FileData) : M (option error) :=
  log (EvWrite path);;
  f ← fault;
  if f : bool then mret (Some (SysError "write" path))
  else put_file path d;; mret None.

Definition os_Rename (old new : string) : M (option error) :=
  log (EvRename old new);;
  f ← fault;
  if f : bool then mret (Some (SysError "rename" old))
  else
    d ← file_at old;
    match d with
    | Some d => move_file old new d;; mret None
    | None => mret (Some (SysError "rename" old))
    end.

(** os.WriteFile: the file is opened for writing, created or emptied; the
    bytes are written; the file is closed.  Each of the three can fail, and
    an error after the opening leaves the file as it is by then: emptied
    when the write failed (how much of the bytes a write that failed has
    left is not modelled: nothing is stated of such a file), written when
    only the closing failed. *)
Definition os_WriteFile (path : string) (bytes : string) : M (option error) :=
  log (EvWriteFile path);;
  f ← fault;
  if f : bool then mret (Some (SysError "open" path))
  else
    put_file path (OtherText "");;
    f ← fault;
    if f : bool then mret (Some (SysError "write" path))
    else
      put_file path (OtherText bytes);;
      f ← fault;
      mret (if f : bool then Some (SysError "close" path) else None).

(** Running a process to its end: what it wrote to its standard output, or
    [None] when it could not be started or did not exit with 0.  Nothing is
    assumed of what the process does: its replies are the world's. *)
Definition next_reply : M (option string) := λ w,
  match replies w with
  | [] => (Val None, w)
  | r :: rest => (Val r, set_replies rest w)
  end.

Definition exec_Command (argv : list string) : M (option string) :=
  log (EvExec argv);; next_reply.

(** [cmd.Run()] *)
Definition cmd_Run (argv : list string) : M (option error) :=
  r ← exec_Command argv;
  mret (match r with Some _ => None | None => Some (ExecError argv) end).

(** [cmd.Output()] *)
Definition cmd_Output (argv : list string) : M (string + error) :=
  r ← exec_Command argv;
  mret (match r with Some out => inl out | None => inr (ExecError argv) end).

(** [reader.ReadString(newline)]: up to and with the first newline, or all
    there is (the error at the end of input is dropped by the caller). *)
Fixpoint split_line (s : string) : string * string :=
  match s with
  | EmptyString => (EmptyString, EmptyString)
  | String c r =>
    if is_byte 0x0A c then (String c EmptyString, r)
    else let '(l, rest) := split_line r in (String c l, rest)
  end.

Definition take_line : M string := λ w,
  let '(l, rest) := split_line (stdin w) in (Val l, set_stdin rest w).

Definition ReadString_nl : M string :=
  log EvReadLine;; take_line.

Fixpoint for_each {A : Type} (l : list A) (f : A → M unit) : M unit :=
  match l with
  | [] => mret tt
  | a :: rest => f a;; for_each rest f
  end.

Fixpoint for_each_from {A : Type} (i : Z) (l : list A) (f : Z → A → M unit) : M unit :=
  match l with
  | [] => mret tt
  | a :: rest => f i a;; for_each_from (i + 1) rest f
  end.

(** A run-time panic (assignment to an entry of a [nil] map, an index out
    of range): the Go runtime reports it and ends the process with 2. *)
Definition go_panic {A : Type} (what : string) : M A :=
  to_stderr (OutPrintln ("panic: " +:+ what));; os_Exit 2.

(** [fs.Parse(args)] of a flag set made with [flag.ExitOnError]: an error
    is reported on standard error and ends the process, with 0 when help
    was asked for and with 2 otherwise. *)
Definition flag_Parse (flagset : string) (formal : list (string * flag_value))
    (args : list string) : M (list (string * flag_value) * list string) :=
  match parse_flags formal args with
  | inl r => mret r
  | inr e =>
    to_stderr (FlagReport flagset e);;
    os_Exit (match e with ErrHelp => 0 | _ => 2 end)
  end.

(* ===================================================================== *)
(** ** main.go

    Format strings are kept as the source writes them (escapes included);
    they are recorded, never rendered. *)

(* ----- Config file handling ----- *)

Definition defaultConfigPath : M (string + error) :=
  r ← os_UserConfigDir;
  match r with
  | inr err => mret (inr err)
  | inl cfgDir =>
    let dir := Join cfgDir "gitprofile" in
    err ← os_MkdirAll dir;
    match err with
    | Some err => mret (inr err)
    | None => mret (inl (Join dir "config.json"))
    end
  end.

(** [json.NewDecoder(f).Decode(cfg)] *)
Definition json_Decode (d : FileData) (cfg : Config) : option Config :=
  match d with
  | JsonText doc => unmarshal_Config doc cfg
  | OtherText _ => None
  end.

Definition loadConfig : M (Config * string + error) :=
  r ← defaultConfigPath;
  match r with
  | inr err => mret (inr err)
  | inl path =>
    let cfg := mkConfig (Some ∅) in
    f ← os_Open path;
    match f with
    | OpenFailed err => mret (inr err)
    | NotExist => mret (inl (cfg, path))      (* empty config *)
    | Opened d =>
      match json_Decode d cfg with
      | None => mret (inr DecodeError)
      | Some cfg =>
        let cfg := match Profiles cfg with
                   | None => mkConfig (Some ∅)
                   | Some _ => cfg
                   end in
        mret (inl (cfg, path))
      end
    end
  end.

Definition saveConfig (cfg : Config) (path : string) : M (option error) :=
  let tmp := path +:+ ".tmp" in
  err ← os_Create tmp;
  match err with
  | Some err => mret (Some err)
  | None =>
    err ← file_write tmp (JsonText (marshal_Config cfg));
    match err with
    | Some err => mret (Some err)
    | None => os_Rename tmp path
    end
  end.

(* ----- Git config helpers ----- *)

(** scope: "global" or anything else (treated as local) *)
Definition runGitConfig (scope key value : string) : M (option error) :=
  let args := ["config"] in
  let args := if String.eqb scope "global" then (args ++ ["--global"])%list else args in
  let args := (args ++ [key; value])%list in
  cmd_Run ("git" :: args).

Definition getGitConfig (key : string) : M (string + error) :=
  r ← cmd_Output ["git"; "config"; "--get"; key];
  match r with
  | inr err => mret (inr err)
  | inl out => mret (inl (TrimSpace out))
  end.

Definition getGitConfigGlobal (key : string) : M (string + error) :=
  r ← cmd_Output ["git"; "config"; "--global"; "--get"; key];
  match r with
  | inr err => mret (inr err)
  | inl out => mret (inl (TrimSpace out))
  end.

Definition sshCommand (path : string) : string :=
  "ssh -i " +:+ path +:+ " -F /dev/null".

Definition applyProfile (p : Profile) (scope : string) : M (option error) :=
  err ← runGitConfig scope "user.name" (GitUser p);
  match err with
  | Some err => mret (Some (Errorf "setting user.name: %w" [] (Some err)))
  | None =>
    err ← runGitConfig scope "user.email" (GitEmail p);
    match err with
    | Some err => mret (Some (Errorf "setting user.email: %w" [] (Some err)))
    | None =>
      if negb (String.eqb (SSHKeyPath p) "") then
        let sshCmd := sshCommand (SSHKeyPath p) in
        err ← runGitConfig scope "core.sshCommand" sshCmd;
        match err with
        | Some err => mret (Some (Errorf "setting core.sshCommand: %w" [] (Some err)))
        | None => mret None
        end
      else if negb (String.eqb scope "global") then
        (* Clear repo-specific sshCommand if present *)
        cmd_Run ["git"; "config"; "--unset"; "core.sshCommand"];;
        mret None
      else mret None
    end
  end.

Definition gitDir : M (string + error) :=
  r ← cmd_Output ["git"; "rev-parse"; "--git-dir"];
  match r with
  | inr err => mret (inr err)
  | inl out => mret (inl (TrimSpace out))
  end.

(* ----- Commands ----- *)

Definition add_flags : list (string * flag_value) :=
  [("id", FString ""); ("name", FString ""); ("email", FString ""); ("ssh-key", FString "")].

Definition cmdAdd (args : list string) : M (option error) :=
  '(fs, _) ← flag_Parse "add" add_flags args;
  let id := flag_string fs "id" in
  let name := flag_string fs "name" in
  let email := flag_string fs "email" in
  let sshKey := flag_string fs "ssh-key" in
  if (String.eqb id "" || String.eqb name "" || String.eqb email "")%bool then
    mret (Some (Errorf "id, name and email are required" [] None))
  else
    r ← loadConfig;
    match r with
    | inr err => mret (Some err)
    | inl (cfg, path) =>
      match entries cfg !! id with
      | Some _ => mret (Some (Errorf "profile %q already exists" [id] None))
      | None =>
        let p := mkProfile id name email sshKey in
        match Profiles cfg with
        | None => go_panic "assignment to entry in nil map"
        | Some m =>
          let cfg := mkConfig (Some (<[id := p]> m)) in
          err ← saveConfig cfg path;
          match err with
          | Some err => mret (Some err)
          | None =>
            to_stdout (OutPrintf "Added profile %q\n" [AStr id]);;
            mret None
          end
        end
      end
    end.

Definition sorted_ids (cfg : Config) : list string :=
  sort_strings (map_to_list (entries cfg)).*1.

Definition cmdList (args : list string) : M (option error) :=
  r ← loadConfig;
  match r with
  | inr err => mret (Some err)
  | inl (cfg, _) =>
    if (size (entries cfg) =? 0)%nat then
      to_stdout (OutPrintln "No profiles configured yet.");;
      mret None
    else
      let ids := sorted_ids cfg in
      to_stdout (OutPrintln "Configured profiles:");;
      for_each ids (λ id,
        let p := profile_at cfg id in
        let ssh := SSHKeyPath p in
        let ssh := if String.eqb ssh "" then "(default SSH)" else ssh in
        to_stdout (OutPrintf "  - %s: %s <%s>, ssh=%s\n"
                     [AStr id; AStr (GitUser p); AStr (GitEmail p); AStr ssh]));;
      mret None
  end.

Definition global_flag : list (string * flag_value) := [("global", FBool false)].

Definition cmdUse (args : list string) : M (option error) :=
  '(fs, rest) ← flag_Parse "use" global_flag args;
  let scopeGlobal := flag_bool fs "global" in
  match rest with
  | [] => mret (Some (Errorf "usage: git-profile use [--global] <profile-id>" [] None))
  | id :: _ =>
    r ← loadConfig;
    match r with
    | inr err => mret (Some err)
    | inl (cfg, _) =>
      match entries cfg !! id with
      | None => mret (Some (Errorf "profile %q not found" [id] None))
      | Some p =>
        let scope := if scopeGlobal then "global" else "local" in
        err ← applyProfile p scope;
        match err with
        | Some err => mret (Some err)
        | None =>
          to_stdout (OutPrintf "Applied profile %q to %s git config\n" [AStr id; AStr scope]);;
          mret None
        end
      end
    end
  end.

Definition is_inl {A B : Type} (r : A + B) : bool :=
  match r with inl _ => true | inr _ => false end.

(** [err == nil && value != ""] *)
Definition set_value (r : string + error) : option string :=
  match r with
  | inl v => if String.eqb v "" then None else Some v
  | inr _ => None
  end.

Definition cmdCurrent (args : list string) : M (option error) :=
  name ← getGitConfig "user.name";
  email ← getGitConfig "user.email";
  if (negb (is_inl name) && negb (is_inl email))%bool then
    mret (Some (Errorf "no user.name or user.email set in this repo" [] None))
  else
    to_stdout (OutPrintln "Current git identity (this repo):");;
    match name with
    | inl name => to_stdout (OutPrintf "  user.name  = %s\n" [AStr name])
    | inr _ => mret tt
    end;;
    match email with
    | inl email => to_stdout (OutPrintf "  user.email = %s\n" [AStr email])
    | inr _ => mret tt
    end;;
    ssh ← getGitConfig "core.sshCommand";
    match set_value ssh with
    | Some ssh => to_stdout (OutPrintf "  core.sshCommand = %s\n" [AStr ssh])
    | None => to_stdout (OutPrintln "  core.sshCommand = (default)")
    end;;
    def ← getGitConfig "gitprofile.default";
    match set_value def with
    | Some def => to_stdout (OutPrintf "  gitprofile.default (local) = %s\n" [AStr def])
    | None => mret tt
    end;;
    globalDef ← getGitConfigGlobal "gitprofile.default";
    match set_value globalDef with
    | Some globalDef =>
      to_stdout (OutPrintf "  gitprofile.default (global) = %s\n" [AStr globalDef])
    | None => mret tt
    end;;
    mret None.

Definition cmdChoose (args : list string) : M (option error) :=
  r ← loadConfig;
  match r with
  | inr err => mret (Some err)
  | inl (cfg, _) =>
    if (size (entries cfg) =? 0)%nat then
      mret (Some (Errorf "no profiles configured; run `git-profile add` first" [] None))
    else
      let ids := sorted_ids cfg in
      to_stdout (OutPrintln "Select profile:");;
      for_each_from 0 ids (λ i id,
        let p := profile_at cfg id in
        to_stdout (OutPrintf "  [%d] %s: %s <%s>\n"
                     [AInt (i + 1); AStr id; AStr (GitUser p); AStr (GitEmail p)]));;
      to_stdout (OutPrint "Enter number: ");;
      line ← ReadString_nl;
      let line := TrimSpace line in
      if String.eqb line "" then mret (Some (Errorf "no selection made" [] None))
      else
        let choice := Sscanf_d line in
        match choice with
        | None => mret (Some (Errorf "invalid selection" [] None))
        | Some choice =>
          if ((choice <? 1) || (choice >? Z.of_nat (length ids)))%bool then
            mret (Some (Errorf "invalid selection" [] None))
          else
            match ids !! Z.to_nat (choice - 1) with
            | None => go_panic "index out of range"
            | Some selectedID =>
              let p := profile_at cfg selectedID in
              (* Always apply to local repo for choose() *)
              err ← applyProfile p "local";
              match err with
              | Some err => mret (Some err)
              | None =>
                to_stdout (OutPrintf "Applied profile %q to local repo\n" [AStr selectedID]);;
                mret None
              end
            end
        end
  end.

(** set-default: store default profile in git config *)
Definition cmdSetDefault (args : list string) : M (option error) :=
  '(fs, rest) ← flag_Parse "set-default" global_flag args;
  let scopeGlobal := flag_bool fs "global" in
  match rest with
  | [] => mret (Some (Errorf "usage: git-profile set-default [--global] <profile-id>" [] None))
  | id :: _ =>
    r ← loadConfig;
    match r with
    | inr err => mret (Some err)
    | inl (cfg, _) =>
      match entries cfg !! id with
      | None => mret (Some (Errorf "profile %q not found" [id] None))
      | Some _ =>
        let scope := if scopeGlobal then "global" else "local" in
        err ← runGitConfig scope "gitprofile.default" id;
        match err with
        | Some err => mret (Some err)
        | None =>
          to_stdout (OutPrintf "Set %q as %s default profile\n" [AStr id; AStr scope]);;
          mret None
        end
      end
    end
  end.

(** The profile a default names, when the default is set and known. *)
Definition known_default (cfg : Config) (r : string + error) : option Profile :=
  match set_value r with
  | Some def => entries cfg !! def
  | None => None
  end.

(** ensure: used by hooks
    1) If local gitprofile.default exists and matches a profile -> apply it
    2) Else if global gitprofile.default exists and matches -> apply it
    3) Else -> interactive choose() *)
Definition cmdEnsure (args : list string) : M (option error) :=
  r ← loadConfig;
  match r with
  | inr err => mret (Some err)
  | inl (cfg, _) =>
    if (size (entries cfg) =? 0)%nat then
      mret (Some (Errorf "no profiles configured; run `git-profile add` first" [] None))
    else
      (* 1) Local default *)
      def ← getGitConfig "gitprofile.default";
      match known_default cfg def with
      | Some p => applyProfile p "local"
      | None =>
        (* 2) Global default *)
        gdef ← getGitConfigGlobal "gitprofile.default";
        match known_default cfg gdef with
        | Some p => applyProfile p "local"
        | None =>
          (* 3) Fallback: interactive *)
          cmdChoose []
        end
      end
  end.

Definition hookContent : string :=
"#!/bin/sh
# git-profile hook: ensure correct profile before commit/push
git-profile ensure >/dev/null 2>&1 || true
".

Fixpoint write_hooks (hooksDir : string) (hooks : list string) : M (option error) :=
  match hooks with
  | [] => mret None
  | name :: rest =>
    let path := Join hooksDir name in
    err ← os_WriteFile path hookContent;
    match err with
    | Some err => mret (Some (Errorf "writing hook %s: %w" [name] (Some err)))
    | None => write_hooks hooksDir rest
    end
  end.

(** install-hooks: installs prepare-commit-msg & pre-push hooks for this repo *)
Definition cmdInstallHooks (args : list string) : M (option error) :=
  r ← gitDir;
  match r with
  | inr err => mret (Some (Errorf "not a git repo? %w" [] (Some err)))
  | inl gd =>
    let hooksDir := Join gd "hooks" in
    err ← os_MkdirAll hooksDir;
    match err with
    | Some err => mret (Some err)
    | None =>
      let hooks := ["prepare-commit-msg"; "pre-push"] in
      err ← write_hooks hooksDir hooks;
      match err with
      | Some err => mret (Some err)
      | None =>
        to_stdout (OutPrintf "Installed git-profile hooks in %s\n" [AStr hooksDir]);;
        to_stdout (OutPrintln
          "From now on, normal `git commit` and `git push` will apply/ask for a profile.");;
        mret None
      end
    end
  end.

(* ----- Usage / main ----- *)

Definition dq : string := String (ascii_of_N 34) EmptyString.

Definition usage_text : string :=
"git-profile - manage multiple git/GitHub identity profiles

Usage:
  git-profile add         --id <id> --name " +:+ dq +:+ "<User Name>" +:+ dq +:+
" --email " +:+ dq +:+ "email@example.com" +:+ dq +:+ " [--ssh-key /path/to/key]
  git-profile list
  git-profile use         [--global] <id>
  git-profile current
  git-profile choose
  git-profile set-default [--global] <id>
  git-profile ensure
  git-profile install-hooks

Commands:
  add           Add a new identity profile
  list          List configured profiles
  use           Apply a profile to this repo or globally
  current       Show current git identity and defaults
  choose        Interactively choose a profile and apply locally
  set-default   Set per-repo or global default profile (stored in git config)
  ensure        Apply repo default, then global default, otherwise prompt (used by hooks)
  install-hooks Install hooks so plain 'git commit' and 'git push' call 'git-profile ensure'".

Definition usage : M unit := to_stdout (OutPrintln usage_text).

Inductive command :=
| Add | List | Use | Current | Choose | SetDefault | Ensure | InstallHooks.

Definition command_of (cmd : string) : option command :=
  if String.eqb cmd "add" then Some Add
  else if String.eqb cmd "list" then Some List
  else if String.eqb cmd "use" then Some Use
  else if String.eqb cmd "current" then Some Current
  else if String.eqb cmd "choose" then Some Choose
  else if String.eqb cmd "set-default" then Some SetDefault
  else if String.eqb cmd "ensure" then Some Ensure
  else if String.eqb cmd "install-hooks" then Some InstallHooks
  else None.

Definition handler (c : command) : list string → M (option error) :=
  match c with
  | Add => cmdAdd
  | List => cmdList
  | Use => cmdUse
  | Current => cmdCurrent
  | Choose => cmdChoose
  | SetDefault => cmdSetDefault
  | Ensure => cmdEnsure
  | InstallHooks => cmdInstallHooks
  end.

Definition is_help (cmd : string) : bool :=
  (String.eqb cmd "help" || String.eqb cmd "-h" || String.eqb cmd "--help")%bool.

(** [main], on [os.Args]. *)
Definition main (os_Args : list string) : M unit :=
  match os_Args with
  | _ :: cmd :: args =>
    err ← match command_of cmd with
          | Some c => handler c args
          | None =>
            if is_help cmd then usage;; mret None
            else
              to_stderr (OutPrintf "Unknown command: %s\n\n" [AStr cmd]);;
              usage;;
              os_Exit 1
          end;
    match err with
    | Some err =>
      to_stderr (OutPrintf "Error: %v\n" [AErr err]);;
      os_Exit 1
    | None => mret tt
    end
  | _ => usage;; os_Exit 1
  end.

(** The exit status of the process: 0 when [main] returns. *)
Definition exit_code (r : res unit) : Z :=
  match r with
  | Val _ => 0
  | Exit c => c
  end.

(** *** The earlier program

    The source carries a second, earlier [main.go] with five commands.  Its
    [applyProfile] clears the SSH command only when the scope is exactly
    "local"; its [list] and [choose] take the profiles as a [range] over
    the map meets them; its [current] does not report the defaults. *)
Module Earlier.

Definition applyProfile (p : Profile) (scope : string) : M (option error) :=
  err ← runGitConfig scope "user.name" (GitUser p);
  match err with
  | Some err => mret (Some (Errorf "setting user.name: %w" [] (Some err)))
  | None =>
    err ← runGitConfig scope "user.email" (GitEmail p);
    match err with
    | Some err => mret (Some (Errorf "setting user.email: %w" [] (Some err)))
    | None =>
      if negb (String.eqb (SSHKeyPath p) "") then
        let sshCmd := sshCommand (SSHKeyPath p) in
        err ← runGitConfig scope "core.sshCommand" sshCmd;
        match err with
        | Some err => mret (Some (Errorf "setting core.sshCommand: %w" [] (Some err)))
        | None => mret None
        end
      else if String.eqb scope "local" then
        (* Clear repo-specific sshCommand if present *)
        cmd_Run ["git"; "config"; "--unset"; "core.sshCommand"];;
        mret None
      else mret None
    end
  end.

(** The earlier [cmdChoose] numbers the profiles as a [range] over the map
    yields them.  Go leaves that order unspecified, so it is a parameter
    here: [order cfg] is the order in which this run meets the ids. *)
Definition cmdChoose (order : Config → list string) (args : list string)
  : M (option error) :=
  r ← loadConfig;
  match r with
  | inr err => mret (Some err)
  | inl (cfg, _) =>
    if (size (entries cfg) =? 0)%nat then
      mret (Some (Errorf "no profiles configured; run `git-profile add` first" [] None))
    else
      to_stdout (OutPrintln "Select profile:");;
      let ids := order cfg in
      for_each_from 1 ids (λ i id,
        let p := profile_at cfg id in
        to_stdout (OutPrintf "  [%d] %s: %s <%s>\n"
                     [AInt i; AStr id; AStr (GitUser p); AStr (GitEmail p)]));;
      to_stdout (OutPrint "Enter number: ");;
      line ← ReadString_nl;
      let line := TrimSpace line in
      if String.eqb line "" then mret (Some (Errorf "no selection made" [] None))
      else
        let choice := Sscanf_d line in
        match choice with
        | None => mret (Some (Errorf "invalid selection" [] None))
        | Some choice =>
          if ((choice <? 1) || (choice >? Z.of_nat (length ids)))%bool then
            mret (Some (Errorf "invalid selection" [] None))
          else
            match ids !! Z.to_nat (choice - 1) with
            | None => go_panic "index out of range"
            | Some selectedID =>
              let p := profile_at cfg selectedID in
              (* alway apply to local repo for choose() *)
              err ← applyProfile p "local";
              match err with
              | Some err => mret (Some err)
              | None =>
                to_stdout (OutPrintf "Applied profile %q to local repo\n" [AStr selectedID]);;
                mret None
              end
            end
        end
  end.

(** [cmdAdd] and the functions of the config store and of the git adapter
    read the same in the earlier file; they are shared here. *)

Definition cmdList (order : Config → list string) (args : list string) : M (option error) :=
  r ← loadConfig;
  match r with
  | inr err => mret (Some err)
  | inl (cfg, _) =>
    if (size (entries cfg) =? 0)%nat then
      to_stdout (OutPrintln "No profiles configured yet.");;
      mret None
    else
      to_stdout (OutPrintln "Configured profiles:");;
      for_each (order cfg) (λ id,
        let p := profile_at cfg id in
        let ssh := SSHKeyPath p in
        let ssh := if String.eqb ssh "" then "(default SSH)" else ssh in
        to_stdout (OutPrintf "  - %s: %s <%s>, ssh=%s\n"
                     [AStr id; AStr (GitUser p); AStr (GitEmail p); AStr ssh]));;
      mret None
  end.

Definition cmdUse (args : list string) : M (option error) :=
  '(fs, rest) ← flag_Parse "use" global_flag args;
  let scopeGlobal := flag_bool fs "global" in
  match rest with
  | [] => mret (Some (Errorf "usage: git-profile use [--global] <profile-id>" [] None))
  | id :: _ =>
    r ← loadConfig;
    match r with
    | inr err => mret (Some err)
    | inl (cfg, _) =>
      match entries cfg !! id with
      | None => mret (Some (Errorf "profile %q not found" [id] None))
      | Some p =>
        let scope := if scopeGlobal then "global" else "local" in
        err ← applyProfile p scope;
        match err with
        | Some err => mret (Some err)
        | None =>
          to_stdout (OutPrintf "Applied profile %q to %s git config\n" [AStr id; AStr scope]);;
          mret None
        end
      end
    end
  end.

Definition cmdCurrent (args : list string) : M (option error) :=
  name ← getGitConfig "user.name";
  email ← getGitConfig "user.email";
  if (negb (is_inl name) && negb (is_inl email))%bool then
    mret (Some (Errorf "no user.name or user.email set in this repo" [] None))
  else
    to_stdout (OutPrintln "Current git identity (this repo):");;
    match name with
    | inl name => to_stdout (OutPrintf "  user.name  = %s\n" [AStr name])
    | inr _ => mret tt
    end;;
    match email with
    | inl email => to_stdout (OutPrintf "  user.email = %s\n" [AStr email])
    | inr _ => mret tt
    end;;
    ssh ← getGitConfig "core.sshCommand";
    match set_value ssh with
    | Some ssh => to_stdout (OutPrintf "  core.sshCommand = %s\n" [AStr ssh])
    | None => to_stdout (OutPrintln "  core.sshCommand = (default)")
    end;;
    mret None.

Definition usage_text : string :=
"git-profile - manage multiple git/GitHub identity profiles

Usage:
  git-profile add     --id <id> --name " +:+ dq +:+ "<User Name>" +:+ dq +:+
" --email " +:+ dq +:+ "email@example.com" +:+ dq +:+ " [--ssh-key /path/to/key]
  git-profile list
  git-profile use     [--global] <id>
  git-profile current
  git-profile choose  (interactive selector; good for wrapping git commit/push)".

Definition usage : M unit := to_stdout (OutPrintln usage_text).

Inductive command := Add | List | Use | Current | Choose.

Definition command_of (cmd : string) : option command :=
  if String.eqb cmd "add" then Some Add
  else if String.eqb cmd "list" then Some List
  else if String.eqb cmd "use" then Some Use
  else if String.eqb cmd "current" then Some Current
  else if String.eqb cmd "choose" then Some Choose
  else None.

Definition handler (order : Config → list string) (c : command)
  : list string → M (option error) :=
  match c with
  | Add => cmdAdd
  | List => cmdList order
  | Use => cmdUse
  | Current => cmdCurrent
  | Choose => cmdChoose order
  end.

Definition main (order : Config → list string) (os_Args : list string) : M unit :=
  match os_Args with
  | _ :: cmd :: args =>
    err ← match command_of cmd with
          | Some c => handler order c args
          | None =>
            if is_help cmd then usage;; mret None
            else
              to_stderr (OutPrintf "Unknown command: %s\n\n" [AStr cmd]);;
              usage;;
              os_Exit 1
          end;
    match err with
    | Some err =>
      to_stderr (OutPrintf "Error: %v\n" [AErr err]);;
      os_Exit 1
    | None => mret tt
    end
  | _ => usage;; os_Exit 1
  end.

End Earlier.

(* ===================================================================== *)
(** ** Running commands *)

Lemma run_bind {A B : Type} (m : M A) (f : A → M B) (w : World) :
  (m ≫= f) w = match m w with
               | (Val a, w') => f a w'
               | (Exit c, w') => (Exit c, w')
               end.
Proof. reflexivity. Qed.

Lemma run_ret {A : Type} (a : A) (w : World) : (mret a : M A) w = (Val a, w).
Proof. reflexivity. Qed.

Ltac unfold_prims :=
  unfold cmd_Run, cmd_Output, exec_Command, ReadString_nl, go_panic, os_MkdirAll, os_Open,
    os_Create, file_write, os_Rename, os_WriteFile, os_UserConfigDir, take_line, next_reply,
    file_at, put_file, move_file, fault, log, to_stdout, to_stderr, os_Exit,
    mbind, M_bind, mret, M_ret in *.

(** The path of the stored config for a user whose config directory is [d]. *)
Definition config_path (d : string) : string :=
  Join (Join d "gitprofile") "config.json".

(** A config as a load hands it out: its map is never [nil]. *)
Definition normalize (cfg : Config) : Config := mkConfig (Some (entries cfg)).

(** What [loadConfig] makes of the content of the config file. *)
Definition read_config (content : option FileData) : option Config :=
  match content with
  | None => Some (mkConfig (Some ∅))
  | Some data => normalize <$> json_Decode data (mkConfig (Some ∅))
  end.

(** A frame: a relation between the world before and after that a command
    keeps whatever it returns and whether or not it ends the process. *)
Definition frame {A : Type} (R : relation World) (m : M A) : Prop :=
  ∀ w, R w (m w).2.

Section Frames.
Context (R : relation World) `{!PreOrder R}.

Lemma frame_ret {A : Type} (a : A) : frame R (mret a : M A).
Proof. intros w. reflexivity. Qed.

Lemma frame_bind {A B : Type} (m : M A) (f : A → M B) :
  frame R m → (∀ a, frame R (f a)) → frame R (m ≫= f).
Proof.
  intros Hm Hf w. rewrite run_bind. specialize (Hm w).
  destruct (m w) as [[a|c] w1]; cbn in *; [|done].
  etrans; [exact Hm|apply Hf].
Qed.

Lemma frame_exit {A : Type} (c : Z) : frame R (os_Exit c : M A).
Proof. intros w. reflexivity. Qed.

Lemma frame_for_each {A : Type} (l : list A) (f : A → M unit) :
  (∀ a, frame R (f a)) → frame R (for_each l f).
Proof.
  intros Hf. induction l as [|a l IH]; cbn [for_each].
  - apply frame_ret.
  - apply frame_bind; [apply Hf|intros _; apply IH].
Qed.

Lemma frame_for_each_from {A : Type} (l : list A) (f : Z → A → M unit) (i : Z) :
  (∀ j a, frame R (f j a)) → frame R (for_each_from i l f).
Proof.
  intros Hf. revert i. induction l as [|a l IH]; intros i; cbn [for_each_from].
  - apply frame_ret.
  - apply frame_bind; [apply Hf|intros _; apply IH].
Qed.
End Frames.

(** Breaks a frame goal down along the structure of the command. *)
Ltac frame_step :=
  match goal with
  | |- frame _ (mret _) => apply frame_ret; try apply _
  | |- frame _ (os_Exit _) => apply frame_exit; try apply _
  | |- frame _ (_ ≫= _) => apply frame_bind; [try apply _| |intros ?]
  | |- frame _ (for_each _ _) => apply frame_for_each; [try apply _|intros ?]
  | |- frame _ (for_each_from _ _ _) => apply frame_for_each_from; [try apply _|intros ? ?]
  | |- frame _ (match ?x with _ => _ end) => destruct x
  | |- frame _ (let '(_, _) := ?x in _) => destruct x
  end.

(** [keeps proj]: the command leaves [proj] of the world as it was. *)
Definition keeps {T : Type} (proj : World → T) : relation World :=
  λ w w', proj w' = proj w.

#[export] Instance keeps_preorder {T : Type} (proj : World → T) : PreOrder (keeps proj).
Proof.
  split.
  - intros w. reflexivity.
  - intros w1 w2 w3 H12 H23. unfold keeps in *. congruence.
Qed.

(** The processes started so far, the number of files opened and of lines
    read so far, and whether any file was written. *)
Definition execs_of (t : list event) : list (list string) :=
  omap (λ e, match e with EvExec argv => Some argv | _ => None end) t.

Definition is_open (e : event) : bool :=
  match e with EvOpen _ => true | _ => false end.

Definition is_read (e : event) : bool :=
  match e with EvReadLine => true | _ => false end.

Definition is_write (e : event) : bool :=
  match e with
  | EvCreate _ | EvWrite _ | EvRename _ _ | EvWriteFile _ => true
  | _ => false
  end.

Definition execs (w : World) : list (list string) := execs_of (trace w).
Definition opens (w : World) : nat := length (List.filter is_open (trace w)).
Definition reads (w : World) : nat := length (List.filter is_read (trace w)).
Definition writes (w : World) : nat := length (List.filter is_write (trace w)).

(** The command returns to its caller (it neither exits nor panics), with
    a value for which [P] holds. *)
Definition yields {A : Type} (P : A → Prop) (m : M A) : Prop :=
  ∀ w, ∃ a, (m w).1 = Val a ∧ P a.

Lemma yields_ret {A : Type} (P : A → Prop) (a : A) : P a → yields P (mret a : M A).
Proof. intros HP w. by exists a. Qed.

Lemma yields_bind {A B : Type} (P : A → Prop) (Q : B → Prop) (m : M A) (f : A → M B) :
  yields P m → (∀ a, P a → yields Q (f a)) → yields Q (m ≫= f).
Proof.
  intros Hm Hf w. rewrite run_bind. destruct (Hm w) as (a & Ha & HP).
  destruct (m w) as [r w1]; cbn in Ha; subst r. apply (Hf a HP).
Qed.

Lemma yields_weaken {A : Type} (P Q : A → Prop) (m : M A) :
  (∀ a, P a → Q a) → yields P m → yields Q m.
Proof. intros HPQ Hm w. destruct (Hm w) as (a & Ha & HP). eauto. Qed.

Lemma yields_for_each {A : Type} (l : list A) (f : A → M unit) :
  (∀ a, yields (λ _, True) (f a)) → yields (λ _, True) (for_each l f).
Proof.
  intros Hf. induction l as [|a l IH]; cbn [for_each].
  - by apply yields_ret.
  - eapply yields_bind; [apply Hf|intros _ _; apply IH].
Qed.

Lemma yields_for_each_from {A : Type} (l : list A) (f : Z → A → M unit) (i : Z) :
  (∀ j a, yields (λ _, True) (f j a)) → yields (λ _, True) (for_each_from i l f).
Proof.
  intros Hf. revert i. induction l as [|a l IH]; intros i; cbn [for_each_from].
  - by apply yields_ret.
  - eapply yields_bind; [apply Hf|intros _ _; apply IH].
Qed.

Ltac yields_prim :=
  let w := fresh "w" in
  intros w; unfold_prims; destruct w as [? ? [|[] ?] [|? ?] ? ? ? ?]; cbn;
  repeat case_match; simplify_eq; cbn; eauto.

(* --------------------------------------------------------------------- *)
(** *** The primitives *)

Ltac trace_simpl :=
  unfold keeps, execs, execs_of, opens, reads, writes; cbn;
  rewrite ?omap_app, ?List.filter_app, ?length_app; cbn;
  rewrite ?app_nil_r, ?Nat.add_0_r.

Ltac prim_keeps :=
  let w := fresh "w" in
  intros w; unfold_prims; destruct w as [? ? [|[] ?] [|? ?] ? ? ? ?]; cbn;
  repeat case_match; simplify_eq; trace_simpl; try done.

Create HintDb frames discriminated.

#[export] Hint Extern 1 (frame (keeps _) (log _)) => solve [prim_keeps] : frames.
#[export] Hint Extern 1 (frame (keeps _) fault) => solve [prim_keeps] : frames.
#[export] Hint Extern 1 (frame (keeps _) os_UserConfigDir) => solve [prim_keeps] : frames.
#[export] Hint Extern 1 (frame (keeps _) (os_MkdirAll _)) => solve [prim_keeps] : frames.
#[export] Hint Extern 1 (frame (keeps _) (os_Open _)) => solve [prim_keeps] : frames.
#[export] Hint Extern 1 (frame (keeps _) (exec_Command _)) => solve [prim_keeps] : frames.
#[export] Hint Extern 1 (frame (keeps _) (cmd_Run _)) => solve [prim_keeps] : frames.
#[export] Hint Extern 1 (frame (keeps _) (cmd_Output _)) => solve [prim_keeps] : frames.
#[export] Hint Extern 1 (frame (keeps _) ReadString_nl) => solve [prim_keeps] : frames.
#[export] Hint Extern 1 (frame (keeps _) (to_stdout _)) => solve [prim_keeps] : frames.
#[export] Hint Extern 1 (frame (keeps _) (to_stderr _)) => solve [prim_keeps] : frames.
#[export] Hint Extern 1 (frame (keeps _) (go_panic _)) => solve [prim_keeps] : frames.

(** Solves a frame goal for a command built from binds, matches, loops and
    commands whose frames are in the hint database. *)
Ltac frame_auto :=
  repeat first [ frame_step | solve [auto with frames] ].

(* ===================================================================== *)
(** ** The config store: [loadConfig] and [saveConfig] *)

(** *** Frames *)

Lemma loadConfig_keeps_files : frame (keeps files) loadConfig.
Proof. unfold loadConfig, defaultConfigPath. frame_auto. Qed.

Lemma loadConfig_keeps_dir : frame (keeps user_config_dir) loadConfig.
Proof. unfold loadConfig, defaultConfigPath. frame_auto. Qed.

Lemma loadConfig_keeps_replies : frame (keeps replies) loadConfig.
Proof. unfold loadConfig, defaultConfigPath. frame_auto. Qed.

Lemma loadConfig_keeps_stdin : frame (keeps stdin) loadConfig.
Proof. unfold loadConfig, defaultConfigPath. frame_auto. Qed.

Lemma loadConfig_keeps_stdout : frame (keeps stdout) loadConfig.
Proof. unfold loadConfig, defaultConfigPath. frame_auto. Qed.

Lemma loadConfig_keeps_stderr : frame (keeps stderr) loadConfig.
Proof. unfold loadConfig, defaultConfigPath. frame_auto. Qed.

Lemma loadConfig_keeps_execs : frame (keeps execs) loadConfig.
Proof. unfold loadConfig, defaultConfigPath. frame_auto. Qed.

Lemma loadConfig_keeps_reads : frame (keeps reads) loadConfig.
Proof. unfold loadConfig, defaultConfigPath. frame_auto. Qed.

Lemma loadConfig_keeps_writes : frame (keeps writes) loadConfig.
Proof. unfold loadConfig, defaultConfigPath. frame_auto. Qed.

#[export] Hint Resolve loadConfig_keeps_files loadConfig_keeps_dir loadConfig_keeps_replies
  loadConfig_keeps_stdin loadConfig_keeps_stdout loadConfig_keeps_stderr
  loadConfig_keeps_execs loadConfig_keeps_reads loadConfig_keeps_writes : frames.

(** *** What a load returns *)

(** With the fault schedule known as far as [loadConfig] reads it, the
    command computes. *)
Ltac fault_shapes fts :=
  destruct fts as [|[] [|[] [|[] ?]]].

Lemma normalize_eq cfg :
  normalize cfg = match Profiles cfg with
                  | Some _ => cfg
                  | None => mkConfig (Some ∅)
                  end.
Proof. by destruct cfg as [[m|]]. Qed.

Lemma loadConfig_inv w cfg path w' :
  loadConfig w = (Val (inl (cfg, path)), w') →
  ∃ d, user_config_dir w = Some d ∧ path = config_path d ∧
       read_config (files w !! path) = Some cfg.
Proof.
  unfold loadConfig, defaultConfigPath. unfold_prims.
  destruct w as [[d|] fl fts rs sin sout serr tr]; [|done].
  fault_shapes fts; cbn; try done.
  all: intros H; exists d.
  all: split; [done|].
  all: unfold config_path, read_config.
  all: destruct (fl !! _) as [data|] eqn:Hfile; cbn in H.
  all: try destruct (json_Decode data _) as [cfg0|] eqn:Hdec; simplify_eq.
  all: rewrite ?Hfile; cbn; rewrite ?Hdec; cbn; split; try done.
  all: by rewrite normalize_eq.
Qed.

Lemma loadConfig_quiet w d :
  user_config_dir w = Some d → faults w = [] →
  loadConfig w =
    (Val (match read_config (files w !! config_path d) with
          | Some cfg => inl (cfg, config_path d)
          | None => inr DecodeError
          end),
     set_trace (trace w ++ [EvMkdirAll (Join d "gitprofile"); EvOpen (config_path d)]) w).
Proof.
  unfold loadConfig, defaultConfigPath. unfold_prims.
  destruct w as [ucd fl fts rs sin sout serr tr]; cbn. intros -> ->; cbn.
  unfold config_path, read_config, set_trace; cbn. rewrite <- app_assoc; cbn.
  destruct (fl !! _) as [data|]; cbn; [|done].
  destruct (json_Decode data _) as [cfg0|]; cbn; [|done].
  by rewrite normalize_eq.
Qed.

Lemma loadConfig_yields :
  yields (λ r, match r with
               | inl (cfg, _) => is_Some (Profiles cfg)
               | inr _ => True
               end) loadConfig.
Proof.
  intros w. destruct (loadConfig w) as [r w'] eqn:H.
  assert (∃ a, r = Val a) as [a ->].
  { revert H. unfold loadConfig, defaultConfigPath. unfold_prims.
    destruct w as [[d|] fl fts rs sin sout serr tr]; cbn.
    - fault_shapes fts; cbn; repeat case_match; intros; simplify_eq; eauto.
    - intros; simplify_eq; eauto. }
  exists a. split; [done|]. destruct a as [[cfg path]|e]; [|done].
  apply loadConfig_inv in H as (d & _ & _ & H).
  unfold read_config in H. destruct (files w !! path); simplify_option_eq; by eauto.
Qed.

(* --------------------------------------------------------------------- *)
(** *** Encoding and decoding *)

Lemma coerce_valid pending s :
  valid_from pending s = true → coerce_from pending s = s.
Proof.
  revert pending. induction s as [|c r IH]; intros pending H; [done|].
  destruct pending as [|k]; cbn [valid_from coerce_from] in *.
  - destruct (rune_len (String c r)); [|done]. f_equal. by apply IH.
  - f_equal. by apply IH.
Qed.

Lemma toValidUTF8_valid s : ValidString s = true → toValidUTF8 s = s.
Proof. apply coerce_valid. Qed.

(** A profile (a config) all of whose strings are valid UTF-8. *)
Definition valid_profile (p : Profile) : bool :=
  (ValidString (ID p) && ValidString (GitUser p) &&
   ValidString (GitEmail p) && ValidString (SSHKeyPath p))%bool.

Definition valid_entry (kv : string * Profile) : bool :=
  (ValidString kv.1 && valid_profile kv.2)%bool.

Definition valid_config (cfg : Config) : bool :=
  forallb valid_entry (map_to_list (entries cfg)).

Lemma unmarshal_marshal_Profile p :
  valid_profile p = true →
  unmarshal_Profile (marshal_Profile p) zeroProfile = Some p.
Proof.
  unfold valid_profile. rewrite !andb_true_iff. intros [[[H1 H2] H3] H4].
  destruct p as [i u e k]; cbn in *.
  unfold marshal_Profile; cbn [ID GitUser GitEmail SSHKeyPath].
  rewrite !toValidUTF8_valid by done.
  by destruct (String.eqb_spec k "") as [->|Hk].
Qed.

(** Assigning the entries of a list to a map one after the other. *)
Definition assign_all (m : gmap string Profile) (l : list (string * Profile))
  : gmap string Profile :=
  foldl (λ m kv, <[kv.1 := kv.2]> m) m l.

Lemma unmarshal_marshal_members l m0 :
  forallb valid_entry l = true →
  fold_members unmarshal_map_member (marshal_member <$> l) m0 = Some (assign_all m0 l).
Proof.
  revert m0. induction l as [|[k p] l IH]; intros m0 H; [done|].
  cbn in H. apply andb_true_iff in H as [Hkp Hl].
  apply andb_true_iff in Hkp as [Hk Hp]. cbn in Hk, Hp.
  cbn [fmap list_fmap fold_members]. unfold unmarshal_map_member at 1.
  cbn [marshal_member fst snd].
  rewrite (unmarshal_marshal_Profile p Hp); cbn.
  rewrite (toValidUTF8_valid k Hk). by apply IH.
Qed.

Lemma assign_all_list_to_map l m0 :
  NoDup l.*1 → assign_all m0 l = list_to_map l ∪ m0.
Proof.
  revert m0. induction l as [|[k p] l IH]; intros m0 Hnd.
  - cbn. by rewrite (left_id_L ∅ (∪)).
  - rewrite fmap_cons in Hnd. apply NoDup_cons in Hnd as [Hk Hnd].
    unfold assign_all; cbn [foldl fst snd]. fold (assign_all (<[k:=p]> m0) l).
    rewrite (IH _ Hnd), list_to_map_cons, <- insert_union_l.
    symmetry. apply insert_union_r. by apply not_elem_of_list_to_map_1.
Qed.

Lemma unmarshal_marshal_map m :
  forallb valid_entry (map_to_list m) = true →
  unmarshal_map (marshal_map m) (Some ∅) = Some (Some m).
Proof.
  intros Hv. unfold unmarshal_map, marshal_map.
  pose proof (merge_sort_Permutation key_le (map_to_list m)) as Hperm.
  rewrite unmarshal_marshal_members; cbn.
  - rewrite assign_all_list_to_map.
    + rewrite (right_id_L ∅ (∪)). do 2 f_equal. symmetry.
      apply list_to_map_flip. by symmetry.
    + rewrite Hperm. apply NoDup_fst_map_to_list.
  - rewrite forallb_forall in Hv. apply forallb_forall.
    intros x Hx. apply Hv. apply list_elem_of_In. rewrite <- Hperm.
    by apply list_elem_of_In.
Qed.

Lemma unmarshal_marshal_Config cfg :
  valid_config cfg = true →
  unmarshal_Config (marshal_Config cfg) (mkConfig (Some ∅)) = Some cfg.
Proof.
  intros Hv. destruct cfg as [[m|]]; [|done].
  unfold marshal_Config, unmarshal_Config; cbn [Profiles fold_members].
  unfold unmarshal_Config_member at 1; cbn [fst snd Profiles].
  change (field_match "profiles" "profiles") with true. cbv iota.
  by rewrite (unmarshal_marshal_map m Hv).
Qed.

Lemma read_config_marshal cfg :
  valid_config cfg = true →
  read_config (Some (JsonText (marshal_Config cfg))) = Some (normalize cfg).
Proof.
  intros Hv. unfold read_config, json_Decode.
  by rewrite (unmarshal_marshal_Config cfg Hv).
Qed.

(* --------------------------------------------------------------------- *)
(** *** What a save leaves behind *)

Lemma saveConfig_inv cfg path w w1 :
  saveConfig cfg path w = (Val None, w1) →
  files w1 !! path = Some (JsonText (marshal_Config cfg)) ∧
  user_config_dir w1 = user_config_dir w.
Proof.
  unfold saveConfig. unfold_prims.
  destruct w as [ucd fl fts rs sin sout serr tr].
  fault_shapes fts; cbn; rewrite ?lookup_insert_eq; cbn; try done.
  all: intros H; simplify_eq; cbn; by rewrite lookup_insert_eq.
Qed.

Lemma saveConfig_quiet cfg path w :
  faults w = [] →
  ∃ w1, saveConfig cfg path w = (Val None, w1) ∧ faults w1 = [].
Proof.
  unfold saveConfig. unfold_prims.
  destruct w as [ucd fl fts rs sin sout serr tr]; cbn. intros ->; cbn.
  rewrite lookup_insert_eq; cbn. eauto.
Qed.

(** A save that fails leaves every file but the temporary one as it was. *)
Lemma saveConfig_failed cfg path w e w1 p :
  saveConfig cfg path w = (Val (Some e), w1) →
  p ≠ path +:+ ".tmp" →
  files w1 !! p = files w !! p.
Proof.
  unfold saveConfig. unfold_prims.
  destruct w as [ucd fl fts rs sin sout serr tr].
  fault_shapes fts; cbn; rewrite ?lookup_insert_eq; cbn; try done.
  all: intros H Hp; simplify_eq; cbn; by rewrite ?lookup_insert_ne.
Qed.

(* --------------------------------------------------------------------- *)
(** *** Example worlds *)

(** A world in which no file operation fails: the user's config directory
    is [/home/u/.config], there is no file yet, no input, and the processes
    started get the given replies. *)
Definition quiet_world (rs : list (option string)) (input : string) : World :=
  mkWorld (Some "/home/u/.config") ∅ [] rs input [] [] [].

Definition with_config (cfg : Config) (w : World) : World :=
  set_files (<[config_path "/home/u/.config" := JsonText (marshal_Config cfg)]> (files w)) w.

Definition work : Profile := mkProfile "work" "Wanda Work" "wanda@example.com" "".
Definition home : Profile := mkProfile "home" "Wanda" "wanda@home.example" "/home/u/.ssh/id_home".

Definition two_profiles : Config :=
  mkConfig (Some (<["work" := work]> (<["home" := home]> ∅))).

(** A user name that is not valid UTF-8: the single byte FF. *)
Definition latin1_name : string := String (ascii_of_N 0xFF) EmptyString.

Definition odd_profile : Config :=
  mkConfig (Some (<["odd" := mkProfile "odd" latin1_name "odd@example.com" ""]> ∅)).

(* ===================================================================== *)
(** ** C1: saving and reloading *)

(** C1, as amended.  For every config whose identifiers and field values
    are valid UTF-8, saving it with [saveConfig] at the config path and
    reloading it with [loadConfig] yields the same mapping: whenever the
    save succeeds and the load returns a config, it is the saved mapping,
    and when no file operation fails both do succeed. *)
Theorem saveConfig_loadConfig_roundtrip (cfg : Config) (w : World) (d : string) :
  valid_config cfg = true →
  user_config_dir w = Some d →
  (∀ w1 cfg' path w2,
     saveConfig cfg (config_path d) w = (Val None, w1) →
     loadConfig w1 = (Val (inl (cfg', path)), w2) →
     Profiles cfg' = Some (entries cfg) ∧ path = config_path d) ∧
  (faults w = [] →
   ∃ w1 w2 cfg',
     saveConfig cfg (config_path d) w = (Val None, w1) ∧
     loadConfig w1 = (Val (inl (cfg', config_path d)), w2) ∧
     Profiles cfg' = Some (entries cfg)).
Proof.
  intros Hvalid Hdir. split.
  - intros w1 cfg' path w2 Hsave Hload.
    apply saveConfig_inv in Hsave as [Hfile Hdir1].
    apply loadConfig_inv in Hload as (d' & Hd' & -> & Hread).
    rewrite Hdir1, Hdir in Hd'. simplify_eq.
    rewrite Hfile, (read_config_marshal cfg Hvalid) in Hread.
    by simplify_eq.
  - intros Hquiet.
    destruct (saveConfig_quiet cfg (config_path d) w Hquiet) as (w1 & Hsave & Hquiet1).
    pose proof (saveConfig_inv _ _ _ _ Hsave) as [Hfile Hdir1].
    rewrite Hdir in Hdir1.
    pose proof (loadConfig_quiet w1 d Hdir1 Hquiet1) as Hload.
    rewrite Hfile, (read_config_marshal cfg Hvalid) in Hload.
    eauto 10.
Qed.

Lemma saveConfig_loadConfig_roundtrip_witness :
  valid_config two_profiles = true ∧
  ∃ w1 w2 cfg',
    saveConfig two_profiles (config_path "/home/u/.config") (quiet_world [] "") = (Val None, w1) ∧
    loadConfig w1 = (Val (inl (cfg', config_path "/home/u/.config")), w2) ∧
    Profiles cfg' = Some (entries two_profiles).
Proof.
  split; [vm_compute; reflexivity|].
  apply (saveConfig_loadConfig_roundtrip two_profiles (quiet_world [] "") "/home/u/.config");
    [vm_compute; reflexivity|reflexivity|reflexivity].
Defined.

(** C1 as stated fails: a user name that is not valid UTF-8 comes back as
    the replacement character U+FFFD. *)
Lemma saveConfig_loadConfig_counterexample :
  let w := quiet_world [] "" in
  let path := config_path "/home/u/.config" in
  let w1 := (saveConfig odd_profile path w).2 in
  let back := mkConfig (Some (<["odd" := mkProfile "odd" replacement "odd@example.com" ""]> ∅)) in
  saveConfig odd_profile path w = (Val None, w1) ∧
  loadConfig w1 = (Val (inl (back, path)), (loadConfig w1).2) ∧
  entries back ≠ entries odd_profile.
Proof.
  split; [vm_compute; reflexivity|]. split; [vm_compute; reflexivity|].
  intros Heq. apply (f_equal (λ m, GitUser <$> m !! "odd")) in Heq.
  vm_compute in Heq. discriminate.
Qed.

(* ===================================================================== *)
(** ** C10: a load never hands out a [nil] map *)

(** Every member of the object that selects the field [profiles] is
    [null]: the field is missing (no member selects it) or null. *)
Definition profiles_null_or_missing (members : list (string * json)) : Prop :=
  Forall (λ kv, field_match "profiles" kv.1 = true → kv.2 = JNull) members.

Lemma unmarshal_Config_null_or_missing members cfg :
  profiles_null_or_missing members →
  entries cfg = ∅ →
  ∃ cfg', fold_members unmarshal_Config_member members cfg = Some cfg' ∧ entries cfg' = ∅.
Proof.
  intros Hall. revert cfg. induction Hall as [|[k v] members Hkv _ IH]; intros cfg Hcfg.
  - by exists cfg.
  - cbn [fold_members]. unfold unmarshal_Config_member at 1. cbn [fst snd] in *.
    destruct (field_match "profiles" k).
    + rewrite (Hkv eq_refl). cbn. by apply IH.
    + by apply IH.
Qed.

(** C10.  [loadConfig] always returns to its caller, and a config it
    returns has a map that is not [nil]; when no file operation fails and
    the config file does not exist, or holds a JSON object whose [profiles]
    member is null or missing, it returns the empty mapping without error. *)
Theorem loadConfig_mapping_never_absent (w : World) :
  (∃ r w', loadConfig w = (Val r, w') ∧
     match r with
     | inl (cfg, _) => is_Some (Profiles cfg)
     | inr _ => True
     end) ∧
  (∀ d, user_config_dir w = Some d → faults w = [] →
     files w !! config_path d = None ∨
     (∃ members, files w !! config_path d = Some (JsonText (JObject members)) ∧
                 profiles_null_or_missing members) →
     ∃ w', loadConfig w = (Val (inl (mkConfig (Some ∅), config_path d)), w')).
Proof.
  split.
  - destruct (loadConfig_yields w) as (r & Hr & HP).
    destruct (loadConfig w) as [r' w'] eqn:Hload. cbn in Hr. subst r'. eauto.
  - intros d Hdir Hquiet Hfile. rewrite (loadConfig_quiet w d Hdir Hquiet).
    destruct Hfile as [->|(members & -> & Hnull)]; [by eauto|].
    unfold read_config, json_Decode, unmarshal_Config.
    match goal with
    | |- context [fold_members unmarshal_Config_member members ?c] =>
      destruct (unmarshal_Config_null_or_missing members c Hnull eq_refl)
        as (cfg' & -> & Hempty)
    end.
    cbn. unfold normalize. rewrite Hempty. eauto.
Qed.

Lemma loadConfig_mapping_never_absent_witness :
  let doc := JObject [("version", JNumber "1"); ("Profiles", JNull)] in
  let w := set_files (<[config_path "/home/u/.config" := JsonText doc]> ∅) (quiet_world [] "") in
  ∃ w', loadConfig w = (Val (inl (mkConfig (Some ∅), config_path "/home/u/.config")), w').
Proof.
  intros doc w.
  apply (proj2 (loadConfig_mapping_never_absent w) "/home/u/.config" eq_refl eq_refl).
  right. exists [("version", JNumber "1"); ("Profiles", JNull)]. split; [reflexivity|].
  repeat constructor; cbn; intros H; (reflexivity || discriminate H).
Defined.

(* ===================================================================== *)
(** ** The git adapter *)

(** The world after the processes [calls] were run one after the other. *)
Definition after_execs (calls : list (list string)) (w : World) : World :=
  set_replies (drop (length calls) (replies w))
    (set_trace (trace w ++ (EvExec <$> calls)) w).

(** Did the [i]-th process to come succeed, and what did it print? *)
Definition reply_at (i : nat) (w : World) : option string := mjoin (replies w !! i).

Definition succeeded (r : option string) : bool :=
  match r with Some _ => true | None => false end.

Lemma exec_Command_run argv w :
  exec_Command argv w = (Val (reply_at 0 w), after_execs [argv] w).
Proof. destruct w as [? ? ? [|r rs] ? ? ? ?]; reflexivity. Qed.

Lemma after_execs_app l1 l2 w :
  after_execs l2 (after_execs l1 w) = after_execs (l1 ++ l2) w.
Proof.
  destruct w as [ucd fl fts rs sin sout serr tr].
  unfold after_execs, set_replies, set_trace; cbn.
  rewrite drop_drop, length_app, fmap_app, app_assoc. reflexivity.
Qed.

Lemma reply_at_after_execs i l w :
  reply_at i (after_execs l w) = reply_at (length l + i) w.
Proof. unfold reply_at, after_execs; cbn. by rewrite lookup_drop. Qed.

Lemma cmd_Run_run argv w :
  cmd_Run argv w =
    (Val (if succeeded (reply_at 0 w) then None else Some (ExecError argv)),
     after_execs [argv] w).
Proof.
  unfold cmd_Run. rewrite run_bind, exec_Command_run.
  by destruct (reply_at 0 w).
Qed.

Lemma cmd_Output_run argv w :
  cmd_Output argv w =
    (Val (match reply_at 0 w with
          | Some out => inl out
          | None => inr (ExecError argv)
          end),
     after_execs [argv] w).
Proof. unfold cmd_Output. by rewrite run_bind, exec_Command_run. Qed.

(** The command line of [git config [--global] key value]. *)
Definition scope_flag (scope : string) : list string :=
  if String.eqb scope "global" then ["--global"] else [].

Definition git_set (scope key value : string) : list string :=
  (["git"; "config"] ++ scope_flag scope ++ [key; value])%list.

Definition git_get (key : string) : list string := ["git"; "config"; "--get"; key].

Definition git_get_global (key : string) : list string :=
  ["git"; "config"; "--global"; "--get"; key].

Definition git_unset (key : string) : list string := ["git"; "config"; "--unset"; key].

Lemma runGitConfig_run scope key value w :
  runGitConfig scope key value w =
    (Val (if succeeded (reply_at 0 w) then None
          else Some (ExecError (git_set scope key value))),
     after_execs [git_set scope key value] w).
Proof.
  unfold runGitConfig. rewrite cmd_Run_run. unfold git_set, scope_flag.
  by destruct (String.eqb scope "global").
Qed.

(** The value a read of a git config key hands to the program. *)
Definition config_value (argv : list string) (r : option string) : string + error :=
  match r with
  | Some out => inl (TrimSpace out)
  | None => inr (ExecError argv)
  end.

Lemma getGitConfig_run key w :
  getGitConfig key w =
    (Val (config_value (git_get key) (reply_at 0 w)), after_execs [git_get key] w).
Proof.
  unfold getGitConfig. rewrite run_bind, cmd_Output_run.
  by destruct (reply_at 0 w).
Qed.

Lemma getGitConfigGlobal_run key w :
  getGitConfigGlobal key w =
    (Val (config_value (git_get_global key) (reply_at 0 w)),
     after_execs [git_get_global key] w).
Proof.
  unfold getGitConfigGlobal. rewrite run_bind, cmd_Output_run.
  by destruct (reply_at 0 w).
Qed.

(* ===================================================================== *)
(** ** C6: applying a profile *)

(** The contract of the profile applier in the words of the spec: the git
    calls made, in order, and the error returned, given the replies of the
    calls.  Setting [user.name] and [user.email] comes first, and a failure
    of either ends it; with an SSH key [core.sshCommand] is set; without one
    and at local scope it is unset, whatever the outcome of that. *)
Definition apply_contract (p : Profile) (scope : string) (rs : nat → option string)
  : list (list string) * option error :=
  let name_call := git_set scope "user.name" (GitUser p) in
  let email_call := git_set scope "user.email" (GitEmail p) in
  let ssh_call :=
    git_set scope "core.sshCommand" ("ssh -i " +:+ SSHKeyPath p +:+ " -F /dev/null") in
  if negb (succeeded (rs 0%nat)) then
    ([name_call],
     Some (Errorf "setting user.name: %w" [] (Some (ExecError name_call))))
  else if negb (succeeded (rs 1%nat)) then
    ([name_call; email_call],
     Some (Errorf "setting user.email: %w" [] (Some (ExecError email_call))))
  else if negb (String.eqb (SSHKeyPath p) "") then
    ([name_call; email_call; ssh_call],
     if succeeded (rs 2%nat) then None
     else Some (Errorf "setting core.sshCommand: %w" [] (Some (ExecError ssh_call))))
  else if String.eqb scope "local" then
    ([name_call; email_call; git_unset "core.sshCommand"], None)
  else
    ([name_call; email_call], None).

(** C6.  At either scope, [applyProfile] makes exactly the calls of the
    contract and returns its error: [user.name] and [user.email] are set at
    that scope, a failure of either is returned wrapped under the key that
    failed and nothing more is run; an SSH key sets [core.sshCommand] to
    [ssh -i <path> -F /dev/null]; no key at local scope runs the unset of
    [core.sshCommand] and ignores whether it worked. *)
Theorem applyProfile_contract (p : Profile) (scope : string) (w : World) :
  scope = "local" ∨ scope = "global" →
  let outcome := apply_contract p scope (λ i, reply_at i w) in
  applyProfile p scope w = (Val outcome.2, after_execs outcome.1 w).
Proof.
  intros Hscope. unfold applyProfile, apply_contract, sshCommand.
  rewrite run_bind, runGitConfig_run.
  destruct (reply_at 0 w) as [out0|] eqn:H0; cbn [succeeded negb]; [|done].
  rewrite run_bind, runGitConfig_run, reply_at_after_execs.
  destruct (reply_at 1 w) as [out1|] eqn:H1; cbn [length Nat.add succeeded negb];
    rewrite H1; cbn [succeeded negb]; rewrite after_execs_app; [|done].
  destruct (String.eqb (SSHKeyPath p) "") eqn:Hkey; cbn [negb].
  - destruct Hscope as [-> | ->]; cbn [String.eqb Ascii.eqb Bool.eqb negb].
    + change ("local" =? "global")%string with false.
      change ("local" =? "local")%string with true. cbn [negb].
      rewrite run_bind, cmd_Run_run, after_execs_app. by destruct (reply_at 0 _).
    + change ("global" =? "global")%string with true.
      change ("global" =? "local")%string with false. done.
  - rewrite run_bind, runGitConfig_run, reply_at_after_execs, after_execs_app.
    cbn [length Nat.add app]. by destruct (reply_at 2 w).
Qed.

Lemma applyProfile_contract_witness :
  applyProfile home "local" (quiet_world [Some ""; Some ""; Some ""] "") =
    (Val None,
     after_execs
       [["git"; "config"; "user.name"; "Wanda"];
        ["git"; "config"; "user.email"; "wanda@home.example"];
        ["git"; "config"; "core.sshCommand"; "ssh -i /home/u/.ssh/id_home -F /dev/null"]]
       (quiet_world [Some ""; Some ""; Some ""] "")).
Proof.
  exact (applyProfile_contract home "local" (quiet_world [Some ""; Some ""; Some ""] "")
           (or_introl eq_refl)).
Defined.

(* ===================================================================== *)
(** ** Console output *)

(** The world after [items] were printed on standard output. *)
Definition print_out (items : list output) (w : World) : World :=
  set_stdout (stdout w ++ items) w.

Lemma to_stdout_run o w : to_stdout o w = (Val tt, print_out [o] w).
Proof. reflexivity. Qed.

Lemma print_out_app l1 l2 w : print_out l2 (print_out l1 w) = print_out (l1 ++ l2) w.
Proof.
  destruct w. unfold print_out, set_stdout; cbn. by rewrite app_assoc.
Qed.

Lemma print_out_nil w : print_out [] w = w.
Proof. destruct w. unfold print_out, set_stdout; cbn. by rewrite app_nil_r. Qed.

Lemma after_execs_print_out c l w :
  after_execs c (print_out l w) = print_out l (after_execs c w).
Proof. by destruct w. Qed.

Lemma reply_at_print_out i l w : reply_at i (print_out l w) = reply_at i w.
Proof. reflexivity. Qed.

Lemma stdin_print_out l w : stdin (print_out l w) = stdin w.
Proof. reflexivity. Qed.

Lemma stdin_after_execs l w : stdin (after_execs l w) = stdin w.
Proof. reflexivity. Qed.

Create Rewrite HintDb world.

#[export] Hint Rewrite after_execs_print_out print_out_app after_execs_app
  reply_at_print_out reply_at_after_execs stdin_print_out stdin_after_execs : world.

(** One step of a command: a bind whose first part is a known call. *)
Ltac run_step :=
  rewrite run_bind;
  first [ rewrite getGitConfig_run
        | rewrite getGitConfigGlobal_run
        | rewrite runGitConfig_run
        | rewrite cmd_Run_run
        | rewrite cmd_Output_run
        | rewrite to_stdout_run
        | rewrite run_ret ];
  cbv beta iota; autorewrite with world; cbn [length Nat.add app].

(* ===================================================================== *)
(** ** C8: the current identity *)

(** A value that is set: read without error and not empty. *)
Definition set_to (r : option string) : option string :=
  match r with
  | Some out => if String.eqb (TrimSpace out) "" then None else Some (TrimSpace out)
  | None => None
  end.

(** What [current] prints, in the words of the spec: the header, whichever
    of name and email could be read, the SSH command or a marker for the
    default, and the local and the global default profile when set. *)
Definition current_report (name email ssh def gdef : option string) : list output :=
  ([OutPrintln "Current git identity (this repo):"]
   ++ match name with
      | Some out => [OutPrintf "  user.name  = %s\n" [AStr (TrimSpace out)]]
      | None => []
      end
   ++ match email with
      | Some out => [OutPrintf "  user.email = %s\n" [AStr (TrimSpace out)]]
      | None => []
      end
   ++ [match set_to ssh with
       | Some v => OutPrintf "  core.sshCommand = %s\n" [AStr v]
       | None => OutPrintln "  core.sshCommand = (default)"
       end]
   ++ match set_to def with
      | Some v => [OutPrintf "  gitprofile.default (local) = %s\n" [AStr v]]
      | None => []
      end
   ++ match set_to gdef with
      | Some v => [OutPrintf "  gitprofile.default (global) = %s\n" [AStr v]]
      | None => []
      end)%list.

Definition current_reads : list (list string) :=
  [git_get "user.name"; git_get "user.email"; git_get "core.sshCommand";
   git_get "gitprofile.default"; git_get_global "gitprofile.default"].

Lemma set_value_config_value argv r : set_value (config_value argv r) = set_to r.
Proof. by destruct r. Qed.

(** C8.  [current] fails if and only if neither [user.name] nor
    [user.email] can be read; then it has run the two reads and printed
    nothing.  Otherwise it succeeds after five reads, having printed the
    report. *)
Theorem cmdCurrent_contract (args : list string) (w : World) :
  ((∃ e, (cmdCurrent args w).1 = Val (Some e)) ↔
   (reply_at 0 w = None ∧ reply_at 1 w = None)) ∧
  cmdCurrent args w =
    match reply_at 0 w, reply_at 1 w with
    | None, None =>
      (Val (Some (Errorf "no user.name or user.email set in this repo" [] None)),
       after_execs (take 2 current_reads) w)
    | name, email =>
      (Val None,
       print_out (current_report name email (reply_at 2 w) (reply_at 3 w) (reply_at 4 w))
         (after_execs current_reads w))
    end.
Proof.
  assert (cmdCurrent args w =
    match reply_at 0 w, reply_at 1 w with
    | None, None =>
      (Val (Some (Errorf "no user.name or user.email set in this repo" [] None)),
       after_execs (take 2 current_reads) w)
    | name, email =>
      (Val None,
       print_out (current_report name email (reply_at 2 w) (reply_at 3 w) (reply_at 4 w))
         (after_execs current_reads w))
    end) as Hrun.
  { unfold cmdCurrent, current_report, current_reads.
    do 2 run_step.
    destruct (reply_at 0 w) as [name|], (reply_at 1 w) as [email|];
      cbn [config_value is_inl negb andb]; try reflexivity.
    all: do 4 run_step; rewrite !set_value_config_value.
    all: destruct (set_to (reply_at 2 w)); run_step.
    all: run_step; rewrite !set_value_config_value.
    all: destruct (set_to (reply_at 3 w)); run_step.
    all: run_step; rewrite !set_value_config_value.
    all: destruct (set_to (reply_at 4 w)); run_step.
    all: rewrite ?run_ret, ?print_out_nil; reflexivity. }
  split; [|exact Hrun].
  rewrite Hrun. destruct (reply_at 0 w), (reply_at 1 w); cbn; split.
  all: try (intros [e He]; discriminate He).
  all: try (intros [H1 H2]; discriminate).
  all: eauto.
Qed.

(* ===================================================================== *)
(** ** The order of identifiers *)

Definition string_lt (a b : string) : Prop := String.ltb a b = true.

#[export] Instance string_lt_dec a b : Decision (string_lt a b).
Proof. unfold string_lt. apply _. Defined.

Lemma ascii_compare_lt a b : Ascii.compare a b = Lt ↔ (N_of_ascii a < N_of_ascii b)%N.
Proof. unfold Ascii.compare. apply N.compare_lt_iff. Qed.

Lemma ascii_compare_eq a b : Ascii.compare a b = Eq ↔ a = b.
Proof.
  unfold Ascii.compare. rewrite N.compare_eq_iff. split; [|by intros ->].
  intros H. by rewrite <- (ascii_N_embedding a), <- (ascii_N_embedding b), H.
Qed.

Lemma string_compare_refl s : String.compare s s = Eq.
Proof.
  induction s as [|c s IH]; cbn; [done|].
  by rewrite (proj2 (ascii_compare_eq c c) eq_refl).
Qed.

Lemma string_compare_lt_trans a b c :
  String.compare a b = Lt → String.compare b c = Lt → String.compare a c = Lt.
Proof.
  revert b c. induction a as [|x a IH]; intros [|y b] [|z c]; cbn; try done.
  destruct (Ascii.compare x y) eqn:Hxy; try done.
  - apply ascii_compare_eq in Hxy as ->.
    destruct (Ascii.compare y z) eqn:Hyz; try done. apply IH.
  - intros _. destruct (Ascii.compare y z) eqn:Hyz; try done.
    + apply ascii_compare_eq in Hyz as <-. by rewrite Hxy.
    + intros _. apply ascii_compare_lt in Hxy. apply ascii_compare_lt in Hyz.
      assert (Ascii.compare x z = Lt) as ->; [|done].
      apply ascii_compare_lt. by apply N.lt_trans with (N_of_ascii y).
Qed.

Lemma string_le_cases a b : string_le a b ↔ string_lt a b ∨ a = b.
Proof.
  unfold string_le, string_lt, String.leb, String.ltb.
  destruct (String.compare a b) eqn:H.
  - apply String.compare_eq_iff in H. naive_solver.
  - naive_solver.
  - split; [done|]. intros [?| ->]; [done|]. by rewrite string_compare_refl in H.
Qed.

Lemma string_lt_irrefl a : ¬ string_lt a a.
Proof. unfold string_lt, String.ltb. by rewrite string_compare_refl. Qed.

Lemma string_lt_trans a b c : string_lt a b → string_lt b c → string_lt a c.
Proof.
  unfold string_lt, String.ltb. intros Hab Hbc.
  destruct (String.compare a b) eqn:H1; try done.
  destruct (String.compare b c) eqn:H2; try done.
  by rewrite (string_compare_lt_trans a b c H1 H2).
Qed.

Lemma string_lt_asym a b : string_lt a b → ¬ string_lt b a.
Proof. intros H1 H2. exact (string_lt_irrefl a (string_lt_trans a b a H1 H2)). Qed.

#[export] Instance string_le_trans : Transitive string_le.
Proof.
  intros a b c. rewrite !string_le_cases.
  intros [H1| ->] [H2| ->]; eauto using string_lt_trans.
Qed.

#[export] Instance string_le_total : Total string_le.
Proof. intros a b. apply String.leb_total. Qed.

Lemma sort_strings_sorted l : StronglySorted string_le (sort_strings l).
Proof. apply (StronglySorted_merge_sort string_le). Qed.

Lemma sort_strings_perm l : sort_strings l ≡ₚ l.
Proof. apply merge_sort_Permutation. Qed.

Lemma filter_none {A : Type} (P : A → Prop) `{∀ x, Decision (P x)} (l : list A) :
  Forall (λ y, ¬ P y) l → filter P l = [].
Proof.
  induction 1 as [|y l Hy _ IH]; [done|]. by rewrite filter_cons_False.
Qed.

(** In a sorted list without repetition, the element at index [i] has
    exactly [i] elements below it. *)
Lemma sorted_index_below l i x :
  StronglySorted string_le l → NoDup l → l !! i = Some x →
  length (filter (λ j, string_lt j x) l) = i.
Proof.
  intros Hs. revert i. induction Hs as [|a l Hs IH Ha]; intros i Hnd Hi; [done|].
  apply NoDup_cons in Hnd as [Hnotin Hnd].
  destruct i as [|i]; cbn in Hi; simplify_eq.
  - rewrite filter_cons_False by apply string_lt_irrefl.
    rewrite filter_none; [done|].
    eapply Forall_impl; [exact Ha|]. intros y Hy Hlt. cbn in Hy.
    apply string_le_cases in Hy as [Hy| ->].
    + by apply (string_lt_asym x y).
    + by apply (string_lt_irrefl y).
  - assert (string_lt a x) as Hax.
    { assert (x ∈ l) as Hx by (by eapply list_elem_of_lookup_2).
      rewrite Forall_forall in Ha. pose proof (Ha x Hx) as Hle.
      apply string_le_cases in Hle as [Hlt| ->]; [done|]. by destruct Hnotin. }
    rewrite filter_cons_True by done. cbn. f_equal. by apply IH.
Qed.

(** The number of identifiers of the config that are smaller than [id]. *)
Definition ids_below (cfg : Config) (id : string) : nat :=
  length (filter (λ j, string_lt j id) (map_to_list (entries cfg)).*1).

Lemma sorted_ids_perm cfg : sorted_ids cfg ≡ₚ (map_to_list (entries cfg)).*1.
Proof. apply sort_strings_perm. Qed.

Lemma sorted_ids_length cfg : length (sorted_ids cfg) = size (entries cfg).
Proof. by rewrite sorted_ids_perm, length_fmap, length_map_to_list. Qed.

Lemma sorted_ids_lookup cfg i id :
  sorted_ids cfg !! i = Some id →
  is_Some (entries cfg !! id) ∧ ids_below cfg id = i.
Proof.
  intros Hi. split.
  - assert (id ∈ (map_to_list (entries cfg)).*1) as Hin.
    { rewrite <- sorted_ids_perm. by eapply list_elem_of_lookup_2. }
    apply list_elem_of_fmap in Hin as ([k p] & -> & Hkp).
    apply elem_of_map_to_list in Hkp. by eauto.
  - unfold ids_below. rewrite <- sorted_ids_perm.
    apply sorted_index_below; [apply sort_strings_sorted| |done].
    rewrite sorted_ids_perm. apply NoDup_fst_map_to_list.
Qed.

(* ===================================================================== *)
(** ** The interactive selector *)

(** The menu [choose] prints, and the world after it was printed and one
    line was read. *)
Definition menu_line (cfg : Config) (i : Z) (id : string) : output :=
  let p := profile_at cfg id in
  OutPrintf "  [%d] %s: %s <%s>\n" [AInt (i + 1); AStr id; AStr (GitUser p); AStr (GitEmail p)].

Fixpoint menu_from (cfg : Config) (i : Z) (ids : list string) : list output :=
  match ids with
  | [] => []
  | id :: rest => menu_line cfg i id :: menu_from cfg (i + 1) rest
  end.

Definition choose_menu (cfg : Config) : list output :=
  ([OutPrintln "Select profile:"] ++ menu_from cfg 0 (sorted_ids cfg)
   ++ [OutPrint "Enter number: "])%list.

Definition after_read (w : World) : World :=
  set_stdin (split_line (stdin w)).2 (set_trace (trace w ++ [EvReadLine]) w).

Definition prompted (cfg : Config) (w : World) : World :=
  after_read (print_out (choose_menu cfg) w).

(** The line [choose] works on. *)
Definition input_line (w : World) : string := TrimSpace (split_line (stdin w)).1.

Lemma ReadString_nl_run w :
  ReadString_nl w = (Val (split_line (stdin w)).1, after_read w).
Proof.
  unfold ReadString_nl, after_read. unfold_prims. cbn.
  by destruct (split_line (stdin w)).
Qed.

Lemma menu_run cfg ids i w :
  for_each_from i ids
    (λ i id,
       let p := profile_at cfg id in
       to_stdout (OutPrintf "  [%d] %s: %s <%s>\n"
                    [AInt (i + 1); AStr id; AStr (GitUser p); AStr (GitEmail p)])) w
  = (Val tt, print_out (menu_from cfg i ids) w).
Proof.
  revert i w. induction ids as [|id ids IH]; intros i w; cbn [for_each_from menu_from].
  - by rewrite run_ret, print_out_nil.
  - rewrite run_bind, to_stdout_run, IH, print_out_app. reflexivity.
Qed.

Definition no_profiles : error :=
  Errorf "no profiles configured; run `git-profile add` first" [] None.

(** [choose] once the config is loaded. *)
Lemma cmdChoose_run args w cfg path w1 :
  loadConfig w = (Val (inl (cfg, path)), w1) →
  cmdChoose args w =
    if (size (entries cfg) =? 0)%nat then (Val (Some no_profiles), w1)
    else if String.eqb (input_line w1) "" then
      (Val (Some (Errorf "no selection made" [] None)), prompted cfg w1)
    else
      match Sscanf_d (input_line w1) with
      | None => (Val (Some (Errorf "invalid selection" [] None)), prompted cfg w1)
      | Some choice =>
        if ((choice <? 1) || (choice >? Z.of_nat (size (entries cfg))))%bool then
          (Val (Some (Errorf "invalid selection" [] None)), prompted cfg w1)
        else
          match sorted_ids cfg !! Z.to_nat (choice - 1) with
          | None => go_panic "index out of range" (prompted cfg w1)
          | Some id =>
            match applyProfile (profile_at cfg id) "local" (prompted cfg w1) with
            | (Val None, w3) =>
              (Val None,
               print_out [OutPrintf "Applied profile %q to local repo\n" [AStr id]] w3)
            | other => other
            end
          end
      end.
Proof.
  intros Hload. unfold cmdChoose. rewrite run_bind, Hload. cbv beta iota.
  destruct (size (entries cfg) =? 0)%nat; [reflexivity|].
  rewrite run_bind, to_stdout_run. rewrite run_bind, menu_run.
  rewrite run_bind, to_stdout_run. rewrite !print_out_app.
  rewrite run_bind, ReadString_nl_run. cbv beta iota.
  change (after_read (print_out _ w1)) with (prompted cfg w1).
  change (TrimSpace (split_line (stdin (print_out _ w1))).1) with (input_line w1).
  destruct (String.eqb (input_line w1) ""); [reflexivity|].
  destruct (Sscanf_d (input_line w1)) as [choice|]; [|reflexivity].
  rewrite sorted_ids_length.
  destruct ((choice <? 1) || (choice >? Z.of_nat (size (entries cfg))))%bool; [reflexivity|].
  destruct (sorted_ids cfg !! Z.to_nat (choice - 1)) as [id|]; [|reflexivity].
  rewrite run_bind.
  destruct (applyProfile (profile_at cfg id) "local" (prompted cfg w1)) as [[[e|]|c] w3];
    reflexivity.
Qed.

(** What a load leaves as it was. *)
Lemma loadConfig_frames w r w1 :
  loadConfig w = (r, w1) →
  files w1 = files w ∧ replies w1 = replies w ∧ stdin w1 = stdin w ∧
  stdout w1 = stdout w ∧ stderr w1 = stderr w ∧ execs w1 = execs w ∧
  reads w1 = reads w ∧ writes w1 = writes w.
Proof.
  intros Hload.
  pose proof (loadConfig_keeps_files w) as H1. pose proof (loadConfig_keeps_replies w) as H2.
  pose proof (loadConfig_keeps_stdin w) as H3. pose proof (loadConfig_keeps_stdout w) as H4.
  pose proof (loadConfig_keeps_stderr w) as H5. pose proof (loadConfig_keeps_execs w) as H6.
  pose proof (loadConfig_keeps_reads w) as H7. pose proof (loadConfig_keeps_writes w) as H8.
  rewrite Hload in *. unfold keeps in *. cbn in *. done.
Qed.

Lemma reply_at_same i w w1 : replies w1 = replies w → reply_at i w1 = reply_at i w.
Proof. unfold reply_at. by intros ->. Qed.

Lemma input_line_same w w1 : stdin w1 = stdin w → input_line w1 = input_line w.
Proof. unfold input_line. by intros ->. Qed.

Lemma Sscanf_d_empty : Sscanf_d "" = None.
Proof. reflexivity. Qed.

Lemma size_eqb_zero cfg : (size (entries cfg) =? 0)%nat = bool_decide (size (entries cfg) = 0%nat).
Proof.
  destruct (Nat.eqb_spec (size (entries cfg)) 0) as [H|H].
  - by rewrite bool_decide_eq_true_2.
  - by rewrite bool_decide_eq_false_2.
Qed.

(* ===================================================================== *)
(** ** C3: choosing by number *)

(** C3.  With a loaded config of N profiles and an input line that scans
    as an integer k between 1 and N, [choose] applies, at local scope, the
    profile whose identifier has exactly k-1 identifiers of the config
    below it, and reports it when the application succeeded. *)
Theorem cmdChoose_applies_kth (args : list string) (w w1 : World) (cfg : Config)
    (path : string) (k : Z) :
  loadConfig w = (Val (inl (cfg, path)), w1) →
  Sscanf_d (input_line w) = Some k →
  1 ≤ k ≤ Z.of_nat (size (entries cfg)) →
  ∃ id p,
    entries cfg !! id = Some p ∧
    ids_below cfg id = Z.to_nat (k - 1) ∧
    cmdChoose args w =
      match applyProfile p "local" (prompted cfg w1) with
      | (Val None, w3) =>
        (Val None, print_out [OutPrintf "Applied profile %q to local repo\n" [AStr id]] w3)
      | other => other
      end.
Proof.
  intros Hload Hscan Hk.
  destruct (loadConfig_frames _ _ _ Hload) as (_ & _ & Hin & _).
  rewrite (cmdChoose_run args w cfg path w1 Hload), (input_line_same _ _ Hin), Hscan.
  destruct (Nat.eqb_spec (size (entries cfg)) 0) as [H0|_]; [lia|].
  destruct (String.eqb_spec (input_line w) "") as [He|_].
  { rewrite He in Hscan. discriminate Hscan. }
  assert (((k <? 1) || (k >? Z.of_nat (size (entries cfg))))%bool = false) as ->.
  { apply orb_false_iff. split; [apply Z.ltb_ge|rewrite Z.gtb_ltb; apply Z.ltb_ge]; lia. }
  destruct (sorted_ids cfg !! Z.to_nat (k - 1)) as [id|] eqn:Hid.
  - destruct (sorted_ids_lookup cfg _ id Hid) as [[p Hp] Hbelow].
    exists id, p. split; [done|]. split; [done|].
    unfold profile_at. rewrite Hp. reflexivity.
  - apply lookup_ge_None in Hid. rewrite sorted_ids_length in Hid. lia.
Qed.

Lemma cmdChoose_applies_kth_witness :
  ∃ id p,
    entries two_profiles !! id = Some p ∧
    ids_below two_profiles id = 1%nat ∧
    cmdChoose [] (with_config two_profiles (quiet_world [] "2")) =
      match applyProfile p "local"
              (prompted two_profiles (loadConfig (with_config two_profiles (quiet_world [] "2"))).2)
      with
      | (Val None, w3) =>
        (Val None, print_out [OutPrintf "Applied profile %q to local repo\n" [AStr id]] w3)
      | other => other
      end.
Proof.
  apply (cmdChoose_applies_kth [] (with_config two_profiles (quiet_world [] "2"))
           (loadConfig (with_config two_profiles (quiet_world [] "2"))).2
           two_profiles (config_path "/home/u/.config") 2).
  - vm_compute. reflexivity.
  - vm_compute. reflexivity.
  - vm_compute. split; discriminate.
Defined.

(* ===================================================================== *)
(** ** C4: rejected selections *)





(* ===================================================================== *)
(** ** C5: the resolution order of [ensure] *)

Inductive resolution :=
| ByLocalDefault (p : Profile)
| ByGlobalDefault (p : Profile)
| ByChoose.

(** The resolution in the words of the spec: the local default when it is
    set and names a known profile, else the global default when it is set
    and names a known profile, else the interactive choice.  A default that
    names no known profile is passed over. *)
Definition ensure_resolution (cfg : Config) (local global : option string) : resolution :=
  match local ≫= (λ id, entries cfg !! id) with
  | Some p => ByLocalDefault p
  | None =>
    match global ≫= (λ id, entries cfg !! id) with
    | Some p => ByGlobalDefault p
    | None => ByChoose
    end
  end.

Lemma known_default_config_value cfg argv r :
  known_default cfg (config_value argv r) = set_to r ≫= (λ id, entries cfg !! id).
Proof. unfold known_default. rewrite set_value_config_value. by destruct (set_to r). Qed.

(** C5.  With a loaded config that is not empty, [ensure] reads the local
    default; when that is set and names a known profile it applies the
    profile at local scope and reads nothing more.  Otherwise it reads the
    global default and applies, at local scope, the known profile it names;
    otherwise it goes on as [choose].  A default is set when its read
    succeeds with a value that is not empty. *)
Theorem cmdEnsure_resolution (args : list string) (w w1 : World) (cfg : Config) (path : string) :
  loadConfig w = (Val (inl (cfg, path)), w1) →
  size (entries cfg) ≠ 0%nat →
  let read_local := git_get "gitprofile.default" in
  let read_global := git_get_global "gitprofile.default" in
  cmdEnsure args w =
    match ensure_resolution cfg (set_to (reply_at 0 w)) (set_to (reply_at 1 w)) with
    | ByLocalDefault p => applyProfile p "local" (after_execs [read_local] w1)
    | ByGlobalDefault p => applyProfile p "local" (after_execs [read_local; read_global] w1)
    | ByChoose => cmdChoose [] (after_execs [read_local; read_global] w1)
    end.
Proof.
  intros Hload Hsize read_local read_global.
  destruct (loadConfig_frames _ _ _ Hload) as (_ & Hr & _).
  unfold cmdEnsure, ensure_resolution. rewrite run_bind, Hload. cbv beta iota.
  destruct (Nat.eqb_spec (size (entries cfg)) 0) as [H0|_]; [done|].
  run_step. rewrite known_default_config_value, (reply_at_same 0 _ _ Hr).
  destruct (set_to (reply_at 0 w) ≫= _) as [p|]; [reflexivity|].
  run_step. rewrite known_default_config_value, (reply_at_same 1 _ _ Hr).
  destruct (set_to (reply_at 1 w) ≫= _) as [p|]; reflexivity.
Qed.

Lemma cmdEnsure_resolution_witness :
  let w := with_config two_profiles (quiet_world [Some "work
"; Some ""; Some ""; Some ""] "") in
  cmdEnsure [] w =
    applyProfile work "local" (after_execs [git_get "gitprofile.default"] (loadConfig w).2).
Proof.
  intros w.
  assert (loadConfig w = (Val (inl (two_profiles, config_path "/home/u/.config")), (loadConfig w).2))
    as Hload by (vm_compute; reflexivity).
  assert (size (entries two_profiles) ≠ 0%nat) as Hsize by (vm_compute; discriminate).
  pose proof (cmdEnsure_resolution [] w _ two_profiles _ Hload Hsize) as H.
  cbv zeta in H.
  assert (ensure_resolution two_profiles (set_to (reply_at 0 w)) (set_to (reply_at 1 w))
          = ByLocalDefault work) as E by (vm_compute; reflexivity).
  rewrite E in H. exact H.
Defined.

(** An unknown local default is passed over without an error: the global
    default decides. *)
Example cmdEnsure_skips_unknown_default :
  let w := with_config two_profiles
             (quiet_world [Some "gone"; Some "home"; Some ""; Some ""; Some ""] "") in
  (cmdEnsure [] w).1 = Val None ∧
  execs (cmdEnsure [] w).2 =
    [git_get "gitprofile.default"; git_get_global "gitprofile.default";
     git_set "local" "user.name" "Wanda";
     git_set "local" "user.email" "wanda@home.example";
     git_set "local" "core.sshCommand" "ssh -i /home/u/.ssh/id_home -F /dev/null"].
Proof. vm_compute. split; reflexivity. Qed.

(* ===================================================================== *)
(** ** Paths *)

Lemma string_app_nil_r s : s +:+ "" = s.
Proof.
  induction s as [|c s IH]; [done|].
  change (String c s +:+ "") with (String c (s +:+ "")). by rewrite IH.
Qed.

Lemma tmp_path_differs path : path ≠ path +:+ ".tmp".
Proof.
  intros H. rewrite <- (string_app_nil_r path) in H at 1.
  apply (inj (String.append path)) in H. discriminate H.
Qed.

Fixpoint last_char (s : string) : option ascii :=
  match s with
  | EmptyString => None
  | String c r =>
    match last_char r with
    | None => Some c
    | Some l => Some l
    end
  end.

Lemma last_char_app a b : b ≠ "" → last_char (a +:+ b) = last_char b.
Proof.
  intros Hb. induction a as [|c a IH]; [done|].
  change (String c a +:+ b) with (String c (a +:+ b)).
  cbn [last_char]. rewrite IH. destruct b as [|c' b]; [done|]. cbn. by destruct (last_char b).
Qed.

(** A name on its own: not empty, without a separator, and neither [.]
    nor [..]. *)
Fixpoint no_slash (s : string) : bool :=
  match s with
  | EmptyString => true
  | String c r => negb (is_byte 0x2F c) && no_slash r
  end.

Definition plain_name (name : string) : bool :=
  negb (String.eqb name "") && negb (String.eqb name ".") && negb (String.eqb name "..")
  && no_slash name.

Lemma split_slash_cons s : ∃ e es, split_slash s = e :: es.
Proof.
  destruct s as [|c r]; cbn; [by eauto|].
  destruct (is_byte 47 c); [by eauto|]. destruct (split_slash r); by eauto.
Qed.

Lemma split_slash_plain name : no_slash name = true → split_slash name = [name].
Proof.
  induction name as [|c r IH]; [done|]. cbn. intros [Hc Hr]%andb_true_iff.
  apply negb_true_iff in Hc. rewrite Hc, (IH Hr). done.
Qed.

Lemma split_slash_app dir name :
  no_slash name = true →
  split_slash (dir +:+ "/" +:+ name) = (split_slash dir ++ [name])%list.
Proof.
  intros Hname. induction dir as [|c r IH].
  - change ("" +:+ "/" +:+ name) with (String "/" name). cbn [split_slash].
    change (is_byte 47 "/") with true. cbv iota. by rewrite split_slash_plain.
  - change (String c r +:+ "/" +:+ name) with (String c (r +:+ "/" +:+ name)).
    cbn [split_slash]. rewrite IH. destruct (is_byte 47 c); [done|].
    destruct (split_slash_cons r) as (e & es & ->). done.
Qed.

Lemma last_char_None s : last_char s = None → s = "".
Proof. destruct s as [|c r]; [done|]. cbn. by destruct (last_char r). Qed.

Lemma join_slash_cons e l :
  l ≠ [] → join_slash (e :: l) = e +:+ "/" +:+ join_slash l.
Proof. by destruct l. Qed.

Lemma last_char_join_slash l name :
  name ≠ "" → last_char (join_slash (l ++ [name])) = last_char name.
Proof.
  intros Hname. induction l as [|e l IH]; [done|].
  change ((e :: l) ++ [name])%list with (e :: (l ++ [name]))%list.
  rewrite join_slash_cons by (by destruct l).
  assert (join_slash (l ++ [name]) ≠ "") as Hj.
  { intros Hj. apply Hname, last_char_None. by rewrite <- IH, Hj. }
  rewrite last_char_app, last_char_app; [exact IH|exact Hj|].
  by destruct (join_slash (l ++ [name])).
Qed.

Lemma clean_elem_plain rooted kept name :
  plain_name name = true → clean_elem rooted kept name = name :: kept.
Proof.
  unfold plain_name, clean_elem.
  intros [[[H1 H2]%andb_true_iff H3]%andb_true_iff _]%andb_true_iff.
  apply negb_true_iff in H1, H2, H3. by rewrite H1, H2, H3.
Qed.

Lemma plain_name_not_empty name : plain_name name = true → name ≠ "".
Proof. by intros H ->. Qed.

Lemma plain_name_no_slash name : plain_name name = true → no_slash name = true.
Proof. unfold plain_name. by intros [_ ?]%andb_true_iff. Qed.

Lemma last_char_Clean_end l name c r :
  plain_name name = true →
  split_slash (String c r) = (l ++ [name])%list →
  last_char (Clean (String c r)) = last_char name.
Proof.
  intros Hname Hsplit. pose proof (plain_name_not_empty _ Hname) as Hne.
  unfold Clean. rewrite Hsplit, foldl_app. cbn [foldl].
  rewrite (clean_elem_plain _ _ _ Hname). cbn [rev].
  set (front := rev _).
  pose proof (last_char_join_slash front name Hne) as Hlast.
  assert (join_slash (front ++ [name]) ≠ "") as Hbody.
  { intros Hj. apply Hne, last_char_None. by rewrite <- Hlast, Hj. }
  destruct (is_byte 47 c).
  - by rewrite last_char_app.
  - destruct (String.eqb_spec (join_slash (front ++ [name])) ""); [done|exact Hlast].
Qed.

(** The path that [Join] gives for a plain name ends as the name does. *)
Lemma last_char_Join dir name :
  plain_name name = true → last_char (Join dir name) = last_char name.
Proof.
  intros Hname. pose proof (plain_name_not_empty _ Hname) as Hne.
  pose proof (plain_name_no_slash _ Hname) as Hns.
  unfold Join. destruct (String.eqb_spec dir "") as [->|Hdir]; cbn [negb].
  - destruct (String.eqb_spec name "") as [|_]; [done|]. cbn [negb].
    destruct name as [|c r]; [done|].
    apply (last_char_Clean_end [] _ c r Hname).
    by rewrite split_slash_plain.
  - destruct dir as [|c r]; [done|].
    change (String c r +:+ "/" +:+ name) with (String c (r +:+ "/" +:+ name)).
    apply (last_char_Clean_end (split_slash (String c r)) _ _ _ Hname).
    change (String c (r +:+ "/" +:+ name)) with (String c r +:+ "/" +:+ name).
    by apply split_slash_app.
Qed.

(* ===================================================================== *)
(** ** C2: adding a profile *)

Definition required_error : error := Errorf "id, name and email are required" [] None.

Definition exists_error (id : string) : error := Errorf "profile %q already exists" [id] None.

Lemma flag_Parse_ok flagset formal args r w :
  parse_flags formal args = inl r → flag_Parse flagset formal args w = (Val r, w).
Proof. unfold flag_Parse. by intros ->. Qed.

(** [add] once its flags are parsed. *)
Lemma cmdAdd_run args w fs rest :
  parse_flags add_flags args = inl (fs, rest) →
  let id := flag_string fs "id" in
  let name := flag_string fs "name" in
  let email := flag_string fs "email" in
  let p := mkProfile id name email (flag_string fs "ssh-key") in
  cmdAdd args w =
    if (String.eqb id "" || String.eqb name "" || String.eqb email "")%bool then
      (Val (Some required_error), w)
    else
      match loadConfig w with
      | (Val (inl (cfg, path)), w1) =>
        match entries cfg !! id with
        | Some _ => (Val (Some (exists_error id)), w1)
        | None =>
          match saveConfig (mkConfig (Some (<[id := p]> (entries cfg)))) path w1 with
          | (Val None, w2) => (Val None, print_out [OutPrintf "Added profile %q\n" [AStr id]] w2)
          | other => other
          end
        end
      | (Val (inr err), w1) => (Val (Some err), w1)
      | (Exit c, w1) => (Exit c, w1)
      end.
Proof.
  intros Hparse. cbv zeta. unfold cmdAdd.
  rewrite run_bind, (flag_Parse_ok _ _ _ _ _ Hparse). cbv beta iota.
  destruct (_ || _ || _)%bool; [reflexivity|].
  rewrite run_bind. destruct (loadConfig_yields w) as (r & Hr & Hsome).
  destruct (loadConfig w) as [r' w1]. cbn in Hr. subst r'.
  destruct r as [[cfg path]|err]; [|reflexivity]. cbv beta iota.
  destruct (entries cfg !! _); [reflexivity|].
  destruct Hsome as [m Hm]. unfold entries. rewrite Hm. cbn [default].
  rewrite run_bind.
  by destruct (saveConfig _ path w1) as [[[e|]|c] w2].
Qed.

(** C2, as amended.  With its flags parsed, [add] fails when the id, the
    name or the email is missing (empty), touching nothing; with the config
    loaded, it fails when the id is already there, writing nothing;
    otherwise it saves the loaded mapping extended by the new profile, made
    of the given id, name, email and SSH key: when [add] succeeds the config
    file holds the encoding of that mapping, when it fails the config file
    is as it was, and it succeeds when no file operation fails.  What is
    persisted is exactly what was given provided the values given (and the
    profiles already stored) are valid UTF-8: then every later load that
    returns a config returns the loaded mapping with the new profile under
    its id, and when no file operation fails the load does return. *)
Theorem cmdAdd_contract (args : list string) (w : World)
    (fs : list (string * flag_value)) (rest : list string) :
  parse_flags add_flags args = inl (fs, rest) →
  let id := flag_string fs "id" in
  let name := flag_string fs "name" in
  let email := flag_string fs "email" in
  let p := mkProfile id name email (flag_string fs "ssh-key") in
  (id = "" ∨ name = "" ∨ email = "" →
     cmdAdd args w = (Val (Some required_error), w)) ∧
  (id ≠ "" ∧ name ≠ "" ∧ email ≠ "" →
   ∀ cfg path w1, loadConfig w = (Val (inl (cfg, path)), w1) →
     (is_Some (entries cfg !! id) →
        cmdAdd args w = (Val (Some (exists_error id)), w1) ∧
        files w1 = files w ∧ writes w1 = writes w) ∧
     (entries cfg !! id = None →
        (∀ w', cmdAdd args w = (Val None, w') →
           files w' !! path =
             Some (JsonText (marshal_Config (mkConfig (Some (<[id := p]> (entries cfg))))))) ∧
        (∀ e w', cmdAdd args w = (Val (Some e), w') →
           files w' !! path = files w !! path) ∧
        (faults w1 = [] → ∃ w', cmdAdd args w = (Val None, w')) ∧
        (valid_config (mkConfig (Some (<[id := p]> (entries cfg)))) = true →
           (∀ w' cfg' path' w'',
              cmdAdd args w = (Val None, w') →
              loadConfig w' = (Val (inl (cfg', path')), w'') →
              Profiles cfg' = Some (<[id := p]> (entries cfg)) ∧
              entries cfg' !! id = Some p ∧ path' = path) ∧
           (faults w1 = [] →
            ∃ w' cfg' w'',
              cmdAdd args w = (Val None, w') ∧
              loadConfig w' = (Val (inl (cfg', path)), w'') ∧
              Profiles cfg' = Some (<[id := p]> (entries cfg)) ∧
              entries cfg' !! id = Some p)))).
Proof.
  intros Hparse id name email p.
  pose proof (cmdAdd_run args w fs rest Hparse) as Hrun. cbv zeta in Hrun.
  fold id name email p in Hrun. split.
  - intros Hmissing. rewrite Hrun.
    assert ((String.eqb id "" || String.eqb name "" || String.eqb email "")%bool = true) as ->;
      [|done].
    rewrite !orb_true_iff, !String.eqb_eq. tauto.
  - intros (Hid & Hname & Hemail) cfg path w1 Hload.
    assert ((String.eqb id "" || String.eqb name "" || String.eqb email "")%bool = false) as Hall.
    { rewrite !orb_false_iff, !String.eqb_neq. tauto. }
    rewrite Hall, Hload in Hrun.
    destruct (loadConfig_frames _ _ _ Hload) as (Hfiles & _ & _ & _ & _ & _ & _ & Hwrites).
    pose proof (loadConfig_keeps_dir w) as Hdir0. rewrite Hload in Hdir0.
    unfold keeps in Hdir0. cbn in Hdir0.
    destruct (loadConfig_inv _ _ _ _ Hload) as (d & Hd & Hpath & _).
    split.
    + intros [q Hq]. rewrite Hq in Hrun. done.
    + intros Hnew. rewrite Hnew in Hrun.
      set (cfg1 := mkConfig (Some (<[id := p]> (entries cfg)))) in *.
      assert (∀ w2 cfg' path' w'',
                saveConfig cfg1 path w1 = (Val None, w2) →
                valid_config cfg1 = true →
                loadConfig (print_out [OutPrintf "Added profile %q\n" [AStr id]] w2)
                  = (Val (inl (cfg', path')), w'') →
                Profiles cfg' = Some (<[id := p]> (entries cfg)) ∧
                entries cfg' !! id = Some p ∧ path' = path) as Hback.
      { intros w2 cfg' path' w'' Hsave Hvalid Hload'.
        apply saveConfig_inv in Hsave as [Hfile Hdir1].
        apply loadConfig_inv in Hload' as (d' & Hd' & -> & Hread).
        cbn [user_config_dir files print_out set_stdout] in Hd', Hread.
        rewrite Hdir1, Hdir0, Hd in Hd'. simplify_eq.
        rewrite Hfile, (read_config_marshal cfg1 Hvalid) in Hread. simplify_eq.
        split; [done|]. split; [|done].
        unfold entries. cbn. by rewrite lookup_insert_eq. }
      destruct (saveConfig cfg1 path w1) as [[[e|]|c] w2] eqn:Hsave.
      * split; [by rewrite Hrun|]. split; [|split; [intros Hquiet|intros Hvalid; split]].
        -- intros e' w' H'. rewrite Hrun in H'. simplify_eq.
           rewrite <- Hfiles. eapply saveConfig_failed; [done|]. apply tmp_path_differs.
        -- destruct (saveConfig_quiet cfg1 path w1 Hquiet) as (w2' & Hsave' & _).
           rewrite Hsave in Hsave'. discriminate.
        -- intros w' cfg' path' w'' H'. rewrite Hrun in H'. discriminate.
        -- intros Hquiet. destruct (saveConfig_quiet cfg1 path w1 Hquiet) as (w2' & Hsave' & _).
           rewrite Hsave in Hsave'. discriminate.
      * pose proof (saveConfig_inv _ _ _ _ Hsave) as [Hfile Hdir1].
        split; [|split; [|split; [|intros Hvalid; split]]].
        -- intros w' H'. rewrite Hrun in H'. by simplify_eq.
        -- intros e' w' H'. rewrite Hrun in H'. discriminate.
        -- eauto.
        -- intros w' cfg' path' w'' H' Hload'. rewrite Hrun in H'. simplify_eq.
           by apply (Hback w2 cfg' path' w'').
        -- intros Hquiet.
           destruct (saveConfig_quiet cfg1 path w1 Hquiet) as (w2' & Hsave' & Hquiet2).
           rewrite Hsave in Hsave'. injection Hsave' as <-.
           set (w' := print_out [OutPrintf "Added profile %q\n" [AStr id]] w2).
           assert (loadConfig w' =
                     (Val (inl (normalize cfg1, config_path d)), (loadConfig w').2)) as Hload'.
           { rewrite (loadConfig_quiet w' d).
             - unfold w'. cbn [files print_out set_stdout]. rewrite <- Hpath.
               by rewrite Hfile, (read_config_marshal cfg1 Hvalid).
             - unfold w'. cbn. by rewrite Hdir1, Hdir0.
             - done. }
           exists w', (normalize cfg1), (loadConfig w').2.
           split; [exact Hrun|]. split; [by rewrite Hpath|].
           destruct (Hback w2 _ _ _ eq_refl Hvalid Hload') as (? & ? & _). done.
      * split; [by rewrite Hrun|]. split; [by rewrite Hrun|].
        split; [intros Hquiet|intros Hvalid; split; [|intros Hquiet]].
        -- destruct (saveConfig_quiet cfg1 path w1 Hquiet) as (w2' & Hsave' & _).
           rewrite Hsave in Hsave'. discriminate.
        -- intros w' cfg' path' w'' H'. rewrite Hrun in H'. discriminate.
        -- destruct (saveConfig_quiet cfg1 path w1 Hquiet) as (w2' & Hsave' & _).
           rewrite Hsave in Hsave'. discriminate.
Qed.

Lemma cmdAdd_contract_witness :
  let args := ["--id"; "work"; "--name"; "Wanda Work"; "--email"; "wanda@example.com"] in
  let w := quiet_world [] "" in
  ∃ w' cfg' w'',
    cmdAdd args w = (Val None, w') ∧
    files w' !! config_path "/home/u/.config" =
      Some (JsonText (marshal_Config (mkConfig (Some (<["work" := work]> ∅))))) ∧
    loadConfig w' = (Val (inl (cfg', config_path "/home/u/.config")), w'') ∧
    entries cfg' !! "work" = Some work.
Proof.
  intros args w.
  pose (fs := [("id", FString "work"); ("name", FString "Wanda Work");
               ("email", FString "wanda@example.com"); ("ssh-key", FString "")]).
  assert (parse_flags add_flags args = inl (fs, [])) as Hparse by (vm_compute; reflexivity).
  assert (loadConfig w = (Val (inl (mkConfig (Some ∅), config_path "/home/u/.config")),
                          (loadConfig w).2)) as Hload by (vm_compute; reflexivity).
  assert (faults (loadConfig w).2 = []) as Hquiet by (vm_compute; reflexivity).
  assert (entries (mkConfig (Some ∅)) !! flag_string fs "id" = None) as Hnone
    by (vm_compute; reflexivity).
  assert (flag_string fs "id" ≠ "" ∧ flag_string fs "name" ≠ "" ∧ flag_string fs "email" ≠ "")
    as Hgiven by (vm_compute; repeat split; discriminate).
  assert (valid_config (mkConfig (Some (<["work" := work]> ∅))) = true) as Hvalid
    by (vm_compute; reflexivity).
  destruct (cmdAdd_contract args w fs [] Hparse) as [_ H].
  destruct (H Hgiven _ _ _ Hload) as [_ Hnew].
  destruct (Hnew Hnone) as (Hfile & _ & _ & Hkept).
  destruct (Hkept Hvalid) as [_ Htotal].
  destruct (Htotal Hquiet) as (w' & cfg' & w'' & Hw' & Hload' & _ & Hp).
  exists w', cfg', w''. split; [exact Hw'|]. split; [exact (Hfile w' Hw')|].
  split; [exact Hload'|exact Hp].
Defined.

(** C2 as stated fails: an [add] with a user name that is not valid UTF-8
    succeeds, and the profile that a load then finds under the id carries
    the replacement character U+FFFD in place of the name that was given. *)
Lemma cmdAdd_contract_counterexample :
  let args := ["--id"; "odd"; "--name"; latin1_name; "--email"; "odd@example.com"] in
  let w := quiet_world [] "" in
  let w' := (cmdAdd args w).2 in
  let given := mkProfile "odd" latin1_name "odd@example.com" "" in
  let stored := mkProfile "odd" replacement "odd@example.com" "" in
  parse_flags add_flags args =
    inl ([("id", FString "odd"); ("name", FString latin1_name);
          ("email", FString "odd@example.com"); ("ssh-key", FString "")], []) ∧
  cmdAdd args w = (Val None, w') ∧
  loadConfig w' =
    (Val (inl (mkConfig (Some (<["odd" := stored]> ∅)), config_path "/home/u/.config")),
     (loadConfig w').2) ∧
  stored ≠ given.
Proof.
  split; [vm_compute; reflexivity|]. split; [vm_compute; reflexivity|].
  split; [vm_compute; reflexivity|].
  intros Heq. apply (f_equal GitUser) in Heq. vm_compute in Heq. discriminate.
Qed.

(* ===================================================================== *)
(** ** Returning to the caller *)

Create HintDb yields discriminated.

#[export] Hint Extern 1 (yields _ (log _)) => solve [yields_prim] : yields.
#[export] Hint Extern 1 (yields _ fault) => solve [yields_prim] : yields.
#[export] Hint Extern 1 (yields _ os_UserConfigDir) => solve [yields_prim] : yields.
#[export] Hint Extern 1 (yields _ (os_MkdirAll _)) => solve [yields_prim] : yields.
#[export] Hint Extern 1 (yields _ (os_Open _)) => solve [yields_prim] : yields.
#[export] Hint Extern 1 (yields _ (os_WriteFile _ _)) => solve [yields_prim] : yields.
#[export] Hint Extern 1 (yields _ (exec_Command _)) => solve [yields_prim] : yields.
#[export] Hint Extern 1 (yields _ (cmd_Run _)) => solve [yields_prim] : yields.
#[export] Hint Extern 1 (yields _ (cmd_Output _)) => solve [yields_prim] : yields.
#[export] Hint Extern 1 (yields _ ReadString_nl) => solve [yields_prim] : yields.
#[export] Hint Extern 1 (yields _ (to_stdout _)) => solve [yields_prim] : yields.
#[export] Hint Extern 1 (yields _ (to_stderr _)) => solve [yields_prim] : yields.

Ltac yields_step :=
  match goal with
  | |- yields _ (let _ := _ in _) => cbv zeta
  | |- yields _ (mret _) => by apply yields_ret
  | |- yields _ (_ ≫= _) => eapply (yields_bind (λ _, True)); [|intros ? _]
  | |- yields _ (for_each _ _) => apply yields_for_each; intros ?
  | |- yields _ (for_each_from _ _ _) => apply yields_for_each_from; intros ? ?
  | |- yields _ (match ?x with _ => _ end) => destruct x
  | |- yields _ (let '(_, _) := ?x in _) => destruct x
  end.

Ltac yields_auto :=
  repeat first [ yields_step | solve [auto with yields] ].

Lemma loadConfig_returns : yields (λ _, True) loadConfig.
Proof. eapply yields_weaken; [|apply loadConfig_yields]. done. Qed.

Lemma applyProfile_returns p scope : yields (λ _, True) (applyProfile p scope).
Proof. unfold applyProfile, runGitConfig. yields_auto. Qed.

#[export] Hint Resolve loadConfig_returns applyProfile_returns : yields.

Lemma cmdList_returns args : yields (λ _, True) (cmdList args).
Proof. unfold cmdList. yields_auto. Qed.

Lemma cmdCurrent_returns args : yields (λ _, True) (cmdCurrent args).
Proof. unfold cmdCurrent, getGitConfig, getGitConfigGlobal. yields_auto. Qed.

Lemma cmdChoose_returns args : yields (λ _, True) (cmdChoose args).
Proof.
  intros w. destruct (loadConfig_returns w) as (r & Hr & _).
  destruct (loadConfig w) as [r' w1] eqn:Hload. cbn in Hr. subst r'.
  destruct r as [[cfg path]|err].
  - rewrite (cmdChoose_run args w cfg path w1 Hload).
    destruct (size (entries cfg) =? 0)%nat; [by eauto|].
    destruct (String.eqb (input_line w1) ""); [by eauto|].
    destruct (Sscanf_d (input_line w1)) as [k|]; [|by eauto].
    destruct (Z.ltb_spec k 1) as [?|Hlo]; [by eauto|].
    destruct (k >? Z.of_nat (size (entries cfg))) eqn:Hhi; [by eauto|]. cbn [orb].
    destruct (sorted_ids cfg !! Z.to_nat (k - 1)) as [id|] eqn:Hid.
    + destruct (applyProfile_returns (profile_at cfg id) "local" (prompted cfg w1))
        as (a & Ha & _).
      destruct (applyProfile _ _ _) as [r3 w3]. cbn in Ha. subst r3.
      destruct a; by eauto.
    + apply lookup_ge_None in Hid. rewrite sorted_ids_length in Hid.
      rewrite Z.gtb_ltb in Hhi. apply Z.ltb_ge in Hhi. lia.
  - unfold cmdChoose. rewrite run_bind, Hload. by eauto.
Qed.

#[export] Hint Resolve cmdChoose_returns : yields.

Lemma cmdEnsure_returns args : yields (λ _, True) (cmdEnsure args).
Proof. unfold cmdEnsure, getGitConfig, getGitConfigGlobal. yields_auto. Qed.

Lemma write_hooks_returns dir hooks : yields (λ _, True) (write_hooks dir hooks).
Proof. induction hooks as [|h hooks IH]; cbn [write_hooks]; yields_auto. Qed.

#[export] Hint Resolve write_hooks_returns : yields.

Lemma cmdInstallHooks_returns args : yields (λ _, True) (cmdInstallHooks args).
Proof. unfold cmdInstallHooks, gitDir. yields_auto. Qed.

(** The flags a command defines, if it parses any. *)
Definition flags_of (c : command) : option (string * list (string * flag_value)) :=
  match c with
  | Add => Some ("add", add_flags)
  | Use => Some ("use", global_flag)
  | SetDefault => Some ("set-default", global_flag)
  | _ => None
  end.

Definition print_err (items : list output) (w : World) : World :=
  set_stderr (stderr w ++ items) w.

Lemma flag_Parse_exit flagset formal args e w :
  parse_flags formal args = inr e →
  flag_Parse flagset formal args w =
    (Exit (match e with ErrHelp => 0 | _ => 2 end), print_err [FlagReport flagset e] w).
Proof. unfold flag_Parse. by intros ->. Qed.

Lemma cmdAdd_returns args w fs rest :
  parse_flags add_flags args = inl (fs, rest) → ∃ a, (cmdAdd args w).1 = Val a.
Proof.
  intros Hparse. rewrite (cmdAdd_run args w fs rest Hparse).
  destruct (_ || _ || _)%bool; [by eauto|].
  destruct (loadConfig_returns w) as (r & Hr & _).
  destruct (loadConfig w) as [r' w1]. cbn in Hr. subst r'.
  destruct r as [[cfg path]|err]; [|by eauto].
  destruct (entries cfg !! _); [by eauto|].
  match goal with |- context [saveConfig ?c ?p ?w] =>
    destruct (saveConfig c p w) as [[[e|]|c'] w2] eqn:Hsave end; eauto.
  exfalso. revert Hsave. unfold saveConfig. unfold_prims.
  destruct w1 as [ucd fl fts rs sin sout serr tr].
  fault_shapes fts; cbn; rewrite ?lookup_insert_eq; cbn; done.
Qed.

Lemma cmdUse_returns args w fs rest :
  parse_flags global_flag args = inl (fs, rest) → ∃ a, (cmdUse args w).1 = Val a.
Proof.
  intros Hparse. unfold cmdUse.
  rewrite run_bind, (flag_Parse_ok _ _ _ _ _ Hparse). cbv beta iota.
  assert (yields (λ _, True)
            (match rest with
             | [] => mret (Some (Errorf "usage: git-profile use [--global] <profile-id>" [] None))
             | id :: _ =>
               r ← loadConfig;
               match r with
               | inr err => mret (Some err)
               | inl (cfg, _) =>
                 match entries cfg !! id with
                 | None => mret (Some (Errorf "profile %q not found" [id] None))
                 | Some p =>
                   let scope := if flag_bool fs "global" then "global" else "local" in
                   err ← applyProfile p scope;
                   match err with
                   | Some err => mret (Some err)
                   | None =>
                     to_stdout (OutPrintf "Applied profile %q to %s git config\n"
                                  [AStr id; AStr scope]);;
                     mret None
                   end
                 end
               end
             end)) as H by yields_auto.
  destruct (H w) as (a & Ha & _). eauto.
Qed.

Lemma cmdSetDefault_returns args w fs rest :
  parse_flags global_flag args = inl (fs, rest) → ∃ a, (cmdSetDefault args w).1 = Val a.
Proof.
  intros Hparse. unfold cmdSetDefault.
  rewrite run_bind, (flag_Parse_ok _ _ _ _ _ Hparse). cbv beta iota.
  assert (yields (λ _, True)
            (match rest with
             | [] => mret (Some (Errorf "usage: git-profile set-default [--global] <profile-id>"
                                   [] None))
             | id :: _ =>
               r ← loadConfig;
               match r with
               | inr err => mret (Some err)
               | inl (cfg, _) =>
                 match entries cfg !! id with
                 | None => mret (Some (Errorf "profile %q not found" [id] None))
                 | Some _ =>
                   let scope := if flag_bool fs "global" then "global" else "local" in
                   err ← runGitConfig scope "gitprofile.default" id;
                   match err with
                   | Some err => mret (Some err)
                   | None =>
                     to_stdout (OutPrintf "Set %q as %s default profile\n"
                                  [AStr id; AStr scope]);;
                     mret None
                   end
                 end
               end
             end)) as H by (unfold runGitConfig; yields_auto).
  destruct (H w) as (a & Ha & _). eauto.
Qed.

(* ===================================================================== *)
(** ** C7: exit codes *)

(** The exit status package flag ends the process with. *)
Definition flag_exit (e : flag_error) : Z :=
  match e with
  | ErrHelp => 0
  | _ => 2
  end.

(** A handler returns to [main], unless the parsing of its flags ends the
    process. *)
Lemma handler_outcome c args w :
  match flags_of c with
  | Some (name, formal) =>
    match parse_flags formal args with
    | inr e => handler c args w = (Exit (flag_exit e), print_err [FlagReport name e] w)
    | inl _ => ∃ a, (handler c args w).1 = Val a
    end
  | None => ∃ a, (handler c args w).1 = Val a
  end.
Proof.
  destruct c; cbn [flags_of handler].
  - destruct (parse_flags add_flags args) as [[fs rest]|e] eqn:Hparse.
    + by eapply cmdAdd_returns.
    + unfold cmdAdd. by rewrite run_bind, (flag_Parse_exit _ _ _ _ _ Hparse).
  - destruct (cmdList_returns args w) as (a & Ha & _). eauto.
  - destruct (parse_flags global_flag args) as [[fs rest]|e] eqn:Hparse.
    + by eapply cmdUse_returns.
    + unfold cmdUse. by rewrite run_bind, (flag_Parse_exit _ _ _ _ _ Hparse).
  - destruct (cmdCurrent_returns args w) as (a & Ha & _). eauto.
  - destruct (cmdChoose_returns args w) as (a & Ha & _). eauto.
  - destruct (parse_flags global_flag args) as [[fs rest]|e] eqn:Hparse.
    + by eapply cmdSetDefault_returns.
    + unfold cmdSetDefault. by rewrite run_bind, (flag_Parse_exit _ _ _ _ _ Hparse).
  - destruct (cmdEnsure_returns args w) as (a & Ha & _). eauto.
  - destruct (cmdInstallHooks_returns args w) as (a & Ha & _). eauto.
Qed.

(** C7, as amended.  The process exits with 0 when the handler of the
    command returns no error (and after printing usage for a help command);
    with 1, after printing [Error: <message>] on standard error, when the
    handler returns an error; with 1, after printing usage on standard
    output, when the command is missing or unknown.  When the flags of
    [add], [use] or [set-default] do not parse, package flag reports it on
    standard error and ends the process itself: with 2, or with 0 when help
    was asked for.  No other exit occurs. *)
Theorem main_exit_code (os_Args : list string) (w : World) :
  match os_Args with
  | _ :: cmd :: args =>
    match command_of cmd with
    | Some c =>
      match handler c args w with
      | (Val None, w1) => main os_Args w = (Val tt, w1)
      | (Val (Some err), w1) =>
        main os_Args w = (Exit 1, print_err [OutPrintf "Error: %v\n" [AErr err]] w1)
      | (Exit code, w1) =>
        main os_Args w = (Exit code, w1) ∧
        ∃ name formal e,
          flags_of c = Some (name, formal) ∧ parse_flags formal args = inr e ∧
          code = flag_exit e ∧ w1 = print_err [FlagReport name e] w
      end
    | None =>
      if is_help cmd then main os_Args w = (Val tt, print_out [OutPrintln usage_text] w)
      else
        main os_Args w =
          (Exit 1, print_out [OutPrintln usage_text] (print_err [OutPrintf "Unknown command: %s\n\n" [AStr cmd]] w))
    end
  | _ => main os_Args w = (Exit 1, print_out [OutPrintln usage_text] w)
  end.
Proof.
  destruct os_Args as [|prog [|cmd args]]; [reflexivity..|].
  unfold main. destruct (command_of cmd) as [c|].
  - rewrite run_bind. pose proof (handler_outcome c args w) as Hout.
    destruct (handler c args w) as [[[err|]|code] w1] eqn:Hrun; [reflexivity..|].
    split; [reflexivity|].
    destruct (flags_of c) as [[name formal]|] eqn:Hflags; [|by destruct Hout].
    destruct (parse_flags formal args) as [r|e] eqn:Hparse; [by destruct Hout|].
    simplify_eq. by eauto 10.
  - by destruct (is_help cmd).
Qed.

(** C7 as stated fails: a flag that [add] does not define ends the process
    with 2, and no [Error:] line is printed. *)
Lemma main_exit_code_counterexample :
  let r := main ["git-profile"; "add"; "--colour"; "red"] (quiet_world [] "") in
  exit_code r.1 = 2 ∧
  stderr r.2 = [FlagReport "add" (ErrNotDefined "colour")] ∧
  stdout r.2 = [].
Proof. vm_compute. repeat split; reflexivity. Qed.

(** A run of each kind. *)
Example main_exit_codes :
  let w := with_config two_profiles (quiet_world [Some ""; Some ""; Some ""] "") in
  exit_code (main ["git-profile"; "use"; "work"] w).1 = 0 ∧
  exit_code (main ["git-profile"; "use"; "nobody"] w).1 = 1 ∧
  exit_code (main ["git-profile"; "frobnicate"] w).1 = 1 ∧
  exit_code (main ["git-profile"] w).1 = 1 ∧
  exit_code (main ["git-profile"; "use"; "-h"] w).1 = 0 ∧
  exit_code (main ["git-profile"; "use"; "--global=perhaps"; "work"] w).1 = 2.
Proof. vm_compute. repeat split; reflexivity. Qed.

(* ===================================================================== *)
(** ** C9: who touches the config file *)

Lemma os_WriteFile_keeps_other p path bytes :
  path ≠ p → frame (keeps (λ w, files w !! p)) (os_WriteFile path bytes).
Proof.
  intros Hne w. unfold os_WriteFile. unfold_prims.
  destruct w as [? ? fts ? ? ? ? ?]; fault_shapes fts; unfold keeps; cbn;
    rewrite ?lookup_insert_ne; done.
Qed.

Lemma hook_path_differs dir name d :
  name = "prepare-commit-msg" ∨ name = "pre-push" → Join dir name ≠ config_path d.
Proof.
  intros Hname Heq. apply (f_equal last_char) in Heq.
  unfold config_path in Heq. rewrite (last_char_Join _ "config.json") in Heq by done.
  destruct Hname as [-> | ->]; rewrite last_char_Join in Heq by done; discriminate Heq.
Qed.

(** Every handler but that of [add] leaves the file at the config path as
    it was. *)
Lemma handler_keeps_config c args d :
  c ≠ Add → frame (keeps (λ w, files w !! config_path d)) (handler c args).
Proof.
  intros Hc. destruct c; [done|..]; cbn [handler].
  - unfold cmdList, loadConfig, defaultConfigPath. frame_auto.
  - unfold cmdUse, flag_Parse, loadConfig, defaultConfigPath, applyProfile, runGitConfig.
    frame_auto.
  - unfold cmdCurrent, getGitConfig, getGitConfigGlobal. frame_auto.
  - unfold cmdChoose, loadConfig, defaultConfigPath, applyProfile, runGitConfig. frame_auto.
  - unfold cmdSetDefault, flag_Parse, loadConfig, defaultConfigPath, runGitConfig. frame_auto.
  - unfold cmdEnsure, cmdChoose, loadConfig, defaultConfigPath, applyProfile, runGitConfig,
      getGitConfig, getGitConfigGlobal. frame_auto.
  - unfold cmdInstallHooks, gitDir. cbn [write_hooks]. frame_auto.
    all: apply os_WriteFile_keeps_other, hook_path_differs; auto.
Qed.

(** The command opens at most [n] files. *)
Definition loads_at_most {A : Type} (n : nat) (m : M A) : Prop :=
  ∀ w, (opens (m w).2 ≤ opens w + n)%nat.

Lemma loads_bind {A B : Type} (n k : nat) (m : M A) (f : A → M B) :
  loads_at_most n m → (∀ a, loads_at_most k (f a)) → loads_at_most (n + k) (m ≫= f).
Proof.
  intros Hm Hf w. rewrite run_bind. specialize (Hm w).
  destruct (m w) as [[a|c] w1]; cbn in *; [|lia].
  specialize (Hf a w1). lia.
Qed.

Lemma loads_keeps {A : Type} (m : M A) : frame (keeps opens) m → loads_at_most 0 m.
Proof. intros H w. rewrite (H w). lia. Qed.

Lemma loads_mono {A : Type} (n k : nat) (m : M A) :
  (n ≤ k)%nat → loads_at_most n m → loads_at_most k m.
Proof. intros Hnk H w. specialize (H w). lia. Qed.

Lemma loadConfig_loads : loads_at_most 1 loadConfig.
Proof.
  intros w. unfold loadConfig, defaultConfigPath. unfold_prims.
  destruct w as [[d|] fl fts rs sin sout serr tr]; cbn; [|lia].
  fault_shapes fts; cbn; repeat case_match; trace_simpl; lia.
Qed.

Lemma applyProfile_keeps_opens p scope : frame (keeps opens) (applyProfile p scope).
Proof. unfold applyProfile, runGitConfig. frame_auto. Qed.

#[export] Hint Resolve applyProfile_keeps_opens : frames.

Lemma cmdChoose_loads args : loads_at_most 1 (cmdChoose args).
Proof.
  unfold cmdChoose. apply (loads_bind 1 0); [apply loadConfig_loads|].
  intros r. apply loads_keeps. frame_auto.
Qed.

Lemma cmdEnsure_loads args : loads_at_most 2 (cmdEnsure args).
Proof.
  unfold cmdEnsure. apply (loads_bind 1 1); [apply loadConfig_loads|].
  intros [[cfg path]|err]; [|apply (loads_mono 0); [lia|apply loads_keeps; frame_auto]].
  destruct (size (entries cfg) =? 0)%nat;
    [apply (loads_mono 0); [lia|apply loads_keeps; frame_auto]|].
  apply (loads_bind 0 1); [apply loads_keeps; unfold getGitConfig; frame_auto|].
  intros def. destruct (known_default cfg def);
    [apply (loads_mono 0); [lia|apply loads_keeps; frame_auto]|].
  apply (loads_bind 0 1); [apply loads_keeps; unfold getGitConfigGlobal; frame_auto|].
  intros gdef. destruct (known_default cfg gdef);
    [apply (loads_mono 0); [lia|apply loads_keeps; frame_auto]|].
  apply cmdChoose_loads.
Qed.

(** How often the handler of a command may open the config file. *)
Definition loads_bound (c : command) : nat :=
  match c with
  | Current | InstallHooks => 0
  | Ensure => 2
  | _ => 1
  end.

Lemma write_hooks_keeps_opens dir hooks : frame (keeps opens) (write_hooks dir hooks).
Proof.
  induction hooks as [|h hooks IH]; cbn [write_hooks]; frame_auto.
  intros w. unfold os_WriteFile. unfold_prims.
  destruct w as [? ? fts ? ? ? ? ?]; fault_shapes fts; cbn; trace_simpl; done.
Qed.

#[export] Hint Resolve write_hooks_keeps_opens : frames.

Lemma handler_loads c args : c ≠ Add → loads_at_most (loads_bound c) (handler c args).
Proof.
  intros Hc. destruct c; [done|..]; cbn [handler loads_bound].
  - unfold cmdList. apply (loads_bind 1 0); [apply loadConfig_loads|].
    intros r. apply loads_keeps. frame_auto.
  - unfold cmdUse. apply (loads_bind 0 1); [apply loads_keeps; unfold flag_Parse; frame_auto|].
    intros [fs [|id rest]]; [apply (loads_mono 0); [lia|apply loads_keeps; frame_auto]|].
    apply (loads_bind 1 0); [apply loadConfig_loads|].
    intros r. apply loads_keeps. frame_auto.
  - apply loads_keeps. unfold cmdCurrent, getGitConfig, getGitConfigGlobal. frame_auto.
  - apply cmdChoose_loads.
  - unfold cmdSetDefault.
    apply (loads_bind 0 1); [apply loads_keeps; unfold flag_Parse; frame_auto|].
    intros [fs [|id rest]]; [apply (loads_mono 0); [lia|apply loads_keeps; frame_auto]|].
    apply (loads_bind 1 0); [apply loadConfig_loads|].
    intros r. apply loads_keeps. unfold runGitConfig. frame_auto.
  - apply cmdEnsure_loads.
  - apply loads_keeps. unfold cmdInstallHooks, gitDir. frame_auto.
Qed.

(** C9, as amended.  Whatever its arguments and whether it succeeds or
    fails, the handler of every command other than [add] leaves the config
    file as it was.  [list], [use], [choose] and [set-default] open it at
    most once, [current] and [install-hooks] never, and [ensure] at most
    twice: once itself and once more in [choose] when it falls through. *)
Theorem only_add_writes_config (c : command) (args : list string) (w : World) (d : string) :
  c ≠ Add →
  files (handler c args w).2 !! config_path d = files w !! config_path d ∧
  (opens (handler c args w).2 ≤ opens w + loads_bound c)%nat.
Proof.
  intros Hc. split.
  - apply (handler_keeps_config c args d Hc w).
  - apply (handler_loads c args Hc w).
Qed.

Lemma only_add_writes_config_witness :
  let w := with_config two_profiles (quiet_world [None; None; Some ""; Some ""; Some ""] "1") in
  files (handler Ensure [] w).2 !! config_path "/home/u/.config" =
    files w !! config_path "/home/u/.config" ∧
  (opens (handler Ensure [] w).2 ≤ opens w + 2)%nat.
Proof.
  intros w.
  exact (only_add_writes_config Ensure [] w "/home/u/.config" ltac:(discriminate)).
Defined.

(** C9 as stated fails: with no usable default, [ensure] loads the config
    itself and then once more in [choose]. *)
Lemma ensure_loads_twice :
  let w := with_config two_profiles (quiet_world [None; None; Some ""; Some ""; Some ""] "1") in
  opens w = 0%nat ∧
  (handler Ensure [] w).1 = Val None ∧
  opens (handler Ensure [] w).2 = 2%nat.
Proof. vm_compute. repeat split; reflexivity. Qed.

(* ===================================================================== *)
(** ** Further properties of the config store *)

(** A save is all or nothing: whichever of its steps fails, the file at the
    target path holds what it held before, and after a save that succeeds it
    holds the whole new document. *)
Theorem saveConfig_all_or_nothing (cfg : Config) (path : string) (w : World) :
  ∃ r w', saveConfig cfg path w = (Val r, w') ∧
    match r with
    | None => files w' !! path = Some (JsonText (marshal_Config cfg))
    | Some _ => files w' !! path = files w !! path
    end.
Proof.
  destruct (saveConfig cfg path w) as [[[e|]|c] w'] eqn:Hsave.
  - exists (Some e), w'. split; [done|].
    eapply saveConfig_failed; [done|apply tmp_path_differs].
  - exists None, w'. split; [done|]. by apply saveConfig_inv in Hsave as [? _].
  - exfalso. revert Hsave. unfold saveConfig. unfold_prims.
    destruct w as [ucd fl fts rs sin sout serr tr].
    fault_shapes fts; cbn; rewrite ?lookup_insert_eq; cbn; done.
Qed.

(** After an [add] of values that are valid UTF-8 to a config that is, in a
    world where no file operation fails, a load returns the loaded mapping
    extended by the new profile. *)
Theorem cmdAdd_then_loadConfig (args : list string) (w w1 : World)
    (fs : list (string * flag_value)) (rest : list string) (cfg : Config) (path : string) :
  parse_flags add_flags args = inl (fs, rest) →
  let id := flag_string fs "id" in
  let p := mkProfile id (flag_string fs "name") (flag_string fs "email")
             (flag_string fs "ssh-key") in
  let cfg' := mkConfig (Some (<[id := p]> (entries cfg))) in
  id ≠ "" ∧ flag_string fs "name" ≠ "" ∧ flag_string fs "email" ≠ "" →
  loadConfig w = (Val (inl (cfg, path)), w1) →
  faults w1 = [] →
  entries cfg !! id = None →
  valid_config cfg' = true →
  ∃ w2 w3, cmdAdd args w = (Val None, w2) ∧ loadConfig w2 = (Val (inl (cfg', path)), w3).
Proof.
  intros Hparse id p cfg' Hgiven Hload Hquiet Hnew Hvalid.
  pose proof (cmdAdd_run args w fs rest Hparse) as Hrun. cbv zeta in Hrun.
  fold id in Hrun. fold p in Hrun.
  assert ((String.eqb id "" || String.eqb (flag_string fs "name") ""
           || String.eqb (flag_string fs "email") "")%bool = false) as Hall.
  { rewrite !orb_false_iff, !String.eqb_neq. tauto. }
  rewrite Hall, Hload, Hnew in Hrun. fold cfg' in Hrun.
  destruct (saveConfig_quiet cfg' path w1 Hquiet) as (w2 & Hsave & Hquiet2).
  rewrite Hsave in Hrun.
  apply saveConfig_inv in Hsave as [Hfile Hdir].
  pose proof (loadConfig_keeps_dir w) as Hkeep. rewrite Hload in Hkeep.
  unfold keeps in Hkeep. cbn in Hkeep.
  apply loadConfig_inv in Hload as (d & Hd & -> & _).
  eexists _, _. split; [exact Hrun|].
  rewrite (loadConfig_quiet _ d).
  - cbn [files print_out set_stdout]. rewrite Hfile, (read_config_marshal cfg' Hvalid).
    reflexivity.
  - cbn. by rewrite Hdir, Hkeep.
  - done.
Qed.

Lemma cmdAdd_then_loadConfig_witness :
  let args := ["--id"; "work"; "--name"; "Wanda Work"; "--email"; "wanda@example.com"] in
  let w := quiet_world [] "" in
  ∃ w2 w3,
    cmdAdd args w = (Val None, w2) ∧
    loadConfig w2 =
      (Val (inl (mkConfig (Some (<["work" := work]> ∅)), config_path "/home/u/.config")), w3).
Proof.
  intros args w.
  pose (fs := [("id", FString "work"); ("name", FString "Wanda Work");
               ("email", FString "wanda@example.com"); ("ssh-key", FString "")]).
  assert (parse_flags add_flags args = inl (fs, [])) as Hparse by (vm_compute; reflexivity).
  assert (loadConfig w = (Val (inl (mkConfig (Some ∅), config_path "/home/u/.config")),
                          (loadConfig w).2)) as Hload by (vm_compute; reflexivity).
  assert (faults (loadConfig w).2 = []) as Hquiet by (vm_compute; reflexivity).
  assert (entries (mkConfig (Some ∅)) !! flag_string fs "id" = None) as Hnone
    by (vm_compute; reflexivity).
  assert (flag_string fs "id" ≠ "" ∧ flag_string fs "name" ≠ "" ∧ flag_string fs "email" ≠ "")
    as Hgiven by (vm_compute; repeat split; discriminate).
  assert (valid_config (mkConfig (Some (<["work" := work]> ∅))) = true) as Hvalid
    by (vm_compute; reflexivity).
  exact (cmdAdd_then_loadConfig args w _ fs [] _ _ Hparse Hgiven Hload Hquiet Hnone Hvalid).
Defined.

(** The same [add] with a user name that is not valid UTF-8 succeeds, and
    the profile that [list] then prints carries the replacement character
    in place of the name that was given. *)
Example cmdAdd_then_cmdList_replacement :
  let w := quiet_world [] "" in
  let w1 := (main ["git-profile"; "add"; "--id"; "odd"; "--name"; latin1_name;
                   "--email"; "odd@example.com"] w).2 in
  let r := main ["git-profile"; "list"] w1 in
  exit_code r.1 = 0 ∧
  stdout r.2 =
    [OutPrintf "Added profile %q\n" [AStr "odd"];
     OutPrintln "Configured profiles:";
     OutPrintf "  - %s: %s <%s>, ssh=%s\n"
       [AStr "odd"; AStr replacement; AStr "odd@example.com"; AStr "(default SSH)"]].
Proof. vm_compute. split; reflexivity. Qed.

(* ===================================================================== *)
(** ** The two variants of the apply logic *)

(** On the two scopes the program ever passes, "local" and "global", the
    earlier [applyProfile] (clear when the scope is "local") and the
    current one (clear when the scope is not "global") are the same
    command. *)
Theorem applyProfile_variants_agree (p : Profile) (scope : string) (w : World) :
  scope = "local" ∨ scope = "global" →
  Earlier.applyProfile p scope w = applyProfile p scope w.
Proof.
  intros [-> | ->]; unfold Earlier.applyProfile, applyProfile.
  - change ("local" =? "local")%string with true.
    change ("local" =? "global")%string with false. reflexivity.
  - change ("global" =? "local")%string with false.
    change ("global" =? "global")%string with true. reflexivity.
Qed.

Lemma applyProfile_variants_agree_witness :
  Earlier.applyProfile work "local" (quiet_world [Some ""; Some ""; None] "") =
  applyProfile work "local" (quiet_world [Some ""; Some ""; None] "").
Proof.
  exact (applyProfile_variants_agree work "local" (quiet_world [Some ""; Some ""; None] "")
           (or_introl eq_refl)).
Defined.

(** They differ on any other scope: the current one treats it as local. *)
Example applyProfile_variants_differ :
  execs (applyProfile work "repo" (quiet_world [Some ""; Some ""; Some ""] "")).2 =
    [["git"; "config"; "user.name"; "Wanda Work"];
     ["git"; "config"; "user.email"; "wanda@example.com"];
     ["git"; "config"; "--unset"; "core.sshCommand"]] ∧
  execs (Earlier.applyProfile work "repo" (quiet_world [Some ""; Some ""; Some ""] "")).2 =
    [["git"; "config"; "user.name"; "Wanda Work"];
     ["git"; "config"; "user.email"; "wanda@example.com"]].
Proof. vm_compute. split; reflexivity. Qed.

(* ===================================================================== *)
(** ** The other commands of the table *)

Definition not_found (id : string) : error := Errorf "profile %q not found" [id] None.

(** The scope the flag [--global] selects. *)
Definition chosen_scope (fs : list (string * flag_value)) : string :=
  if flag_bool fs "global" then "global" else "local".

(** [use]: without a positional argument it fails with its usage line; with
    the config loaded it fails on an id that is not there and otherwise
    applies the profile of that id at the scope chosen by [--global],
    reporting it when that succeeded. *)
Theorem cmdUse_contract (args : list string) (w : World)
    (fs : list (string * flag_value)) (rest : list string) :
  parse_flags global_flag args = inl (fs, rest) →
  match rest with
  | [] =>
    cmdUse args w =
      (Val (Some (Errorf "usage: git-profile use [--global] <profile-id>" [] None)), w)
  | id :: _ =>
    ∀ cfg path w1, loadConfig w = (Val (inl (cfg, path)), w1) →
      match entries cfg !! id with
      | None => cmdUse args w = (Val (Some (not_found id)), w1)
      | Some p =>
        cmdUse args w =
          match applyProfile p (chosen_scope fs) w1 with
          | (Val None, w2) =>
            (Val None,
             print_out [OutPrintf "Applied profile %q to %s git config\n"
                          [AStr id; AStr (chosen_scope fs)]] w2)
          | other => other
          end
      end
  end.
Proof.
  intros Hparse. unfold cmdUse.
  rewrite run_bind, (flag_Parse_ok _ _ _ _ _ Hparse). cbv beta iota.
  destruct rest as [|id rest]; [reflexivity|].
  intros cfg path w1 Hload. rewrite run_bind, Hload. cbv beta iota.
  destruct (entries cfg !! id) as [p|]; [|reflexivity].
  cbv zeta. fold (chosen_scope fs). rewrite run_bind.
  by destruct (applyProfile p (chosen_scope fs) w1) as [[[e|]|c] w2].
Qed.

(** The scenario of the spec: with profiles alice (no key) and bob (with a
    key), [use bob] at local scope sets name, email and SSH command. *)
Definition alice : Profile := mkProfile "alice" "Alice A" "a@x.com" "".
Definition bob : Profile := mkProfile "bob" "Bob B" "b@x.com" "/home/bob/.ssh/id_bob".
Definition alice_and_bob : Config :=
  mkConfig (Some (<["alice" := alice]> (<["bob" := bob]> ∅))).

Lemma cmdUse_contract_witness :
  let w := with_config alice_and_bob (quiet_world [Some ""; Some ""; Some ""] "") in
  cmdUse ["bob"] w =
    match applyProfile bob "local" (loadConfig w).2 with
    | (Val None, w2) =>
      (Val None,
       print_out [OutPrintf "Applied profile %q to %s git config\n" [AStr "bob"; AStr "local"]] w2)
    | other => other
    end.
Proof.
  intros w.
  assert (parse_flags global_flag ["bob"] = inl (global_flag, ["bob"])) as Hparse
    by (vm_compute; reflexivity).
  assert (loadConfig w = (Val (inl (alice_and_bob, config_path "/home/u/.config")),
                          (loadConfig w).2)) as Hload by (vm_compute; reflexivity).
  pose proof (cmdUse_contract ["bob"] w global_flag ["bob"] Hparse _ _ _ Hload) as H.
  assert (entries alice_and_bob !! "bob" = Some bob) as E by (vm_compute; reflexivity).
  rewrite E in H. exact H.
Defined.

Example use_bob_scenario :
  let w := with_config alice_and_bob (quiet_world [Some ""; Some ""; Some ""] "") in
  exit_code (main ["git-profile"; "use"; "bob"] w).1 = 0 ∧
  execs (main ["git-profile"; "use"; "bob"] w).2 =
    [["git"; "config"; "user.name"; "Bob B"];
     ["git"; "config"; "user.email"; "b@x.com"];
     ["git"; "config"; "core.sshCommand"; "ssh -i /home/bob/.ssh/id_bob -F /dev/null"]].
Proof. vm_compute. split; reflexivity. Qed.

(** The call that stores a default profile. *)
Definition default_call (fs : list (string * flag_value)) (id : string) : list string :=
  git_set (chosen_scope fs) "gitprofile.default" id.

(** [set-default]: without a positional argument it fails with its usage
    line; with the config loaded it fails on an id that is not there and
    otherwise stores the id under [gitprofile.default] at the scope chosen
    by [--global]. *)
Theorem cmdSetDefault_contract (args : list string) (w : World)
    (fs : list (string * flag_value)) (rest : list string) :
  parse_flags global_flag args = inl (fs, rest) →
  match rest with
  | [] =>
    cmdSetDefault args w =
      (Val (Some (Errorf "usage: git-profile set-default [--global] <profile-id>" [] None)), w)
  | id :: _ =>
    ∀ cfg path w1, loadConfig w = (Val (inl (cfg, path)), w1) →
      match entries cfg !! id with
      | None => cmdSetDefault args w = (Val (Some (not_found id)), w1)
      | Some _ =>
        cmdSetDefault args w =
          if succeeded (reply_at 0 w) then
            (Val None,
             print_out [OutPrintf "Set %q as %s default profile\n"
                          [AStr id; AStr (chosen_scope fs)]]
               (after_execs [default_call fs id] w1))
          else (Val (Some (ExecError (default_call fs id))), after_execs [default_call fs id] w1)
      end
  end.
Proof.
  intros Hparse. unfold cmdSetDefault.
  rewrite run_bind, (flag_Parse_ok _ _ _ _ _ Hparse). cbv beta iota.
  destruct rest as [|id rest]; [reflexivity|].
  intros cfg path w1 Hload. rewrite run_bind, Hload. cbv beta iota.
  destruct (loadConfig_frames _ _ _ Hload) as (_ & Hr & _).
  destruct (entries cfg !! id) as [p|]; [|reflexivity].
  cbv zeta. fold (chosen_scope fs). run_step. rewrite (reply_at_same 0 _ _ Hr).
  fold (default_call fs id).
  destruct (reply_at 0 w); cbn [succeeded]; [|reflexivity].
  run_step. reflexivity.
Qed.

Lemma cmdSetDefault_contract_witness :
  let w := with_config alice_and_bob (quiet_world [Some ""] "") in
  cmdSetDefault ["--global"; "alice"] w =
    (Val None,
     print_out [OutPrintf "Set %q as %s default profile\n" [AStr "alice"; AStr "global"]]
       (after_execs [["git"; "config"; "--global"; "gitprofile.default"; "alice"]]
          (loadConfig w).2)).
Proof.
  intros w.
  assert (parse_flags global_flag ["--global"; "alice"] = inl ([("global", FBool true)], ["alice"]))
    as Hparse by (vm_compute; reflexivity).
  assert (loadConfig w = (Val (inl (alice_and_bob, config_path "/home/u/.config")),
                          (loadConfig w).2)) as Hload by (vm_compute; reflexivity).
  pose proof (cmdSetDefault_contract _ w _ _ Hparse _ _ _ Hload) as H. cbv zeta in H.
  assert (entries alice_and_bob !! "alice" = Some alice) as E by (vm_compute; reflexivity).
  rewrite E in H. exact H.
Defined.

(** The lines [list] prints for the profiles. *)
Definition list_line (cfg : Config) (id : string) : output :=
  let p := profile_at cfg id in
  OutPrintf "  - %s: %s <%s>, ssh=%s\n"
    [AStr id; AStr (GitUser p); AStr (GitEmail p);
     AStr (if String.eqb (SSHKeyPath p) "" then "(default SSH)" else SSHKeyPath p)].

Lemma list_lines_run cfg ids w :
  for_each ids
    (λ id,
       let p := profile_at cfg id in
       let ssh := SSHKeyPath p in
       let ssh := if String.eqb ssh "" then "(default SSH)" else ssh in
       to_stdout (OutPrintf "  - %s: %s <%s>, ssh=%s\n"
                    [AStr id; AStr (GitUser p); AStr (GitEmail p); AStr ssh])) w
  = (Val tt, print_out (list_line cfg <$> ids) w).
Proof.
  revert w. induction ids as [|id ids IH]; intros w; cbn [for_each fmap list_fmap].
  - by rewrite run_ret, print_out_nil.
  - rewrite run_bind, to_stdout_run, IH, print_out_app. reflexivity.
Qed.

(** [list] never fails once the config is loaded: on an empty config it
    prints a note, otherwise a heading and one line per profile, the ids in
    ascending order, each id of the config exactly once. *)
Theorem cmdList_contract (args : list string) (w w1 : World) (cfg : Config) (path : string) :
  loadConfig w = (Val (inl (cfg, path)), w1) →
  cmdList args w =
    (Val None,
     print_out (if (size (entries cfg) =? 0)%nat
                then [OutPrintln "No profiles configured yet."]
                else OutPrintln "Configured profiles:" :: (list_line cfg <$> sorted_ids cfg))
       w1) ∧
  StronglySorted string_le (sorted_ids cfg) ∧
  NoDup (sorted_ids cfg) ∧
  ∀ id, id ∈ sorted_ids cfg ↔ is_Some (entries cfg !! id).
Proof.
  intros Hload. split; [|split; [|split]].
  - unfold cmdList. rewrite run_bind, Hload. cbv beta iota.
    destruct (size (entries cfg) =? 0)%nat.
    + by rewrite run_bind, to_stdout_run.
    + rewrite run_bind, to_stdout_run. rewrite run_bind, list_lines_run.
      by rewrite print_out_app.
  - apply sort_strings_sorted.
  - rewrite sorted_ids_perm. apply NoDup_fst_map_to_list.
  - intros id. rewrite sorted_ids_perm, list_elem_of_fmap. split.
    + intros ([k p] & -> & Hkp). apply elem_of_map_to_list in Hkp. by eauto.
    + intros [p Hp]. exists (id, p). split; [done|]. by apply elem_of_map_to_list.
Qed.

Lemma cmdList_contract_witness :
  let w := with_config alice_and_bob (quiet_world [] "") in
  cmdList [] w =
    (Val None,
     print_out (OutPrintln "Configured profiles:"
                :: (list_line alice_and_bob <$> sorted_ids alice_and_bob))
       (loadConfig w).2).
Proof.
  intros w.
  assert (loadConfig w = (Val (inl (alice_and_bob, config_path "/home/u/.config")),
                          (loadConfig w).2)) as Hload by (vm_compute; reflexivity).
  exact (proj1 (cmdList_contract [] w _ _ _ Hload)).
Defined.

(** The file operations of [install-hooks] when none fails. *)
Lemma os_MkdirAll_quiet path w :
  faults w = [] →
  os_MkdirAll path w = (Val None, set_trace (trace w ++ [EvMkdirAll path]) w).
Proof.
  destruct w as [ucd fl fts rs sin sout serr tr]. cbn. intros ->. reflexivity.
Qed.

Lemma os_WriteFile_quiet path bytes w :
  faults w = [] →
  os_WriteFile path bytes w =
    (Val None,
     set_files (<[path := OtherText bytes]> (files w))
       (set_trace (trace w ++ [EvWriteFile path]) w)).
Proof.
  destruct w as [ucd fl fts rs sin sout serr tr]. cbn. intros ->.
  unfold os_WriteFile. unfold_prims. cbn. by rewrite insert_insert_eq.
Qed.

Definition installed_report (hooksDir : string) : list output :=
  [OutPrintf "Installed git-profile hooks in %s\n" [AStr hooksDir];
   OutPrintln "From now on, normal `git commit` and `git push` will apply/ask for a profile."].

(** [install-hooks]: it asks git for the git directory and fails, wrapping
    the error, when git does; otherwise, when no file operation fails, it
    writes the hook script to [prepare-commit-msg] and [pre-push] in the
    hooks directory, changes no other file, and reports it. *)
Theorem cmdInstallHooks_contract (args : list string) (w : World) :
  faults w = [] →
  match reply_at 0 w with
  | None =>
    cmdInstallHooks args w =
      (Val (Some (Errorf "not a git repo? %w" []
                    (Some (ExecError ["git"; "rev-parse"; "--git-dir"])))),
       after_execs [["git"; "rev-parse"; "--git-dir"]] w)
  | Some out =>
    let hooksDir := Join (TrimSpace out) "hooks" in
    ∃ w', cmdInstallHooks args w = (Val None, w') ∧
          files w' =
            <[Join hooksDir "pre-push" := OtherText hookContent]>
              (<[Join hooksDir "prepare-commit-msg" := OtherText hookContent]> (files w)) ∧
          stdout w' = (stdout w ++ installed_report hooksDir)%list ∧
          execs w' = (execs w ++ [["git"; "rev-parse"; "--git-dir"]])%list
  end.
Proof.
  intros Hquiet. unfold cmdInstallHooks, gitDir, installed_report.
  rewrite run_bind, run_bind, cmd_Output_run.
  destruct (reply_at 0 w) as [out|]; [|reflexivity]. cbv beta iota. rewrite run_ret.
  cbv beta iota zeta. cbn [write_hooks].
  generalize hookContent. intros content.
  generalize (Join (TrimSpace out) "hooks"). intros hooksDir.
  rewrite run_bind, os_MkdirAll_quiet by exact Hquiet. cbv beta iota.
  rewrite run_bind, run_bind, os_WriteFile_quiet by exact Hquiet. cbv beta iota.
  rewrite run_bind, os_WriteFile_quiet by exact Hquiet. cbv beta iota.
  rewrite run_ret. cbv beta iota.
  rewrite run_bind, to_stdout_run. rewrite run_bind, to_stdout_run, run_ret.
  rewrite print_out_app.
  eexists. split; [reflexivity|]. split; [reflexivity|]. split; [reflexivity|].
  destruct w as [ucd fl fts rs sin sout serr tr]. trace_simpl. reflexivity.
Qed.

Lemma cmdInstallHooks_contract_witness :
  let hooks := Join (TrimSpace ".git") "hooks" in
  ∃ w', cmdInstallHooks [] (quiet_world [Some ".git"] "") = (Val None, w') ∧
        files w' =
          <[Join hooks "pre-push" := OtherText hookContent]>
            (<[Join hooks "prepare-commit-msg" := OtherText hookContent]> ∅) ∧
        stdout w' = installed_report hooks ∧
        execs w' = [["git"; "rev-parse"; "--git-dir"]].
Proof.
  exact (cmdInstallHooks_contract [] (quiet_world [Some ".git"] "") eq_refl).
Defined.

(* ===================================================================== *)
(** ** The earlier variant of the selector *)

(** The earlier [choose] applies the k-th identifier in the order its
    [range] over the map met them, which need not be the sorted order: with
    the profiles [home] and [work] met as work, home, the choice 1 applies
    [work], where the current [choose] applies [home]. *)
Example earlier_cmdChoose_not_sorted :
  let w := with_config two_profiles (quiet_world [Some ""; Some ""; Some ""] "1") in
  execs (Earlier.cmdChoose (λ _, ["work"; "home"]) [] w).2 =
    [["git"; "config"; "user.name"; "Wanda Work"];
     ["git"; "config"; "user.email"; "wanda@example.com"];
     ["git"; "config"; "--unset"; "core.sshCommand"]] ∧
  execs (cmdChoose [] w).2 =
    [["git"; "config"; "user.name"; "Wanda"];
     ["git"; "config"; "user.email"; "wanda@home.example"];
     ["git"; "config"; "core.sshCommand"; "ssh -i /home/u/.ssh/id_home -F /dev/null"]].
Proof. vm_compute. split; reflexivity. Qed.

(* ===================================================================== *)
(** ** The config store at its edges *)

(** What a load makes of the states the config store can be in.  It never
    changes a file.  Without a config directory of the user it fails and has
    touched nothing.  Otherwise it first creates the directory of the
    config file, and fails, without opening the file, when that fails; it
    fails when the file cannot be opened for another reason than its
    absence; without failures, an absent file gives the empty mapping, a
    file that holds no JSON document or one that does not decode gives the
    decode error, and any other file its profiles. *)
Theorem loadConfig_edge_cases (w : World) :
  files (loadConfig w).2 = files w ∧
  (user_config_dir w = None →
     loadConfig w = (Val (inr (SysError "UserConfigDir" "")), w)) ∧
  (∀ d, user_config_dir w = Some d →
     ∃ t, trace (loadConfig w).2 = (trace w ++ EvMkdirAll (Join d "gitprofile") :: t)%list) ∧
  (∀ d rest, user_config_dir w = Some d → faults w = true :: rest →
     (loadConfig w).1 = Val (inr (SysError "mkdir" (Join d "gitprofile"))) ∧
     opens (loadConfig w).2 = opens w) ∧
  (∀ d rest, user_config_dir w = Some d → faults w = false :: true :: rest →
     (loadConfig w).1 = Val (inr (SysError "open" (config_path d)))) ∧
  (∀ d, user_config_dir w = Some d → faults w = [] →
     (loadConfig w).1 =
       Val (match files w !! config_path d with
            | None => inl (mkConfig (Some ∅), config_path d)
            | Some (OtherText _) => inr DecodeError
            | Some (JsonText doc) =>
              match unmarshal_Config doc (mkConfig (Some ∅)) with
              | Some cfg => inl (mkConfig (Some (entries cfg)), config_path d)
              | None => inr DecodeError
              end
            end)).
Proof.
  split; [apply (loadConfig_keeps_files w)|].
  split; [|split; [|split; [|split]]].
  - unfold loadConfig, defaultConfigPath. unfold_prims.
    destruct w as [ucd fl fts rs sin sout serr tr]; cbn. by intros ->.
  - intros d Hd. unfold loadConfig, defaultConfigPath. unfold_prims.
    destruct w as [ucd fl fts rs sin sout serr tr]; cbn in *. subst.
    fault_shapes fts; cbn; repeat case_match; cbn; rewrite <- ?app_assoc; eauto.
  - intros d rest Hd Hf. unfold loadConfig, defaultConfigPath. unfold_prims.
    destruct w as [ucd fl fts rs sin sout serr tr]; cbn in *. subst. cbn.
    split; [done|]. trace_simpl. done.
  - intros d rest Hd Hf. unfold loadConfig, defaultConfigPath. unfold_prims.
    destruct w as [ucd fl fts rs sin sout serr tr]; cbn in *. subst. cbn. done.
  - intros d Hd Hf. rewrite (loadConfig_quiet w d Hd Hf). cbn [fst]. f_equal.
    unfold read_config. destruct (files w !! config_path d) as [[doc|bytes]|]; cbn; [|done..].
    destruct (unmarshal_Config doc _); done.
Qed.

Lemma loadConfig_edge_cases_witness :
  (loadConfig (quiet_world [] "")).1 =
    Val (inl (mkConfig (Some ∅), config_path "/home/u/.config")).
Proof.
  exact (proj2 (proj2 (proj2 (proj2 (proj2 (loadConfig_edge_cases (quiet_world [] ""))))))
           "/home/u/.config" eq_refl eq_refl).
Defined.


(** A save touches two paths only, and a save that succeeds leaves no
    temporary file behind. *)
Theorem saveConfig_footprint (cfg : Config) (path : string) (w : World) :
  let w' := (saveConfig cfg path w).2 in
  (∀ p, p ≠ path → p ≠ path +:+ ".tmp" → files w' !! p = files w !! p) ∧
  ((saveConfig cfg path w).1 = Val None → files w' !! (path +:+ ".tmp") = None) ∧
  stdout w' = stdout w ∧ stderr w' = stderr w ∧ stdin w' = stdin w ∧
  execs w' = execs w ∧ opens w' = opens w.
Proof.
  cbv zeta. pose proof (tmp_path_differs path) as Hne.
  unfold saveConfig. unfold_prims.
  destruct w as [ucd fl fts rs sin sout serr tr].
  fault_shapes fts; cbn; rewrite ?lookup_insert_eq; cbn.
  all: repeat split; try done.
  all: try (intros p Hp Htmp).
  all: rewrite ?lookup_insert_ne, ?lookup_delete_ne, ?lookup_insert_ne by done; try done.
  all: try (intros _; by rewrite lookup_delete_eq).
  all: trace_simpl; done.
Qed.

Lemma saveConfig_footprint_witness :
  let w := with_config two_profiles (quiet_world [] "") in
  let path := config_path "/home/u/.config" in
  files (saveConfig odd_profile path w).2 !! (path +:+ ".tmp") = None.
Proof.
  intros w path.
  exact (proj1 (proj2 (saveConfig_footprint odd_profile path w)) eq_refl).
Defined.

(** *** Members that no field takes

    The part of a document that decoding into a [Config] looks at: the
    members [profiles] of the document, the objects in them, and of these
    the members that a field of [Profile] takes. *)

Definition profile_field (k : string) : bool :=
  (field_match "id" k || field_match "git_user" k || field_match "git_email" k
   || field_match "ssh_key_path" k)%bool.

Definition known_Profile (j : json) : json :=
  match j with
  | JObject members => JObject (List.filter (λ kv, profile_field kv.1) members)
  | _ => j
  end.

Definition known_map (j : json) : json :=
  match j with
  | JObject members => JObject (List.map (λ kv, (kv.1, known_Profile kv.2)) members)
  | _ => j
  end.

Definition known_only (j : json) : json :=
  match j with
  | JObject members =>
    JObject (List.map (λ kv, (kv.1, known_map kv.2))
               (List.filter (λ kv, field_match "profiles" kv.1) members))
  | _ => j
  end.

Lemma fold_members_filter {A B : Type} (f : A → B → option A) (P : B → bool) l a :
  (∀ a b, P b = false → f a b = Some a) →
  fold_members f (List.filter P l) a = fold_members f l a.
Proof.
  intros Hskip. revert a. induction l as [|b l IH]; intros a; [done|].
  cbn [List.filter fold_members]. destruct (P b) eqn:Hb.
  - cbn [fold_members]. destruct (f a b); [apply IH|done].
  - rewrite (Hskip a b Hb). apply IH.
Qed.

Lemma fold_members_map {A B : Type} (f : A → B → option A) (g : B → B) l a :
  (∀ a b, f a (g b) = f a b) →
  fold_members f (List.map g l) a = fold_members f l a.
Proof.
  intros Hsame. revert a. induction l as [|b l IH]; intros a; [done|].
  cbn [List.map fold_members]. rewrite Hsame. destruct (f a b); [apply IH|done].
Qed.

Lemma unmarshal_known_Profile j p : unmarshal_Profile (known_Profile j) p = unmarshal_Profile j p.
Proof.
  destruct j as [| | | |items|members]; try done. cbn [known_Profile unmarshal_Profile].
  apply fold_members_filter. intros q [k v]. unfold profile_field, unmarshal_Profile_member.
  cbn [fst]. rewrite !orb_false_iff. by intros [[[-> ->] ->] ->].
Qed.

Lemma unmarshal_known_map j m : unmarshal_map (known_map j) m = unmarshal_map j m.
Proof.
  destruct j as [| | | |items|members]; try done. cbn [known_map unmarshal_map]. f_equal.
  apply fold_members_map. intros m' [k v]. unfold unmarshal_map_member. cbn [fst snd].
  by rewrite unmarshal_known_Profile.
Qed.

Lemma unmarshal_known_only doc cfg : unmarshal_Config (known_only doc) cfg = unmarshal_Config doc cfg.
Proof.
  destruct doc as [| | | |items|members]; try done. cbn [known_only unmarshal_Config].
  rewrite fold_members_map.
  - apply fold_members_filter. intros c [k v] Hk. unfold unmarshal_Config_member.
    cbn [fst] in *. by rewrite Hk.
  - intros c [k v]. unfold unmarshal_Config_member. cbn [fst snd].
    by rewrite unmarshal_known_map.
Qed.

(** A config file may hold members that no field takes, at any level:
    [loadConfig] passes them over, whatever their values.  Loading the file
    gives what loading its known part gives. *)
Theorem loadConfig_ignores_unknown_members (w : World) (d : string) (doc : json) :
  user_config_dir w = Some d →
  files w !! config_path d = Some (JsonText doc) →
  (loadConfig (set_files (<[config_path d := JsonText (known_only doc)]> (files w)) w)).1 =
  (loadConfig w).1.
Proof.
  intros Hd Hdoc. unfold loadConfig, defaultConfigPath. unfold_prims.
  destruct w as [ucd fl fts rs sin sout serr tr]; cbn in *. subst ucd.
  fault_shapes fts; cbn; try done.
  all: fold (config_path d); rewrite lookup_insert_eq, Hdoc; cbn.
  all: rewrite unmarshal_known_only.
  all: by destruct (unmarshal_Config doc _).
Qed.

(** A config file written by a later version, with members this program
    does not know. *)
Definition later_document : json :=
  JObject [("version", JNumber "2");
           ("profiles",
            JObject [("work",
                      JObject [("id", JString "work"); ("git_user", JString "Wanda Work");
                               ("signing_key", JArray [JString "ABCD"]);
                               ("git_email", JString "wanda@example.com")])])].

Lemma loadConfig_ignores_unknown_members_witness :
  let w := set_files (<[config_path "/home/u/.config" := JsonText later_document]> ∅)
             (quiet_world [] "") in
  (loadConfig (set_files (<[config_path "/home/u/.config" :=
                              JsonText (known_only later_document)]> (files w)) w)).1 =
  (loadConfig w).1.
Proof.
  intros w.
  exact (loadConfig_ignores_unknown_members w "/home/u/.config" later_document eq_refl eq_refl).
Defined.

Example loadConfig_later_document :
  let w := set_files (<[config_path "/home/u/.config" := JsonText later_document]> ∅)
             (quiet_world [] "") in
  (loadConfig w).1 =
    Val (inl (mkConfig (Some (<["work" := work]> ∅)), config_path "/home/u/.config")).
Proof. vm_compute. reflexivity. Qed.

Lemma entries_mkConfig m : entries (mkConfig (Some m)) = m.
Proof. reflexivity. Qed.

(** *** What a round trip makes of strings that are not valid UTF-8 *)

(** A profile as it comes back from the file: every field made valid. *)
Definition coerce_Profile (p : Profile) : Profile :=
  mkProfile (toValidUTF8 (ID p)) (toValidUTF8 (GitUser p)) (toValidUTF8 (GitEmail p))
    (toValidUTF8 (SSHKeyPath p)).

Definition coerce_entry (kv : string * Profile) : string * Profile :=
  (toValidUTF8 kv.1, coerce_Profile kv.2).

Lemma unmarshal_marshal_Profile_any p :
  unmarshal_Profile (marshal_Profile p) zeroProfile = Some (coerce_Profile p).
Proof.
  destruct p as [i u e k]. unfold marshal_Profile, coerce_Profile; cbn [ID GitUser GitEmail SSHKeyPath].
  by destruct (String.eqb_spec k "") as [->|Hk].
Qed.

Lemma unmarshal_marshal_members_any l m0 :
  fold_members unmarshal_map_member (marshal_member <$> l) m0
  = Some (assign_all m0 (coerce_entry <$> l)).
Proof.
  revert m0. induction l as [|[k p] l IH]; intros m0; [done|].
  cbn [fmap list_fmap fold_members]. unfold unmarshal_map_member at 1.
  cbn [marshal_member fst snd]. rewrite unmarshal_marshal_Profile_any; cbn.
  apply IH.
Qed.

(** The ids of the config stay apart when they are made valid UTF-8. *)
Definition ids_stay_apart (cfg : Config) : Prop :=
  NoDup (toValidUTF8 <$> (map_to_list (entries cfg)).*1).

Lemma unmarshal_marshal_map_any m :
  NoDup (toValidUTF8 <$> (map_to_list m).*1) →
  unmarshal_map (marshal_map m) (Some ∅)
  = Some (Some (list_to_map (coerce_entry <$> map_to_list m))).
Proof.
  intros Hapart. unfold unmarshal_map, marshal_map.
  pose proof (merge_sort_Permutation key_le (map_to_list m)) as Hperm.
  assert ((coerce_entry <$> merge_sort key_le (map_to_list m)).*1
          ≡ₚ toValidUTF8 <$> (map_to_list m).*1) as Hkeys.
  { rewrite Hperm, <- !list_fmap_compose. done. }
  rewrite unmarshal_marshal_members_any; cbn.
  rewrite assign_all_list_to_map by (by rewrite Hkeys).
  rewrite (right_id_L ∅ (∪)). do 2 f_equal.
  apply list_to_map_proper; [by rewrite Hkeys|by rewrite Hperm].
Qed.

Lemma read_config_marshal_any cfg :
  ids_stay_apart cfg →
  read_config (Some (JsonText (marshal_Config cfg)))
  = Some (mkConfig (Some (list_to_map (coerce_entry <$> map_to_list (entries cfg))))).
Proof.
  intros Hapart. unfold read_config, json_Decode.
  destruct cfg as [[m|]].
  - unfold ids_stay_apart in Hapart. rewrite entries_mkConfig in *.
    unfold marshal_Config, unmarshal_Config; cbn [Profiles fold_members].
    unfold unmarshal_Config_member at 1; cbn [fst snd Profiles].
    change (field_match "profiles" "profiles") with true. cbv iota.
    by rewrite (unmarshal_marshal_map_any m Hapart).
  - cbn. unfold normalize, entries. cbn. by rewrite map_to_list_empty.
Qed.


(** The round trip in general.  Saving any config whose ids stay apart and
    loading it again gives the same number of profiles, each under its id
    made valid UTF-8 and with every field made valid UTF-8: invalid bytes
    come back as U+FFFD, and nothing else changes. *)
Theorem saveConfig_loadConfig_coerces (cfg : Config) (w : World) (d : string) :
  ids_stay_apart cfg →
  user_config_dir w = Some d →
  faults w = [] →
  ∃ w1 w2 cfg',
    saveConfig cfg (config_path d) w = (Val None, w1) ∧
    loadConfig w1 = (Val (inl (cfg', config_path d)), w2) ∧
    size (entries cfg') = size (entries cfg) ∧
    ∀ id p, entries cfg !! id = Some p →
      entries cfg' !! toValidUTF8 id = Some (coerce_Profile p).
Proof.
  intros Hapart Hdir Hquiet.
  destruct (saveConfig_quiet cfg (config_path d) w Hquiet) as (w1 & Hsave & Hquiet1).
  pose proof (saveConfig_inv _ _ _ _ Hsave) as [Hfile Hdir1].
  rewrite Hdir in Hdir1.
  pose proof (loadConfig_quiet w1 d Hdir1 Hquiet1) as Hload.
  rewrite Hfile, (read_config_marshal_any cfg Hapart) in Hload.
  eexists w1, _, _. split; [exact Hsave|]. split; [exact Hload|].
  rewrite entries_mkConfig.
  assert (NoDup (coerce_entry <$> map_to_list (entries cfg)).*1) as Hnd.
  { unfold ids_stay_apart in Hapart. rewrite <- list_fmap_compose in Hapart.
    rewrite <- list_fmap_compose. exact Hapart. }
  split.
  - by rewrite map_size_list_to_map, length_fmap, length_map_to_list.
  - intros id p Hp. apply elem_of_list_to_map_1; [done|].
    apply list_elem_of_fmap. exists (id, p). split; [done|].
    by apply elem_of_map_to_list.
Qed.

Lemma saveConfig_loadConfig_coerces_witness :
  ∃ w1 w2 cfg',
    saveConfig odd_profile (config_path "/home/u/.config") (quiet_world [] "") = (Val None, w1) ∧
    loadConfig w1 = (Val (inl (cfg', config_path "/home/u/.config")), w2) ∧
    size (entries cfg') = size (entries odd_profile) ∧
    ∀ id p, entries odd_profile !! id = Some p →
      entries cfg' !! toValidUTF8 id = Some (coerce_Profile p).
Proof.
  assert (ids_stay_apart odd_profile) as Hapart.
  { unfold ids_stay_apart.
    assert (toValidUTF8 <$> (map_to_list (entries odd_profile)).*1 = ["odd"]) as ->
      by (vm_compute; reflexivity).
    apply NoDup_singleton. }
  exact (saveConfig_loadConfig_coerces odd_profile (quiet_world [] "") "/home/u/.config"
           Hapart eq_refl eq_refl).
Defined.

(** Two ids that differ only in invalid bytes do not stay apart: the
    config below has two profiles, and one comes back. *)
Definition clashing_ids : Config :=
  mkConfig (Some (<[String (ascii_of_N 0xFF) "" := mkProfile "a" "A" "a@x" ""]>
                    (<[String (ascii_of_N 0xFE) "" := mkProfile "b" "B" "b@x" ""]> ∅))).

Example saveConfig_loadConfig_clash :
  let w1 := (saveConfig clashing_ids (config_path "/home/u/.config") (quiet_world [] "")).2 in
  size (entries clashing_ids) = 2%nat ∧
  ∃ cfg', (loadConfig w1).1 = Val (inl (cfg', config_path "/home/u/.config")) ∧
          size (entries cfg') = 1%nat.
Proof.
  split; [vm_compute; reflexivity|].
  eexists. split; [vm_compute; reflexivity|]. vm_compute. reflexivity.
Qed.

(* ===================================================================== *)
(** ** When the config cannot be loaded *)

(** Does the command work on the stored profiles, given its arguments?
    [add] does once id, name and email are given, [use] and [set-default]
    once an id is, [list], [choose] and [ensure] always. *)
Definition needs_config (c : command) (args : list string) : Prop :=
  match c with
  | Add =>
    ∃ fs rest, parse_flags add_flags args = inl (fs, rest) ∧
      flag_string fs "id" ≠ "" ∧ flag_string fs "name" ≠ "" ∧ flag_string fs "email" ≠ ""
  | Use | SetDefault =>
    ∃ fs id rest, parse_flags global_flag args = inl (fs, id :: rest)
  | List | Choose | Ensure => True
  | Current | InstallHooks => False
  end.

(** When the config cannot be loaded, every command that works on the
    stored profiles returns the error of the load as it is, and has done
    nothing but the load: no process was started, nothing was printed or
    read, no file was changed. *)
Theorem load_error_propagates (c : command) (args : list string) (w w1 : World) (e : error) :
  needs_config c args →
  loadConfig w = (Val (inr e), w1) →
  handler c args w = (Val (Some e), w1) ∧
  execs w1 = execs w ∧ stdout w1 = stdout w ∧ stdin w1 = stdin w ∧ files w1 = files w.
Proof.
  intros Hneeds Hload.
  destruct (loadConfig_frames _ _ _ Hload) as (Hf & _ & Hin & Hout & _ & Hex & _).
  split; [|done].
  destruct c; cbn [handler needs_config] in *; try done.
  - destruct Hneeds as (fs & rest & Hparse & Hid & Hname & Hemail).
    rewrite (cmdAdd_run args w fs rest Hparse), Hload.
    assert ((String.eqb (flag_string fs "id") "" || String.eqb (flag_string fs "name") ""
             || String.eqb (flag_string fs "email") "")%bool = false) as ->; [|done].
    rewrite !orb_false_iff, !String.eqb_neq. tauto.
  - unfold cmdList. by rewrite run_bind, Hload.
  - destruct Hneeds as (fs & id & rest & Hparse). unfold cmdUse.
    rewrite run_bind, (flag_Parse_ok _ _ _ _ _ Hparse). cbv beta iota.
    by rewrite run_bind, Hload.
  - unfold cmdChoose. by rewrite run_bind, Hload.
  - destruct Hneeds as (fs & id & rest & Hparse). unfold cmdSetDefault.
    rewrite run_bind, (flag_Parse_ok _ _ _ _ _ Hparse). cbv beta iota.
    by rewrite run_bind, Hload.
  - unfold cmdEnsure. by rewrite run_bind, Hload.
Qed.

(** A config file that holds no JSON document. *)
Definition broken_world : World :=
  set_files (<[config_path "/home/u/.config" := OtherText "{oops"]> ∅) (quiet_world [] "").

Lemma load_error_propagates_witness :
  handler Ensure [] broken_world = (Val (Some DecodeError), (loadConfig broken_world).2).
Proof.
  assert (loadConfig broken_world = (Val (inr DecodeError), (loadConfig broken_world).2))
    as Hload by (vm_compute; reflexivity).
  exact (proj1 (load_error_propagates Ensure [] broken_world _ DecodeError I Hload)).
Defined.

(* ===================================================================== *)
(** ** Arguments after the flags, and [add] followed by other commands *)

(** Package flag stops at the first argument that is not a flag. *)
Lemma parse_flags_stops formal id rest :
  flag_name id = None → parse_flags formal (id :: rest) = inl (formal, id :: rest).
Proof. intros H. cbn [parse_flags]. by rewrite H. Qed.

(** [use] and [set-default] take their flags before the id only: what
    follows an id that is no flag is not parsed, so that a [--global] after
    the id is not seen and the command works at local scope. *)
Theorem flags_after_id_are_ignored (id : string) (rest : list string) (w : World) :
  flag_name id = None →
  cmdUse (id :: rest) w = cmdUse [id] w ∧
  cmdSetDefault (id :: rest) w = cmdSetDefault [id] w.
Proof.
  intros Hid. unfold cmdUse, cmdSetDefault.
  rewrite !run_bind.
  rewrite !(flag_Parse_ok _ _ _ _ _ (parse_flags_stops _ id _ Hid)).
  done.
Qed.

Lemma flags_after_id_are_ignored_witness :
  let w := with_config alice_and_bob (quiet_world [Some ""; Some ""; Some ""] "") in
  cmdUse ["bob"; "--global"] w = cmdUse ["bob"] w ∧
  cmdSetDefault ["bob"; "--global"] w = cmdSetDefault ["bob"] w.
Proof.
  intros w. exact (flags_after_id_are_ignored "bob" ["--global"] w eq_refl).
Defined.

(** So [use bob --global] writes the local configuration. *)
Example use_global_after_id :
  let w := with_config alice_and_bob (quiet_world [Some ""; Some ""; Some ""] "") in
  execs (main ["git-profile"; "use"; "bob"; "--global"] w).2 =
    [["git"; "config"; "user.name"; "Bob B"];
     ["git"; "config"; "user.email"; "b@x.com"];
     ["git"; "config"; "core.sshCommand"; "ssh -i /home/bob/.ssh/id_bob -F /dev/null"]] ∧
  execs (main ["git-profile"; "use"; "--global"; "bob"] w).2 =
    [["git"; "config"; "--global"; "user.name"; "Bob B"];
     ["git"; "config"; "--global"; "user.email"; "b@x.com"];
     ["git"; "config"; "--global"; "core.sshCommand";
      "ssh -i /home/bob/.ssh/id_bob -F /dev/null"]].
Proof. vm_compute. split; reflexivity. Qed.

(** The usual command line of [add]. *)
Definition add_args (i n e k : string) : list string :=
  ["--id"; i; "--name"; n; "--email"; e; "--ssh-key"; k].

Lemma parse_add_args i n e k :
  parse_flags add_flags (add_args i n e k) =
    inl ([("id", FString i); ("name", FString n); ("email", FString e);
          ("ssh-key", FString k)], []).
Proof. reflexivity. Qed.

(** An [add] that meets no failure, and the load that follows it. *)
Lemma cmdAdd_stores i n e k w w0 cfg path :
  let cfg' := mkConfig (Some (<[i := mkProfile i n e k]> (entries cfg))) in
  i ≠ "" → n ≠ "" → e ≠ "" →
  loadConfig w = (Val (inl (cfg, path)), w0) →
  faults w0 = [] →
  entries cfg !! i = None →
  valid_config cfg' = true →
  ∃ w1 w2,
    cmdAdd (add_args i n e k) w = (Val None, w1) ∧
    loadConfig w1 = (Val (inl (cfg', path)), w2) ∧
    files w2 = files w1.
Proof.
  intros cfg' Hi Hn He Hload Hquiet Hnew Hvalid.
  pose proof (cmdAdd_run _ w _ _ (parse_add_args i n e k)) as Hrun.
  cbv zeta in Hrun. cbn [flag_string flag_lookup String.eqb Ascii.eqb Bool.eqb] in Hrun.
  assert ((String.eqb i "" || String.eqb n "" || String.eqb e "")%bool = false) as Hall.
  { rewrite !orb_false_iff, !String.eqb_neq. tauto. }
  rewrite Hall, Hload, Hnew in Hrun. fold cfg' in Hrun.
  destruct (saveConfig_quiet cfg' path w0 Hquiet) as (w1 & Hsave & Hquiet1).
  rewrite Hsave in Hrun.
  apply saveConfig_inv in Hsave as Hinv. destruct Hinv as [Hfile Hdir].
  pose proof (loadConfig_keeps_dir w) as Hkeep. rewrite Hload in Hkeep.
  unfold keeps in Hkeep. cbn in Hkeep.
  apply loadConfig_inv in Hload as (d & Hd & -> & _).
  eexists _, _. split; [exact Hrun|].
  rewrite (loadConfig_quiet _ d).
  - cbn [files print_out set_stdout]. rewrite Hfile, (read_config_marshal cfg' Hvalid).
    split; reflexivity.
  - cbn. by rewrite Hdir, Hkeep.
  - done.
Qed.

(** [add] then [use]: a profile added with the usual command line, with
    values that are valid UTF-8 and an id that is no flag, is the one a
    following [use <id>] applies, at local scope. *)
Theorem cmdAdd_then_cmdUse (i n e k : string) (w w0 : World) (cfg : Config) (path : string) :
  let p := mkProfile i n e k in
  let cfg' := mkConfig (Some (<[i := p]> (entries cfg))) in
  i ≠ "" → n ≠ "" → e ≠ "" →
  flag_name i = None →
  loadConfig w = (Val (inl (cfg, path)), w0) →
  faults w0 = [] →
  entries cfg !! i = None →
  valid_config cfg' = true →
  ∃ w1 w2,
    cmdAdd (add_args i n e k) w = (Val None, w1) ∧
    loadConfig w1 = (Val (inl (cfg', path)), w2) ∧
    cmdUse [i] w1 =
      match applyProfile p "local" w2 with
      | (Val None, w3) =>
        (Val None,
         print_out [OutPrintf "Applied profile %q to %s git config\n" [AStr i; AStr "local"]] w3)
      | other => other
      end.
Proof.
  intros p cfg' Hi Hn He Hflag Hload Hquiet Hnew Hvalid.
  destruct (cmdAdd_stores i n e k w w0 cfg path Hi Hn He Hload Hquiet Hnew Hvalid)
    as (w1 & w2 & Hadd & Hload1 & _).
  exists w1, w2. split; [exact Hadd|]. split; [exact Hload1|].
  unfold cmdUse.
  rewrite run_bind, (flag_Parse_ok _ _ _ _ _ (parse_flags_stops _ i [] Hflag)). cbv beta iota.
  rewrite run_bind, Hload1. cbv beta iota.
  rewrite entries_mkConfig, lookup_insert_eq.
  cbn [flag_bool flag_lookup global_flag String.eqb Ascii.eqb Bool.eqb]. cbv zeta.
  rewrite run_bind. fold p.
  by destruct (applyProfile p "local" w2) as [[[err|]|c] w3].
Qed.

Lemma cmdAdd_then_cmdUse_witness :
  let w := quiet_world [Some ""; Some ""; Some ""] "" in
  ∃ w1 w2,
    cmdAdd (add_args "work" "Wanda Work" "wanda@example.com" "") w = (Val None, w1) ∧
    loadConfig w1 =
      (Val (inl (mkConfig (Some (<["work" := work]> ∅)), config_path "/home/u/.config")), w2) ∧
    cmdUse ["work"] w1 =
      match applyProfile work "local" w2 with
      | (Val None, w3) =>
        (Val None,
         print_out [OutPrintf "Applied profile %q to %s git config\n"
                      [AStr "work"; AStr "local"]] w3)
      | other => other
      end.
Proof.
  intros w.
  assert (loadConfig w = (Val (inl (mkConfig (Some ∅), config_path "/home/u/.config")),
                          (loadConfig w).2)) as Hload by (vm_compute; reflexivity).
  assert (faults (loadConfig w).2 = []) as Hquiet by (vm_compute; reflexivity).
  assert (valid_config (mkConfig (Some (<["work" := work]> ∅))) = true) as Hvalid
    by (vm_compute; reflexivity).
  exact (cmdAdd_then_cmdUse "work" "Wanda Work" "wanda@example.com" "" w _ _ _
           ltac:(discriminate) ltac:(discriminate) ltac:(discriminate) eq_refl
           Hload Hquiet eq_refl Hvalid).
Defined.

(** [add] twice: after an [add] that succeeded, a second [add] of the same
    id, whatever its name, email and key, fails with "already exists" and
    changes no file. *)
Theorem cmdAdd_twice (i n e k n' e' k' : string) (w w0 : World) (cfg : Config) (path : string) :
  let cfg' := mkConfig (Some (<[i := mkProfile i n e k]> (entries cfg))) in
  i ≠ "" → n ≠ "" → e ≠ "" → n' ≠ "" → e' ≠ "" →
  loadConfig w = (Val (inl (cfg, path)), w0) →
  faults w0 = [] →
  entries cfg !! i = None →
  valid_config cfg' = true →
  ∃ w1 w2,
    cmdAdd (add_args i n e k) w = (Val None, w1) ∧
    cmdAdd (add_args i n' e' k') w1 = (Val (Some (exists_error i)), w2) ∧
    files w2 = files w1.
Proof.
  intros cfg' Hi Hn He Hn' He' Hload Hquiet Hnew Hvalid.
  destruct (cmdAdd_stores i n e k w w0 cfg path Hi Hn He Hload Hquiet Hnew Hvalid)
    as (w1 & w2 & Hadd & Hload1 & Hfiles).
  exists w1, w2. split; [exact Hadd|]. split; [|exact Hfiles].
  pose proof (cmdAdd_run _ w1 _ _ (parse_add_args i n' e' k')) as Hrun.
  cbv zeta in Hrun. cbn [flag_string flag_lookup String.eqb Ascii.eqb Bool.eqb] in Hrun.
  assert ((String.eqb i "" || String.eqb n' "" || String.eqb e' "")%bool = false) as Hall.
  { rewrite !orb_false_iff, !String.eqb_neq. tauto. }
  rewrite Hall, Hload1 in Hrun.
  rewrite entries_mkConfig, lookup_insert_eq in Hrun. exact Hrun.
Qed.

Lemma cmdAdd_twice_witness :
  let w := quiet_world [] "" in
  ∃ w1 w2,
    cmdAdd (add_args "work" "Wanda Work" "wanda@example.com" "") w = (Val None, w1) ∧
    cmdAdd (add_args "work" "Someone Else" "else@example.com" "/k") w1 =
      (Val (Some (exists_error "work")), w2) ∧
    files w2 = files w1.
Proof.
  intros w.
  assert (loadConfig w = (Val (inl (mkConfig (Some ∅), config_path "/home/u/.config")),
                          (loadConfig w).2)) as Hload by (vm_compute; reflexivity).
  assert (faults (loadConfig w).2 = []) as Hquiet by (vm_compute; reflexivity).
  assert (valid_config (mkConfig (Some (<["work" := work]> ∅))) = true) as Hvalid
    by (vm_compute; reflexivity).
  exact (cmdAdd_twice "work" "Wanda Work" "wanda@example.com" "" "Someone Else"
           "else@example.com" "/k" w _ _ _
           ltac:(discriminate) ltac:(discriminate) ltac:(discriminate)
           ltac:(discriminate) ltac:(discriminate)
           Hload Hquiet eq_refl Hvalid).
Defined.

(** The hypothesis on UTF-8 is needed: an id that is not valid UTF-8 is
    stored under another key than the one [add] looks up, so that the same
    [add] succeeds twice, and the profile of the first is lost. *)
Example cmdAdd_twice_invalid_id :
  let w := quiet_world [] "" in
  let w1 := (main ["git-profile"; "add"; "--id"; latin1_name; "--name"; "A"; "--email"; "a@x"] w).2 in
  let r := main ["git-profile"; "add"; "--id"; latin1_name; "--name"; "B"; "--email"; "b@x"] w1 in
  exit_code r.1 = 0 ∧
  stdout (main ["git-profile"; "list"] r.2).2 =
    [OutPrintf "Added profile %q\n" [AStr latin1_name];
     OutPrintf "Added profile %q\n" [AStr latin1_name];
     OutPrintln "Configured profiles:";
     OutPrintf "  - %s: %s <%s>, ssh=%s\n"
       [AStr replacement; AStr "B"; AStr "b@x"; AStr "(default SSH)"]].
Proof. vm_compute. split; reflexivity. Qed.

(* ===================================================================== *)
(** ** What a command touches *)

#[export] Hint Extern 1 (frame (keeps _) (os_Create _)) => solve [prim_keeps] : frames.
#[export] Hint Extern 1 (frame (keeps _) (file_write _ _)) => solve [prim_keeps] : frames.
#[export] Hint Extern 1 (frame (keeps _) (os_Rename _ _)) => solve [prim_keeps] : frames.
#[export] Hint Extern 1 (frame (keeps _) (os_WriteFile _ _)) => solve [prim_keeps] : frames.

(** Unfolds a handler down to the primitives of the world. *)
Ltac unfold_handlers :=
  unfold cmdAdd, cmdList, cmdUse, cmdCurrent, cmdEnsure, cmdChoose, cmdSetDefault,
    cmdInstallHooks, flag_Parse, loadConfig, defaultConfigPath, saveConfig, applyProfile,
    runGitConfig, getGitConfig, getGitConfigGlobal, gitDir;
  cbn [write_hooks].

#[export] Instance command_eq_dec : EqDecision command.
Proof. solve_decision. Defined.

(** *** Files *)





(** *** Standard input *)

(** What a command has asked of standard input: nothing, leaving it as it
    was, or one line. *)
Definition took_no_line (w w' : World) : Prop :=
  stdin w' = stdin w ∧ reads w' = reads w.

Definition took_one_line (w w' : World) : Prop :=
  reads w' = S (reads w).

Abbreviation input_seen := (λ w : World, (stdin w, reads w)) (only parsing).

Lemma keeps_input_seen w w' : keeps input_seen w w' ↔ took_no_line w w'.
Proof.
  unfold keeps, took_no_line. split; [by intros [= -> ->]|by intros [-> ->]].
Qed.

Lemma handler_keeps_input c args :
  c ≠ Choose → c ≠ Ensure → frame (keeps input_seen) (handler c args).
Proof.
  intros Hchoose Hensure. destruct c; try done; cbn [handler]; unfold_handlers; frame_auto.
Qed.

Lemma applyProfile_keeps_input p scope : frame (keeps input_seen) (applyProfile p scope).
Proof. unfold_handlers. frame_auto. Qed.

Lemma loadConfig_keeps_input : frame (keeps input_seen) loadConfig.
Proof. unfold_handlers. frame_auto. Qed.

Lemma prompted_took_one_line cfg w : took_one_line w (prompted cfg w).
Proof.
  destruct w. unfold took_one_line, prompted, after_read, print_out. trace_simpl. lia.
Qed.

Lemma reads_print_out l w : reads (print_out l w) = reads w.
Proof. reflexivity. Qed.

Lemma reads_after_execs l w : reads (after_execs l w) = reads w.
Proof.
  destruct w as [ucd fl fts rs sin sout serr tr]. unfold reads, after_execs; cbn.
  rewrite List.filter_app, length_app.
  assert (List.filter is_read (EvExec <$> l) = []) as ->; [|cbn; lia].
  by induction l.
Qed.

Lemma cmdChoose_input args w :
  took_no_line w (cmdChoose args w).2 ∨ took_one_line w (cmdChoose args w).2.
Proof.
  pose proof (loadConfig_keeps_input w) as Hload.
  destruct (loadConfig w) as [[[[cfg path]|err]|code] w1] eqn:Hrun;
    apply keeps_input_seen in Hload; cbn [snd] in Hload.
  - rewrite (cmdChoose_run args w cfg path w1 Hrun).
    assert (took_one_line w (prompted cfg w1)) as Hone.
    { destruct Hload as [Hin Hrd]. pose proof (prompted_took_one_line cfg w1) as H1.
      unfold took_one_line in *. congruence. }
    destruct (size (entries cfg) =? 0)%nat; [by left|].
    destruct (String.eqb (input_line w1) ""); [by right|].
    destruct (Sscanf_d (input_line w1)) as [k|]; [|by right].
    destruct (_ || _)%bool; [by right|].
    destruct (sorted_ids cfg !! _) as [id|]; [|by right].
    pose proof (applyProfile_keeps_input (profile_at cfg id) "local" (prompted cfg w1)) as Happly.
    apply keeps_input_seen in Happly.
    destruct (applyProfile _ _ _) as [[[e|]|c] w3]; cbn [snd] in *; right.
    all: destruct Happly as [H3 H4]; unfold took_one_line in *.
    all: rewrite ?reads_print_out; congruence.
  - unfold cmdChoose. rewrite run_bind, Hrun. by left.
  - unfold cmdChoose. rewrite run_bind, Hrun. by left.
Qed.

Lemma cmdEnsure_input args w :
  took_no_line w (cmdEnsure args w).2 ∨ took_one_line w (cmdEnsure args w).2.
Proof.
  assert (∀ (m : M (option error)) w0,
            took_no_line w w0 → frame (keeps input_seen) m → took_no_line w (m w0).2) as Hstep.
  { intros m w0 [H1 H2] Hm. specialize (Hm w0). apply keeps_input_seen in Hm as [H3 H4].
    split; congruence. }
  pose proof (loadConfig_keeps_input w) as Hload.
  unfold cmdEnsure. rewrite run_bind.
  destruct (loadConfig w) as [[[[cfg path]|err]|code] w1] eqn:Hrun;
    apply keeps_input_seen in Hload; cbn [snd] in Hload; cbv beta iota; [|by left..].
  destruct (size (entries cfg) =? 0)%nat; [by left|].
  rewrite run_bind, getGitConfig_run. cbv beta iota.
  assert (took_no_line w (after_execs [git_get "gitprofile.default"] w1)) as H1.
  { destruct Hload. split; [done|]. by rewrite reads_after_execs. }
  destruct (known_default cfg _) as [p|].
  { left. apply Hstep; [done|apply applyProfile_keeps_input]. }
  rewrite run_bind, getGitConfigGlobal_run. cbv beta iota. rewrite after_execs_app.
  cbn [app].
  assert (took_no_line w (after_execs [git_get "gitprofile.default";
                                        git_get_global "gitprofile.default"] w1)) as H2.
  { destruct Hload. split; [done|]. by rewrite reads_after_execs. }
  destruct (known_default cfg _) as [p|].
  { left. apply Hstep; [done|apply applyProfile_keeps_input]. }
  match goal with |- context [cmdChoose [] ?w0] =>
    destruct (cmdChoose_input [] w0) as [[H5 H6]|H]; [left|right];
    destruct H2 as [H3 H4]; [split|unfold took_one_line in *]; congruence end.
Qed.

(** A command asks for a line of standard input at most once, and only
    [choose] and [ensure] ask at all: the other commands leave standard
    input alone and never wait for it. *)
Theorem handler_reads_at_most_one_line (c : command) (args : list string) (w : World) :
  took_no_line w (handler c args w).2 ∨
  ((c = Choose ∨ c = Ensure) ∧ took_one_line w (handler c args w).2).
Proof.
  destruct (decide (c = Choose)) as [->|Hchoose]; [|destruct (decide (c = Ensure)) as [->|Hensure]].
  - destruct (cmdChoose_input args w); [by left|right; by eauto].
  - destruct (cmdEnsure_input args w); [by left|right; by eauto].
  - left. apply keeps_input_seen. apply (handler_keeps_input c args Hchoose Hensure w).
Qed.

(** *** Processes *)

Definition is_git (argv : list string) : Prop := head argv = Some "git".

(** Between the two worlds only [git] was started. *)
Definition only_git : relation World :=
  λ w w', ∃ calls, execs w' = (execs w ++ calls)%list ∧ Forall is_git calls.

#[export] Instance only_git_preorder : PreOrder only_git.
Proof.
  split.
  - intros w. exists []. by rewrite app_nil_r.
  - intros w1 w2 w3 (l1 & H1 & Hg1) (l2 & H2 & Hg2). exists (l1 ++ l2)%list.
    split; [by rewrite H2, H1, app_assoc|by apply Forall_app].
Qed.

Lemma only_git_keeps {A : Type} (m : M A) : frame (keeps execs) m → frame only_git m.
Proof. intros H w. exists []. by rewrite (H w), app_nil_r. Qed.

Lemma execs_after_execs l w : execs (after_execs l w) = (execs w ++ l)%list.
Proof.
  destruct w as [ucd fl fts rs sin sout serr tr]. unfold execs, execs_of, after_execs; cbn.
  rewrite omap_app. f_equal. induction l as [|a l IH]; [done|]. cbn. by rewrite IH.
Qed.

Lemma cmd_Run_only_git rest : frame only_git (cmd_Run ("git" :: rest)).
Proof. intros w. rewrite cmd_Run_run. eexists. split; [apply execs_after_execs|]. by repeat constructor. Qed.

Lemma cmd_Output_only_git rest : frame only_git (cmd_Output ("git" :: rest)).
Proof. intros w. rewrite cmd_Output_run. eexists. split; [apply execs_after_execs|]. by repeat constructor. Qed.

Lemma runGitConfig_only_git scope key value : frame only_git (runGitConfig scope key value).
Proof. unfold runGitConfig. apply cmd_Run_only_git. Qed.

#[export] Hint Resolve cmd_Run_only_git cmd_Output_only_git runGitConfig_only_git : frames.
#[export] Hint Extern 5 (frame only_git _) =>
  apply only_git_keeps; solve [auto with frames] : frames.

Lemma handler_only_git c args : frame only_git (handler c args).
Proof.
  destruct c; cbn [handler];
    unfold cmdAdd, cmdList, cmdUse, cmdCurrent, cmdEnsure, cmdChoose, cmdSetDefault,
      cmdInstallHooks, flag_Parse, loadConfig, defaultConfigPath, saveConfig, applyProfile,
      getGitConfig, getGitConfigGlobal, gitDir;
    cbn [write_hooks]; frame_auto.
Qed.

Lemma handler_keeps_execs c args :
  c = Add ∨ c = List → frame (keeps execs) (handler c args).
Proof. intros [-> | ->]; cbn [handler]; unfold_handlers; frame_auto. Qed.

(** The only program a command ever starts is [git], and [add] and [list]
    start no process at all. *)
Theorem handler_starts_only_git (c : command) (args : list string) (w : World) :
  ∃ calls,
    execs (handler c args w).2 = (execs w ++ calls)%list ∧
    Forall (λ argv, head argv = Some "git") calls ∧
    (c = Add ∨ c = List → calls = []).
Proof.
  destruct (decide (c = Add ∨ c = List)) as [Hc|Hc].
  - exists []. rewrite (handler_keeps_execs c args Hc w), app_nil_r. done.
  - destruct (handler_only_git c args w) as (calls & Hcalls & Hgit).
    exists calls. done.
Qed.

Lemma handler_starts_only_git_witness :
  let w := with_config two_profiles (quiet_world [] "") in
  ∃ calls, execs (handler List [] w).2 = (execs w ++ calls)%list ∧ calls = [].
Proof.
  intros w. destruct (handler_starts_only_git List [] w) as (calls & Hcalls & _ & Hnone).
  exists calls. split; [exact Hcalls|]. apply Hnone. by right.
Defined.

(* ===================================================================== *)
(** ** Numbers and lines *)

Definition digits (s : string) : Prop :=
  Forall (λ c, is_digit c = true) (list_ascii_of_string s).

Lemma string_app_cons c s t : String c s +:+ t = String c (s +:+ t).
Proof. reflexivity. Qed.

Lemma string_app_assoc a b c : (a +:+ b) +:+ c = a +:+ (b +:+ c).
Proof. induction a as [|x a IH]; [done|]. by rewrite !string_app_cons, IH. Qed.

Lemma list_ascii_of_string_app a b :
  list_ascii_of_string (a +:+ b) = (list_ascii_of_string a ++ list_ascii_of_string b)%list.
Proof. induction a as [|x a IH]; [done|]. rewrite string_app_cons. cbn. by rewrite IH. Qed.

Lemma digit_char r :
  0 ≤ r < 10 →
  let c := ascii_of_N (Z.to_N (48 + r)) in
  is_digit c = true ∧ Z.of_N (byte_val c) - 48 = r.
Proof.
  intros Hr.
  assert (r = 0 ∨ r = 1 ∨ r = 2 ∨ r = 3 ∨ r = 4 ∨ r = 5 ∨ r = 6 ∨ r = 7 ∨ r = 8 ∨ r = 9)
    as H by lia.
  repeat (destruct H as [->|H]; [by vm_compute|]). subst r. by vm_compute.
Qed.

Lemma decimal_digits_spec fuel n :
  0 ≤ n < 2 ^ Z.of_nat (S fuel) →
  ∃ ds m, ds ≠ "" ∧ digits ds ∧
    ∀ acc, decimal_digits (S fuel) n acc = ds +:+ acc ∧
           ∀ a, parse_digits a (ds +:+ acc) = parse_digits (a * m + n) acc.
Proof.
  revert n. induction fuel as [|fuel IH]; intros n Hn.
  all: cbn [decimal_digits].
  all: pose proof (digit_char (n mod 10) ltac:(apply Z.mod_pos_bound; lia)) as [Hd Hv].
  all: cbv zeta in Hd, Hv.
  all: set (c := ascii_of_N (Z.to_N (48 + n mod 10))) in *.
  all: destruct (Z.ltb_spec n 10) as [Hlt|Hge].
  2: { change (2 ^ Z.of_nat 1) with 2 in Hn. lia. }
  1,2: exists (String c ""), 10; (split; [done|]); (split; [by repeat constructor|]);
       intros acc; (split; [done|]); intros a;
       change (String c "" +:+ acc) with (String c acc); cbn [parse_digits]; rewrite Hd, Hv;
       rewrite Z.mod_small by lia; f_equal; lia.
  destruct (IH (n / 10)) as (ds & m & Hne & Hds & Hspec).
  { split; [apply Z.div_pos; lia|].
    rewrite Nat2Z.inj_succ, Z.pow_succ_r in Hn by lia.
    apply Z.div_lt_upper_bound; lia. }
  exists (ds +:+ String c ""), (10 * m). split; [|split].
  - destruct ds; [done|]. discriminate.
  - unfold digits in *. rewrite list_ascii_of_string_app. apply Forall_app. split; [done|].
    by repeat constructor.
  - intros acc. destruct (Hspec (String c acc)) as [Heq Hparse].
    rewrite string_app_assoc. change (String c "" +:+ acc) with (String c acc). split; [done|]. intros a. rewrite Hparse. cbn [parse_digits].
    rewrite Hd, Hv. f_equal.
    pose proof (Z.div_mod n 10 ltac:(lia)). lia.
Qed.

Lemma FormatInt_spec n :
  0 ≤ n →
  ∃ c r, FormatInt n = String c r ∧ digits (String c r) ∧
         parse_digits 0 (String c r) = Some n.
Proof.
  intros Hn. unfold FormatInt.
  destruct (decimal_digits_spec (Z.to_nat (Z.log2 n)) n) as (ds & m & Hne & Hds & Hspec).
  { split; [done|]. rewrite Nat2Z.inj_succ, Z2Nat.id by apply Z.log2_nonneg.
    destruct (decide (n = 0)) as [->|Hpos]; [done|].
    apply Z.log2_spec. lia. }
  destruct (Hspec "") as [Heq Hparse]. rewrite string_app_nil_r in Heq, Hparse.
  destruct ds as [|c r]; [done|]. exists c, r. split; [done|]. split; [done|].
  rewrite Hparse. cbn [parse_digits]. f_equal; lia.
Qed.

(** The printable characters of ASCII other than the space. *)
Definition graphic (c : ascii) : bool := byte_in 0x21 0x7E c.

(** None of them is white space on its own or takes part in a white space
    character of more than one byte. *)
Lemma graphic_plain c :
  graphic c = true →
  space1 c = false ∧ is_byte 0x0A c = false ∧ is_byte 0xC2 c = false ∧
  is_byte 0xE1 c = false ∧ is_byte 0xE2 c = false ∧ is_byte 0xE3 c = false ∧
  is_byte 0x85 c = false ∧ is_byte 0xA0 c = false ∧ is_byte 0x80 c = false ∧
  is_byte 0x9F c = false ∧ byte_in 0x80 0x8A c = false ∧ is_byte 0xA8 c = false ∧
  is_byte 0xA9 c = false ∧ is_byte 0xAF c = false.
Proof.
  destruct c as [[] [] [] [] [] [] [] []]; vm_compute; intros H; try discriminate H;
    repeat split; reflexivity.
Qed.

Lemma digit_graphic c :
  is_digit c = true → graphic c = true ∧ is_byte 0x2D c = false ∧ is_byte 0x2B c = false.
Proof.
  destruct c as [[] [] [] [] [] [] [] []]; vm_compute; intros H; try discriminate H;
    repeat split; reflexivity.
Qed.

Lemma trim_left_graphic c r : graphic c = true → trim_left (String c r) = String c r.
Proof.
  intros Hc. destruct (graphic_plain c Hc) as (H1 & _ & H2 & H3 & H4 & H5 & _).
  cbn [trim_left]. rewrite H1. destruct r as [|b [|d r]]; try done.
  - unfold space2. by rewrite H2.
  - unfold space2, space3. by rewrite H2, H3, H4, H5.
Qed.

Lemma skip_space_graphic c r : graphic c = true → skip_space (String c r) = Some (String c r).
Proof.
  intros Hc. destruct (graphic_plain c Hc) as (H1 & H0 & H2 & H3 & H4 & H5 & _).
  cbn [skip_space]. rewrite H0, H1. destruct r as [|b [|d r]]; try done.
  - unfold space2. by rewrite H2.
  - unfold space2, space3. by rewrite H2, H3, H4, H5.
Qed.

Lemma trim_left_rev_graphic c r : graphic c = true → trim_left_rev (String c r) = String c r.
Proof.
  intros Hc.
  destruct (graphic_plain c Hc)
    as (H1 & _ & _ & _ & _ & _ & H6 & H7 & H8 & H9 & H10 & H11 & H12 & H13).
  cbn [trim_left_rev]. rewrite H1. destruct r as [|b [|d r]]; try done.
  - unfold space2. by rewrite H6, H7, andb_false_r.
  - unfold space2, space3. rewrite H6, H7, H8, H9, H10, H11, H12, H13.
    by rewrite !andb_false_r.
Qed.

Lemma number_token_digits s : digits s → number_token s = s.
Proof.
  unfold digits. induction s as [|c s IH]; [done|]. cbn [list_ascii_of_string number_token].
  intros H. apply Forall_cons in H as [Hc Hs]. rewrite Hc. by rewrite IH.
Qed.

(** Scanning the digits that the verb d wrote gives the number back. *)
Lemma Sscanf_d_FormatInt n : 0 ≤ n < 2 ^ 63 → Sscanf_d (FormatInt n) = Some n.
Proof.
  intros [Hn Hmax]. destruct (FormatInt_spec n Hn) as (c & r & -> & Hds & Hparse).
  assert (is_digit c = true) as Hc.
  { unfold digits in Hds. cbn in Hds. by apply Forall_cons in Hds as [? _]. }
  destruct (digit_graphic c Hc) as (Hg & Hminus & Hplus).
  unfold Sscanf_d. rewrite (skip_space_graphic c r Hg), Hminus, Hplus.
  rewrite (number_token_digits _ Hds). unfold ParseInt64. rewrite Hparse.
  destruct (Z.ltb_spec n (2 ^ 63)); [done|lia].
Qed.

Lemma string_rev_app a b : string_rev (a +:+ b) = string_rev b +:+ string_rev a.
Proof.
  unfold string_rev. rewrite list_ascii_of_string_app, rev_app_distr.
  generalize (rev (list_ascii_of_string b)) (rev (list_ascii_of_string a)).
  intros l1 l2. induction l1 as [|x l1 IH]; [done|]. cbn. by rewrite IH.
Qed.

Lemma string_rev_involutive s : string_rev (string_rev s) = s.
Proof.
  unfold string_rev. rewrite list_ascii_of_string_of_list_ascii, rev_involutive.
  apply string_of_list_ascii_of_string.
Qed.

(** A value that begins and ends with a printable character other than
    the space. *)
Definition plain_ends (s : string) : bool :=
  match s, string_rev s with
  | String c _, String c' _ => (graphic c && graphic c')%bool
  | _, _ => false
  end.

(** What [TrimSpace] leaves of such a value and its line end is the value. *)
Lemma TrimSpace_line s :
  plain_ends s = true → TrimSpace (s +:+ String newline "") = s.
Proof.
  unfold plain_ends. destruct s as [|c r]; [done|].
  destruct (string_rev (String c r)) as [|c' r'] eqn:Hrev; [done|].
  intros H. apply andb_true_iff in H as [Hc Hc'].
  unfold TrimSpace. rewrite string_app_cons, (trim_left_graphic _ _ Hc).
  rewrite <- string_app_cons, string_rev_app.
  change (string_rev (String newline "")) with (String newline "").
  rewrite string_app_cons. change ("" +:+ ?x) with x.
  change (trim_left_rev (String newline (string_rev (String c r))))
    with (trim_left_rev (string_rev (String c r))).
  rewrite Hrev, (trim_left_rev_graphic _ _ Hc'), <- Hrev. apply string_rev_involutive.
Qed.

Lemma digits_plain_ends c r : digits (String c r) → plain_ends (String c r) = true.
Proof.
  intros H. unfold plain_ends.
  assert (is_digit c = true) as Hc.
  { unfold digits in H. cbn in H. by apply Forall_cons in H as [? _]. }
  unfold digits, string_rev in *. apply Forall_rev in H.
  destruct (rev (list_ascii_of_string (String c r))) as [|c' l] eqn:Hrev.
  - apply (f_equal length) in Hrev. rewrite length_rev in Hrev. discriminate Hrev.
  - apply Forall_cons in H as [Hc' _]. cbn [string_of_list_ascii].
    destruct (digit_graphic c Hc) as [-> _]. by destruct (digit_graphic c' Hc') as [-> _].
Qed.

Lemma split_line_number c r later :
  digits (String c r) →
  split_line (String c r +:+ String newline later) = (String c r +:+ String newline "", later).
Proof.
  unfold digits. generalize (String c r). intros s. induction s as [|x s IH]; intros H.
  - reflexivity.
  - cbn in H. apply Forall_cons in H as [Hx Hs]. rewrite !string_app_cons.
    cbn [split_line]. destruct (digit_graphic x Hx) as [Hg _].
    destruct (graphic_plain x Hg) as (_ & -> & _). by rewrite (IH Hs).
Qed.

Lemma menu_from_lookup cfg a ids i id :
  ids !! i = Some id → menu_from cfg a ids !! i = Some (menu_line cfg (a + Z.of_nat i) id).
Proof.
  revert a i. induction ids as [|x ids IH]; intros a i Hi; [done|].
  destruct i as [|i]; cbn [menu_from].
  - cbn in Hi |- *. simplify_eq. by rewrite Z.add_0_r.
  - change (menu_from cfg (a + 1) ids !! i = Some (menu_line cfg (a + Z.of_nat (S i)) id)).
    rewrite (IH (a + 1) i Hi). do 2 f_equal. lia.
Qed.

(** [choose] takes the number it printed: when the line on standard input
    is the number that the menu shows beside an identifier, as the verb d
    wrote it, followed by the line end, [choose] applies the profile of that
    identifier, whatever follows that line. *)
Theorem cmdChoose_accepts_printed_number (args : list string) (w w1 : World) (cfg : Config)
    (path : string) (i : nat) (id later : string) :
  loadConfig w = (Val (inl (cfg, path)), w1) →
  sorted_ids cfg !! i = Some id →
  Z.of_nat i + 1 < 2 ^ 63 →
  stdin w = FormatInt (Z.of_nat i + 1) +:+ String newline later →
  let p := profile_at cfg id in
  choose_menu cfg !! S i =
    Some (OutPrintf "  [%d] %s: %s <%s>\n"
            [AInt (Z.of_nat i + 1); AStr id; AStr (GitUser p); AStr (GitEmail p)]) ∧
  cmdChoose args w =
    match applyProfile p "local" (prompted cfg w1) with
    | (Val None, w3) =>
      (Val None, print_out [OutPrintf "Applied profile %q to local repo\n" [AStr id]] w3)
    | other => other
    end.
Proof.
  intros Hload Hid Hmax Hin p.
  destruct (loadConfig_frames _ _ _ Hload) as (_ & _ & Hstdin & _).
  destruct (FormatInt_spec (Z.of_nat i + 1) ltac:(lia)) as (c & r & Hfmt & Hds & _).
  pose proof (Sscanf_d_FormatInt (Z.of_nat i + 1) ltac:(lia)) as Hscan.
  rewrite Hfmt in Hin, Hscan.
  assert (input_line w1 = String c r) as Hline.
  { unfold input_line. rewrite Hstdin, Hin, (split_line_number c r later Hds). cbn [fst].
    by apply TrimSpace_line, digits_plain_ends. }
  pose proof (lookup_lt_Some _ _ _ Hid) as Hlt. rewrite sorted_ids_length in Hlt.
  split.
  - unfold choose_menu.
    change (([OutPrintln "Select profile:"] ++ ?t)%list !! S i) with (t !! i).
    rewrite lookup_app_l by (rewrite <- sorted_ids_length in Hlt; clear -Hlt Hid;
      apply lookup_lt_is_Some; erewrite menu_from_lookup by done; eauto).
    rewrite (menu_from_lookup cfg 0 _ i id Hid). unfold menu_line. by rewrite Z.add_0_l.
  - rewrite (cmdChoose_run args w cfg path w1 Hload), Hline, Hscan.
    destruct (Nat.eqb_spec (size (entries cfg)) 0) as [H0|_]; [lia|].
    change (String c r =? "")%string with false. cbv iota.
    assert (((Z.of_nat i + 1 <? 1)
             || (Z.of_nat i + 1 >? Z.of_nat (size (entries cfg))))%bool = false) as ->.
    { apply orb_false_iff. split; [apply Z.ltb_ge|rewrite Z.gtb_ltb; apply Z.ltb_ge]; lia. }
    replace (Z.to_nat (Z.of_nat i + 1 - 1)) with i by lia.
    rewrite Hid. reflexivity.
Qed.

Lemma cmdChoose_accepts_printed_number_witness :
  let w := with_config two_profiles (quiet_world [Some ""; Some ""; Some ""] "2
rest") in
  choose_menu two_profiles !! 2%nat =
    Some (OutPrintf "  [%d] %s: %s <%s>\n"
            [AInt 2; AStr "work"; AStr "Wanda Work"; AStr "wanda@example.com"]) ∧
  cmdChoose [] w =
    match applyProfile work "local" (prompted two_profiles (loadConfig w).2) with
    | (Val None, w3) =>
      (Val None, print_out [OutPrintf "Applied profile %q to local repo\n" [AStr "work"]] w3)
    | other => other
    end.
Proof.
  intros w.
  assert (loadConfig w = (Val (inl (two_profiles, config_path "/home/u/.config")),
                          (loadConfig w).2)) as Hload by (vm_compute; reflexivity).
  assert (sorted_ids two_profiles !! 1%nat = Some "work") as Hid by (vm_compute; reflexivity).
  assert (Z.of_nat 1 + 1 < 2 ^ 63) as Hmax by (vm_compute; reflexivity).
  assert (stdin w = FormatInt (Z.of_nat 1 + 1) +:+ String newline "rest") as Hin
    by (vm_compute; reflexivity).
  pose proof (cmdChoose_accepts_printed_number [] w _ _ _ 1 "work" "rest" Hload Hid Hmax Hin)
    as H.
  cbv zeta in H.
  assert (profile_at two_profiles "work" = work) as E by (vm_compute; reflexivity).
  rewrite E in H. exact H.
Defined.

(** *** What a read of git hands to the program *)

(** git ends the value it prints with a line end; the program gets the
    value without it.  For a value that begins and ends with a printable
    character other than the space (blanks inside are kept), the reads of a
    config key and of the git directory return exactly the value. *)
Theorem getGitConfig_strips_line_end (key value : string) (w : World) :
  plain_ends value = true →
  reply_at 0 w = Some (value +:+ String newline "") →
  (getGitConfig key w).1 = Val (inl value) ∧
  (getGitConfigGlobal key w).1 = Val (inl value) ∧
  (gitDir w).1 = Val (inl value).
Proof.
  intros Hplain Hreply. unfold gitDir.
  rewrite getGitConfig_run, getGitConfigGlobal_run, run_bind, cmd_Output_run, Hreply.
  cbn [config_value fst]. rewrite run_ret. cbn [fst].
  by rewrite (TrimSpace_line value Hplain).
Qed.

Lemma getGitConfig_strips_line_end_witness :
  let w := quiet_world [Some "Wanda Work
"] "" in
  (getGitConfig "user.name" w).1 = Val (inl "Wanda Work").
Proof.
  intros w.
  exact (proj1 (getGitConfig_strips_line_end "user.name" "Wanda Work" w eq_refl eq_refl)).
Defined.

Lemma number_token_stops ds c rest :
  digits ds → is_digit c = false →
  number_token (ds +:+ String c rest) = ds.
Proof.
  unfold digits. intros Hds Hc. induction ds as [|x ds IH].
  - change ("" +:+ String c rest) with (String c rest). cbn [number_token]. by rewrite Hc.
  - cbn in Hds. apply Forall_cons in Hds as [Hx Hds]. rewrite string_app_cons.
    cbn [number_token]. rewrite Hx. by rewrite (IH Hds).
Qed.

(** The verb d stops at an underscore as at any other character that is
    not a digit. *)
Example Sscanf_d_stops_at_underscore :
  Sscanf_d "1_0" = Some 1 ∧ Sscanf_d "2_" = Some 2 ∧ Sscanf_d "+2x" = Some 2 ∧
  Sscanf_d "_1" = None ∧ Sscanf_d "-" = None.
Proof. by vm_compute. Qed.

Lemma Sscanf_d_FormatInt_then n c rest :
  0 ≤ n < 2 ^ 63 → is_digit c = false →
  Sscanf_d (FormatInt n +:+ String c rest) = Some n.
Proof.
  intros [Hn Hmax] Hc. destruct (FormatInt_spec n Hn) as (d & r & -> & Hds & Hparse).
  assert (is_digit d = true) as Hd.
  { unfold digits in Hds. cbn in Hds. by apply Forall_cons in Hds as [? _]. }
  destruct (digit_graphic d Hd) as (Hg & Hminus & Hplus).
  unfold Sscanf_d. rewrite string_app_cons, (skip_space_graphic d _ Hg), Hminus, Hplus.
  rewrite <- string_app_cons, (number_token_stops _ c rest Hds Hc).
  unfold ParseInt64. rewrite Hparse.
  destruct (Z.ltb_spec n (2 ^ 63)); [done|lia].
Qed.

(** [choose] looks at the number only: a line that begins with a number k
    between 1 and N, written in decimal, and goes on with a character that
    is not a digit (an underscore, a dot, a letter, a space), is taken as the
    choice k, whatever follows. *)
Theorem cmdChoose_ignores_text_after_number (args : list string) (w w1 : World)
    (cfg : Config) (path : string) (k : Z) (c : ascii) (rest : string) :
  loadConfig w = (Val (inl (cfg, path)), w1) →
  1 ≤ k ≤ Z.of_nat (size (entries cfg)) →
  k < 2 ^ 63 →
  is_digit c = false →
  input_line w = FormatInt k +:+ String c rest →
  ∃ id,
    sorted_ids cfg !! Z.to_nat (k - 1) = Some id ∧
    cmdChoose args w =
      match applyProfile (profile_at cfg id) "local" (prompted cfg w1) with
      | (Val None, w3) =>
        (Val None, print_out [OutPrintf "Applied profile %q to local repo\n" [AStr id]] w3)
      | other => other
      end.
Proof.
  intros Hload Hk Hmax Hc Hline.
  destruct (loadConfig_frames _ _ _ Hload) as (_ & _ & Hin & _).
  pose proof (Sscanf_d_FormatInt_then k c rest ltac:(lia) Hc) as Hscan.
  rewrite (cmdChoose_run args w cfg path w1 Hload), (input_line_same _ _ Hin), Hline, Hscan.
  destruct (Nat.eqb_spec (size (entries cfg)) 0) as [H0|_]; [lia|].
  destruct (String.eqb_spec (FormatInt k +:+ String c rest) "") as [He|_].
  { destruct (FormatInt k); discriminate He. }
  assert (((k <? 1) || (k >? Z.of_nat (size (entries cfg))))%bool = false) as ->.
  { apply orb_false_iff. split; [apply Z.ltb_ge|rewrite Z.gtb_ltb; apply Z.ltb_ge]; lia. }
  destruct (sorted_ids cfg !! Z.to_nat (k - 1)) as [id|] eqn:Hid.
  - by exists id.
  - apply lookup_ge_None in Hid. rewrite sorted_ids_length in Hid. lia.
Qed.

Lemma cmdChoose_ignores_text_after_number_witness :
  let w := with_config two_profiles (quiet_world [Some ""; Some ""; Some ""] "1_0") in
  ∃ id,
    sorted_ids two_profiles !! 0%nat = Some id ∧
    cmdChoose [] w =
      match applyProfile (profile_at two_profiles id) "local"
              (prompted two_profiles (loadConfig w).2) with
      | (Val None, w3) =>
        (Val None, print_out [OutPrintf "Applied profile %q to local repo\n" [AStr id]] w3)
      | other => other
      end.
Proof.
  intros w.
  assert (loadConfig w = (Val (inl (two_profiles, config_path "/home/u/.config")),
                          (loadConfig w).2)) as Hload by (vm_compute; reflexivity).
  assert (1 ≤ 1 ≤ Z.of_nat (size (entries two_profiles))) as Hk
    by (vm_compute; split; discriminate).
  assert (input_line w = FormatInt 1 +:+ String "_" "0") as Hline by (vm_compute; reflexivity).
  exact (cmdChoose_ignores_text_after_number [] w _ two_profiles _ 1 "_"%char "0"
           Hload Hk eq_refl eq_refl Hline).
Defined.

(* ===================================================================== *)
(** ** [ensure] without a prompt *)

Lemma opens_after_execs l w : opens (after_execs l w) = opens w.
Proof.
  destruct w as [ucd fl fts rs sin sout serr tr]. unfold opens, after_execs; cbn.
  rewrite List.filter_app, length_app.
  assert (List.filter is_open (EvExec <$> l) = []) as ->; [|cbn; lia].
  by induction l.
Qed.

Lemma applyProfile_quiet p scope :
  frame (keeps (λ w, (stdin w, reads w, stdout w, opens w))) (applyProfile p scope).
Proof. unfold applyProfile, runGitConfig. frame_auto. Qed.

(** [applyProfile] at local scope, by the replies of git: the calls made and
    the error returned are those of [apply_contract]. *)
Lemma applyProfile_local_run p w :
  let outcome := apply_contract p "local" (λ i, reply_at i w) in
  applyProfile p "local" w = (Val outcome.2, after_execs outcome.1 w).
Proof.
  unfold applyProfile, apply_contract, sshCommand.
  rewrite run_bind, runGitConfig_run.
  destruct (reply_at 0 w) as [out0|] eqn:H0; cbn [succeeded negb]; [|done].
  rewrite run_bind, runGitConfig_run, reply_at_after_execs.
  destruct (reply_at 1 w) as [out1|] eqn:H1; cbn [length Nat.add succeeded negb];
    rewrite H1; cbn [succeeded negb]; rewrite after_execs_app; [|done].
  change ("local" =? "global")%string with false.
  change ("local" =? "local")%string with true.
  destruct (String.eqb (SSHKeyPath p) "") eqn:Hkey; cbn [negb andb].
  - rewrite run_bind, cmd_Run_run, after_execs_app. by destruct (reply_at 0 _).
  - rewrite run_bind, runGitConfig_run, reply_at_after_execs, after_execs_app.
    cbn [length Nat.add app]. by destruct (reply_at 2 w).
Qed.

Lemma apply_contract_ext p scope rs rs' :
  (∀ i, rs i = rs' i) → apply_contract p scope rs = apply_contract p scope rs'.
Proof. intros H. unfold apply_contract. by rewrite !H. Qed.

(** The profile that a resolution names, and the reads of the default that
    [ensure] has made when it comes to apply it. *)
Definition resolved (r : resolution) : option Profile :=
  match r with
  | ByLocalDefault p | ByGlobalDefault p => Some p
  | ByChoose => None
  end.

Definition default_reads (r : resolution) : list (list string) :=
  match r with
  | ByLocalDefault _ => [git_get "gitprofile.default"]
  | _ => [git_get "gitprofile.default"; git_get_global "gitprofile.default"]
  end.

(** [ensure] without a prompt.  On an empty config it fails before it asks
    git for anything.  When the local or the global default names a known
    profile, it applies that profile at local scope: after the reads of the
    default it makes exactly the git calls of the apply contract for that
    profile and returns the error of the contract.  It neither prints nor
    reads anything on the way: run from a hook, it is silent and does not
    wait for input, and it has opened the config file once. *)
Theorem cmdEnsure_without_prompt (args : list string) (w w1 : World) (cfg : Config)
    (path : string) :
  loadConfig w = (Val (inl (cfg, path)), w1) →
  (size (entries cfg) = 0%nat → cmdEnsure args w = (Val (Some no_profiles), w1)) ∧
  (size (entries cfg) ≠ 0%nat →
   let res := ensure_resolution cfg (set_to (reply_at 0 w)) (set_to (reply_at 1 w)) in
   ∀ p, resolved res = Some p →
   let made := default_reads res in
   let outcome := apply_contract p "local" (λ i, reply_at (length made + i) w) in
   let w' := (cmdEnsure args w).2 in
   cmdEnsure args w = (Val outcome.2, after_execs (made ++ outcome.1) w1) ∧
   execs w' = (execs w ++ made ++ outcome.1)%list ∧
   stdin w' = stdin w ∧ reads w' = reads w ∧ stdout w' = stdout w ∧ opens w' = opens w1).
Proof.
  intros Hload.
  destruct (loadConfig_frames _ _ _ Hload) as (_ & Hr & Hin & Hout & _ & Hex & Hrd & _).
  split.
  - intros H0. unfold cmdEnsure. rewrite run_bind, Hload. cbv beta iota. by rewrite H0.
  - intros Hsize res p Hres made outcome w'.
    assert (cmdEnsure args w = applyProfile p "local" (after_execs made w1)) as Hrun.
    { unfold cmdEnsure. rewrite run_bind, Hload. cbv beta iota.
      destruct (Nat.eqb_spec (size (entries cfg)) 0) as [H0|_]; [done|].
      revert Hres. unfold made, res, ensure_resolution.
      run_step. rewrite known_default_config_value, (reply_at_same 0 _ _ Hr).
      destruct (set_to (reply_at 0 w) ≫= _) as [q|]; [by intros [= ->]|].
      run_step. rewrite known_default_config_value, (reply_at_same 1 _ _ Hr).
      destruct (set_to (reply_at 1 w) ≫= _) as [q|]; [by intros [= ->]|done]. }
    assert (apply_contract p "local" (λ i, reply_at i (after_execs made w1)) = outcome) as Hsame.
    { apply apply_contract_ext. intros i.
      by rewrite reply_at_after_execs, (reply_at_same _ _ _ Hr). }
    pose proof (applyProfile_local_run p (after_execs made w1)) as Happly.
    cbv zeta in Happly. rewrite Hsame, after_execs_app in Happly.
    pose proof (applyProfile_quiet p "local" (after_execs made w1)) as Hquiet.
    unfold keeps in Hquiet. unfold w'. rewrite Hrun.
    split; [exact Happly|]. split.
    + rewrite Happly. cbn [snd]. by rewrite execs_after_execs, Hex.
    + injection Hquiet as -> -> -> ->.
      by rewrite reads_after_execs, opens_after_execs.
Qed.

Lemma cmdEnsure_without_prompt_witness :
  let w := with_config two_profiles (quiet_world [None; Some "home
"; Some ""; Some ""; Some ""] "1") in
  let w' := (cmdEnsure [] w).2 in
  (cmdEnsure [] w).1 = Val None ∧
  execs w' =
    [git_get "gitprofile.default"; git_get_global "gitprofile.default";
     git_set "local" "user.name" "Wanda";
     git_set "local" "user.email" "wanda@home.example";
     git_set "local" "core.sshCommand" "ssh -i /home/u/.ssh/id_home -F /dev/null"] ∧
  stdin w' = "1" ∧ reads w' = 0%nat ∧ stdout w' = [] ∧ opens w' = 1%nat.
Proof.
  intros w.
  assert (loadConfig w = (Val (inl (two_profiles, config_path "/home/u/.config")), (loadConfig w).2))
    as Hload by (vm_compute; reflexivity).
  assert (size (entries two_profiles) ≠ 0%nat) as Hsize by (vm_compute; discriminate).
  assert (resolved (ensure_resolution two_profiles (set_to (reply_at 0 w))
                      (set_to (reply_at 1 w))) = Some home) as Hres
    by (vm_compute; reflexivity).
  destruct (proj2 (cmdEnsure_without_prompt [] w _ two_profiles _ Hload) Hsize home Hres)
    as (Hrun & Hexecs & Hquiet).
  split; [by rewrite Hrun|]. split; [exact Hexecs|exact Hquiet].
Defined.

(* ===================================================================== *)
(** ** [install-hooks] that fails *)

(** What a write of a whole file does, whichever of its steps fails: it
    prints nothing, leaves every other file as it was, and when it returns
    no error the file holds the bytes. *)
Lemma os_WriteFile_result path bytes w :
  ∃ r w', os_WriteFile path bytes w = (Val r, w') ∧
    stdout w' = stdout w ∧
    (∀ p, p ≠ path → files w' !! p = files w !! p) ∧
    (r = None → files w' !! path = Some (OtherText bytes)).
Proof.
  unfold os_WriteFile. unfold_prims.
  destruct w as [ucd fl fts rs sin sout serr tr]. fault_shapes fts; cbn.
  all: eexists _, _; split; [reflexivity|]; cbn.
  all: split; [done|]; split; [|intros; simplify_eq; by rewrite ?lookup_insert_eq].
  all: intros p Hp; by rewrite ?lookup_insert_ne.
Qed.

Lemma os_MkdirAll_result path w :
  ∃ r w', os_MkdirAll path w = (Val r, w') ∧ stdout w' = stdout w ∧ files w' = files w ∧
    match r with Some e => e = SysError "mkdir" path | None => True end.
Proof.
  unfold os_MkdirAll. unfold_prims.
  destruct w as [ucd fl [|[] fts] rs sin sout serr tr]; cbn; eauto 10.
Qed.

Lemma hook_paths_differ dir :
  Join dir "prepare-commit-msg" ≠ Join dir "pre-push".
Proof.
  intros Heq. apply (f_equal last_char) in Heq.
  rewrite !last_char_Join in Heq by done. discriminate Heq.
Qed.

(** [install-hooks] that returns an error has printed nothing.  When the
    error is not about the writing of a hook (git failed, or the hooks
    directory could not be made) no file was changed.  When the first hook,
    prepare-commit-msg, could not be written, no other file was changed.
    When the second, pre-push, could not be written, the first stays
    installed with the whole script and no file but the two hooks was
    changed: nothing is rolled back. *)
Theorem cmdInstallHooks_on_error (args : list string) (w w' : World) (e : error) :
  cmdInstallHooks args w = (Val (Some e), w') →
  stdout w' = stdout w ∧
  ((∀ name err, e ≠ Errorf "writing hook %s: %w" [name] (Some err)) → files w' = files w) ∧
  ∀ out, reply_at 0 w = Some out →
    let hooksDir := Join (TrimSpace out) "hooks" in
    let first := Join hooksDir "prepare-commit-msg" in
    let second := Join hooksDir "pre-push" in
    (∀ err, e = Errorf "writing hook %s: %w" ["prepare-commit-msg"] (Some err) →
       ∀ p, p ≠ first → files w' !! p = files w !! p) ∧
    (∀ err, e = Errorf "writing hook %s: %w" ["pre-push"] (Some err) →
       files w' !! first = Some (OtherText hookContent) ∧
       ∀ p, p ≠ first → p ≠ second → files w' !! p = files w !! p).
Proof.
  unfold cmdInstallHooks, gitDir.
  rewrite run_bind, run_bind, cmd_Output_run.
  destruct (reply_at 0 w) as [out|] eqn:Hreply; cbv beta iota; rewrite run_ret; cbv beta iota.
  - cbv zeta. cbn [write_hooks].
    set (hooksDir := Join (TrimSpace out) "hooks").
    set (w0 := after_execs _ w).
    assert (stdout w0 = stdout w ∧ files w0 = files w) as [Hout0 Hfiles0] by (by destruct w).
    rewrite run_bind.
    destruct (os_MkdirAll_result hooksDir w0) as (r1 & w1 & -> & Hout1 & Hfiles1 & Hr1).
    cbv beta iota. destruct r1 as [e1|].
    { rewrite run_ret. intros H. simplify_eq.
      split; [congruence|]. split; [intros _; congruence|].
      intros out' _. cbv zeta. split; intros err; discriminate. }
    rewrite run_bind, run_bind.
    destruct (os_WriteFile_result (Join hooksDir "prepare-commit-msg") hookContent w1)
      as (r2 & w2 & -> & Hout2 & Hother2 & Hfile2).
    cbv beta iota. destruct r2 as [e2|].
    { rewrite run_ret. cbv beta iota. rewrite run_ret. intros H. simplify_eq.
      split; [congruence|]. split; [intros Hne; by destruct (Hne "prepare-commit-msg" e2)|].
      intros out' [= <-]. cbv zeta. fold hooksDir. split; [|intros err; discriminate].
      intros err _ p Hp. rewrite (Hother2 p Hp). congruence. }
    rewrite run_bind.
    destruct (os_WriteFile_result (Join hooksDir "pre-push") hookContent w2)
      as (r3 & w3 & -> & Hout3 & Hother3 & Hfile3).
    cbv beta iota. destruct r3 as [e3|].
    { rewrite run_ret. cbv beta iota. rewrite run_ret. intros H. simplify_eq.
      split; [congruence|]. split; [intros Hne; by destruct (Hne "pre-push" e3)|].
      intros out' [= <-]. cbv zeta. fold hooksDir. split; [intros err; discriminate|].
      intros err _. split.
      - rewrite (Hother3 _ (hook_paths_differ hooksDir)). by apply Hfile2.
      - intros p Hp1 Hp2. rewrite (Hother3 p Hp2), (Hother2 p Hp1). congruence. }
    rewrite run_ret. cbv beta iota. unfold_prims. cbn. intros H. discriminate H.
  - rewrite run_ret. intros H. simplify_eq. split; [done|]. split; [by destruct w|].
    intros out' H. discriminate H.
Qed.

Lemma cmdInstallHooks_on_error_witness :
  let w := set_faults [false; false; false; false; false; true] (quiet_world [Some ".git"] "") in
  let w' := (cmdInstallHooks [] w).2 in
  stdout w' = [] ∧
  files w' !! ".git/hooks/prepare-commit-msg" = Some (OtherText hookContent) ∧
  ∀ p, p ≠ ".git/hooks/prepare-commit-msg" → p ≠ ".git/hooks/pre-push" → files w' !! p = None.
Proof.
  intros w w'.
  assert (cmdInstallHooks [] w =
            (Val (Some (Errorf "writing hook %s: %w" ["pre-push"]
                          (Some (SysError "write" ".git/hooks/pre-push")))), w'))
    as Hrun by (vm_compute; reflexivity).
  destruct (cmdInstallHooks_on_error [] w w' _ Hrun) as (Hout & _ & Hhooks).
  destruct (Hhooks ".git" eq_refl) as [_ Hsecond].
  destruct (Hsecond _ eq_refl) as [Hfirst Hothers].
  split; [exact Hout|]. split; [exact Hfirst|exact Hothers].
Defined.

(* ===================================================================== *)
(** ** The earlier program *)

Lemma earlier_applyProfile_local p :
  Earlier.applyProfile p "local" = applyProfile p "local".
Proof. reflexivity. Qed.

Lemma earlier_applyProfile_global p :
  Earlier.applyProfile p "global" = applyProfile p "global".
Proof. reflexivity. Qed.

Lemma earlier_cmdUse_eq args w : Earlier.cmdUse args w = cmdUse args w.
Proof.
  unfold Earlier.cmdUse, cmdUse. rewrite !run_bind.
  destruct (flag_Parse "use" global_flag args w) as [[[fs rest]|c] w0]; [|done].
  destruct rest as [|id rest]; [done|]. cbv beta iota zeta. rewrite !run_bind.
  destruct (loadConfig w0) as [[[[cfg path]|err]|c] w1]; [|done..]. cbv beta iota.
  destruct (entries cfg !! id) as [p|]; [|done].
  destruct (flag_bool fs "global");
    by rewrite ?earlier_applyProfile_local, ?earlier_applyProfile_global.
Qed.

Lemma earlier_menu_run cfg ids i w :
  for_each_from (i + 1) ids
    (λ i id,
       let p := profile_at cfg id in
       to_stdout (OutPrintf "  [%d] %s: %s <%s>\n"
                    [AInt i; AStr id; AStr (GitUser p); AStr (GitEmail p)])) w
  = (Val tt, print_out (menu_from cfg i ids) w).
Proof.
  revert i w. induction ids as [|id ids IH]; intros i w; cbn [for_each_from menu_from].
  - by rewrite run_ret, print_out_nil.
  - rewrite run_bind, to_stdout_run, IH, print_out_app. reflexivity.
Qed.

Lemma earlier_cmdChoose_eq order args w :
  (∀ cfg, order cfg = sorted_ids cfg) →
  Earlier.cmdChoose order args w = cmdChoose args w.
Proof.
  intros Horder.
  destruct (loadConfig w) as [[[[cfg path]|err]|c] w1] eqn:Hload.
  - rewrite (cmdChoose_run args w cfg path w1 Hload).
    unfold Earlier.cmdChoose. rewrite run_bind, Hload. cbv beta iota. rewrite Horder.
    destruct (size (entries cfg) =? 0)%nat; [reflexivity|].
    rewrite run_bind, to_stdout_run. cbv zeta.
    rewrite run_bind, (earlier_menu_run cfg (sorted_ids cfg) 0).
    rewrite run_bind, to_stdout_run. rewrite !print_out_app.
    rewrite run_bind, ReadString_nl_run. cbv beta iota.
    change (after_read (print_out _ w1)) with (prompted cfg w1).
    change (TrimSpace (split_line (stdin (print_out _ w1))).1) with (input_line w1).
    destruct (String.eqb (input_line w1) ""); [reflexivity|].
    destruct (Sscanf_d (input_line w1)) as [choice|]; [|reflexivity].
    rewrite sorted_ids_length.
    destruct ((choice <? 1) || (choice >? Z.of_nat (size (entries cfg))))%bool; [reflexivity|].
    destruct (sorted_ids cfg !! Z.to_nat (choice - 1)) as [id|]; [|reflexivity].
    rewrite run_bind, earlier_applyProfile_local.
    destruct (applyProfile (profile_at cfg id) "local" (prompted cfg w1)) as [[[e|]|c] w3];
      reflexivity.
  - unfold Earlier.cmdChoose, cmdChoose. by rewrite !run_bind, Hload.
  - unfold Earlier.cmdChoose, cmdChoose. by rewrite !run_bind, Hload.
Qed.

Lemma earlier_cmdList_eq order args w :
  (∀ cfg, order cfg = sorted_ids cfg) →
  Earlier.cmdList order args w = cmdList args w.
Proof.
  intros Horder. unfold Earlier.cmdList, cmdList. rewrite !run_bind.
  destruct (loadConfig w) as [[[[cfg path]|err]|c] w1]; [|done..]. cbv beta iota zeta.
  by rewrite Horder.
Qed.

(** The earlier program and the current one agree on [add] and [use],
    whatever the arguments and the world, and on [list] and [choose] whenever
    the earlier one meets the identifiers in ascending order: on these four
    commands the two variants of the apply logic cannot be told apart
    from the command line. *)
Theorem earlier_main_agrees (order : Config → list string) (prog cmd : string)
    (args : list string) (w : World) :
  cmd = "add" ∨ cmd = "use" ∨
    ((cmd = "list" ∨ cmd = "choose") ∧ ∀ cfg, order cfg = sorted_ids cfg) →
  Earlier.main order (prog :: cmd :: args) w = main (prog :: cmd :: args) w.
Proof.
  intros Hcmd. unfold Earlier.main, main. rewrite !run_bind.
  destruct Hcmd as [->|[->|[[->| ->] Horder]]].
  all: cbn [Earlier.command_of command_of String.eqb Ascii.eqb Bool.eqb Earlier.handler handler].
  - reflexivity.
  - by rewrite earlier_cmdUse_eq.
  - by rewrite (earlier_cmdList_eq order args w Horder).
  - by rewrite (earlier_cmdChoose_eq order args w Horder).
Qed.

Lemma earlier_main_agrees_witness :
  let w := with_config alice_and_bob (quiet_world [Some ""; Some ""; Some ""] "") in
  Earlier.main sorted_ids ["git-profile"; "use"; "--global"; "alice"] w =
  main ["git-profile"; "use"; "--global"; "alice"] w.
Proof.
  intros w.
  exact (earlier_main_agrees sorted_ids "git-profile" "use" ["--global"; "alice"] w
           (or_intror (or_introl eq_refl))).
Defined.

(** The commands that came later are unknown to the earlier program. *)
Example earlier_main_unknown :
  let w := with_config alice_and_bob (quiet_world [] "") in
  let r := Earlier.main sorted_ids ["git-profile"; "ensure"] w in
  exit_code r.1 = 1 ∧
  stderr r.2 = [OutPrintf "Unknown command: %s\n\n" [AStr "ensure"]] ∧
  execs r.2 = [].
Proof. vm_compute. repeat split; reflexivity. Qed.

(** What the earlier [current] prints: the report without the defaults. *)
Definition earlier_report (name email ssh : option string) : list output :=
  ([OutPrintln "Current git identity (this repo):"]
   ++ match name with
      | Some out => [OutPrintf "  user.name  = %s\n" [AStr (TrimSpace out)]]
      | None => []
      end
   ++ match email with
      | Some out => [OutPrintf "  user.email = %s\n" [AStr (TrimSpace out)]]
      | None => []
      end
   ++ [match set_to ssh with
       | Some v => OutPrintf "  core.sshCommand = %s\n" [AStr v]
       | None => OutPrintln "  core.sshCommand = (default)"
       end])%list.

Definition default_report (def gdef : option string) : list output :=
  (match set_to def with
   | Some v => [OutPrintf "  gitprofile.default (local) = %s\n" [AStr v]]
   | None => []
   end
   ++ match set_to gdef with
      | Some v => [OutPrintf "  gitprofile.default (global) = %s\n" [AStr v]]
      | None => []
      end)%list.

Lemma earlier_cmdCurrent_run args w :
  Earlier.cmdCurrent args w =
    match reply_at 0 w, reply_at 1 w with
    | None, None =>
      (Val (Some (Errorf "no user.name or user.email set in this repo" [] None)),
       after_execs (take 2 current_reads) w)
    | name, email =>
      (Val None,
       print_out (earlier_report name email (reply_at 2 w)) (after_execs (take 3 current_reads) w))
    end.
Proof.
  unfold Earlier.cmdCurrent, earlier_report, current_reads.
  do 2 run_step.
  destruct (reply_at 0 w) as [name|], (reply_at 1 w) as [email|];
    cbn [config_value is_inl negb andb]; try reflexivity.
  all: do 4 run_step; rewrite !set_value_config_value.
  all: destruct (set_to (reply_at 2 w)); run_step.
  all: rewrite ?run_ret, ?print_out_nil; reflexivity.
Qed.

Lemma cmdCurrent_run args w :
  cmdCurrent args w =
    match reply_at 0 w, reply_at 1 w with
    | None, None =>
      (Val (Some (Errorf "no user.name or user.email set in this repo" [] None)),
       after_execs (take 2 current_reads) w)
    | name, email =>
      (Val None,
       print_out (earlier_report name email (reply_at 2 w)
                  ++ default_report (reply_at 3 w) (reply_at 4 w))
         (after_execs current_reads w))
    end.
Proof.
  unfold cmdCurrent, earlier_report, default_report, current_reads.
  do 2 run_step.
  destruct (reply_at 0 w) as [name|], (reply_at 1 w) as [email|];
    cbn [config_value is_inl negb andb]; try reflexivity.
  all: do 4 run_step; rewrite !set_value_config_value.
  all: destruct (set_to (reply_at 2 w)); run_step.
  all: run_step; rewrite !set_value_config_value.
  all: destruct (set_to (reply_at 3 w)); run_step.
  all: run_step; rewrite !set_value_config_value.
  all: destruct (set_to (reply_at 4 w)); run_step.
  all: rewrite ?run_ret, ?print_out_nil; reflexivity.
Qed.

Lemma execs_print_out l w : execs (print_out l w) = execs w.
Proof. reflexivity. Qed.

Lemma stdout_print_out l w : stdout (print_out l w) = (stdout w ++ l)%list.
Proof. reflexivity. Qed.

Lemma stdout_after_execs l w : stdout (after_execs l w) = stdout w.
Proof. reflexivity. Qed.

(** [current] extends the earlier [current]: it fails in the same case with
    the same error, having done the same; otherwise it makes the same three
    reads and prints the same lines, and then reads the local and the global
    default and prints those that are set. *)
Theorem cmdCurrent_extends_earlier (args : list string) (w : World) :
  let old := Earlier.cmdCurrent args w in
  let new := cmdCurrent args w in
  new.1 = old.1 ∧
  ((∃ e, old.1 = Val (Some e)) → new = old) ∧
  (old.1 = Val None →
   stdout new.2 = (stdout old.2 ++ default_report (reply_at 3 w) (reply_at 4 w))%list ∧
   execs new.2 = (execs old.2 ++ [git_get "gitprofile.default";
                                  git_get_global "gitprofile.default"])%list).
Proof.
  cbv zeta. rewrite earlier_cmdCurrent_run, cmdCurrent_run.
  destruct (reply_at 0 w) as [name|], (reply_at 1 w) as [email|]; cbn [fst snd].
  4: { split; [done|]. split; [done|]. intros H. discriminate H. }
  all: split; [done|]; split; [intros [e He]; discriminate He|]; intros _.
  all: rewrite !execs_print_out, !execs_after_execs.
  all: split; [|unfold current_reads; cbn [take]; by rewrite <- app_assoc].
  all: by rewrite !stdout_print_out, !stdout_after_execs, app_assoc.
Qed.

Lemma cmdCurrent_extends_earlier_witness :
  let w := quiet_world [Some "Wanda"; None; None; Some "work"; None] "" in
  stdout (cmdCurrent [] w).2 =
    (stdout (Earlier.cmdCurrent [] w).2 ++ default_report (reply_at 3 w) (reply_at 4 w))%list ∧
  execs (cmdCurrent [] w).2 =
    (execs (Earlier.cmdCurrent [] w).2 ++ [git_get "gitprofile.default";
                                           git_get_global "gitprofile.default"])%list.
Proof.
  intros w. exact (proj2 (proj2 (cmdCurrent_extends_earlier [] w)) eq_refl).
Defined.

(** The menu of the earlier [choose], the identifiers in the order the
    range met them, and the world after it was printed and a line read. *)
Definition earlier_menu (cfg : Config) (ids : list string) : list output :=
  ([OutPrintln "Select profile:"] ++ menu_from cfg 0 ids ++ [OutPrint "Enter number: "])%list.

Definition earlier_prompted (cfg : Config) (ids : list string) (w : World) : World :=
  after_read (print_out (earlier_menu cfg ids) w).

(** The earlier [choose] once the config is loaded and the range has met
    the identifiers as [ids]. *)
Lemma earlier_cmdChoose_run order args w cfg path w1 :
  loadConfig w = (Val (inl (cfg, path)), w1) →
  Earlier.cmdChoose order args w =
    if (size (entries cfg) =? 0)%nat then (Val (Some no_profiles), w1)
    else if String.eqb (input_line w1) "" then
      (Val (Some (Errorf "no selection made" [] None)), earlier_prompted cfg (order cfg) w1)
    else
      match Sscanf_d (input_line w1) with
      | None =>
        (Val (Some (Errorf "invalid selection" [] None)), earlier_prompted cfg (order cfg) w1)
      | Some choice =>
        if ((choice <? 1) || (choice >? Z.of_nat (length (order cfg))))%bool then
          (Val (Some (Errorf "invalid selection" [] None)), earlier_prompted cfg (order cfg) w1)
        else
          match order cfg !! Z.to_nat (choice - 1) with
          | None => go_panic "index out of range" (earlier_prompted cfg (order cfg) w1)
          | Some id =>
            match applyProfile (profile_at cfg id) "local"
                    (earlier_prompted cfg (order cfg) w1) with
            | (Val None, w3) =>
              (Val None,
               print_out [OutPrintf "Applied profile %q to local repo\n" [AStr id]] w3)
            | other => other
            end
          end
      end.
Proof.
  intros Hload. unfold Earlier.cmdChoose. rewrite run_bind, Hload. cbv beta iota.
  destruct (size (entries cfg) =? 0)%nat; [reflexivity|].
  rewrite run_bind, to_stdout_run. cbv zeta.
  rewrite run_bind, (earlier_menu_run cfg (order cfg) 0).
  rewrite run_bind, to_stdout_run. rewrite !print_out_app.
  rewrite run_bind, ReadString_nl_run. cbv beta iota.
  change (after_read (print_out _ w1)) with (earlier_prompted cfg (order cfg) w1).
  change (TrimSpace (split_line (stdin (print_out _ w1))).1) with (input_line w1).
  destruct (String.eqb (input_line w1) ""); [reflexivity|].
  destruct (Sscanf_d (input_line w1)) as [choice|]; [|reflexivity].
  destruct ((choice <? 1) || (choice >? Z.of_nat (length (order cfg))))%bool; [reflexivity|].
  destruct (order cfg !! Z.to_nat (choice - 1)) as [id|]; [|reflexivity].
  rewrite run_bind, earlier_applyProfile_local.
  destruct (applyProfile (profile_at cfg id) "local" (earlier_prompted cfg (order cfg) w1))
    as [[[e|]|c] w3]; reflexivity.
Qed.

(** The earlier [choose] applies the k-th identifier that its range over
    the map met, whichever order that was: with a loaded config of N
    profiles, met in any order, and an input line that scans as an integer k
    between 1 and N, it shows that identifier with the number k in its menu
    and applies its profile at local scope.  Which profile a number selects
    is so not fixed by the config. *)
Theorem earlier_cmdChoose_applies_kth_met (order : Config → list string)
    (args : list string) (w w1 : World) (cfg : Config) (path : string) (k : Z) :
  loadConfig w = (Val (inl (cfg, path)), w1) →
  order cfg ≡ₚ sorted_ids cfg →
  Sscanf_d (input_line w) = Some k →
  1 ≤ k ≤ Z.of_nat (size (entries cfg)) →
  ∃ id p,
    order cfg !! Z.to_nat (k - 1) = Some id ∧
    entries cfg !! id = Some p ∧
    earlier_menu cfg (order cfg) !! Z.to_nat k =
      Some (OutPrintf "  [%d] %s: %s <%s>\n"
              [AInt k; AStr id; AStr (GitUser p); AStr (GitEmail p)]) ∧
    Earlier.cmdChoose order args w =
      match applyProfile p "local" (earlier_prompted cfg (order cfg) w1) with
      | (Val None, w3) =>
        (Val None, print_out [OutPrintf "Applied profile %q to local repo\n" [AStr id]] w3)
      | other => other
      end.
Proof.
  intros Hload Hperm Hscan Hk.
  destruct (loadConfig_frames _ _ _ Hload) as (_ & _ & Hin & _).
  assert (length (order cfg) = size (entries cfg)) as Hlen
    by (by rewrite Hperm, sorted_ids_length).
  rewrite (earlier_cmdChoose_run order args w cfg path w1 Hload), (input_line_same _ _ Hin), Hscan.
  destruct (Nat.eqb_spec (size (entries cfg)) 0) as [H0|_]; [lia|].
  destruct (String.eqb_spec (input_line w) "") as [He|_].
  { rewrite He in Hscan. discriminate Hscan. }
  rewrite Hlen.
  assert (((k <? 1) || (k >? Z.of_nat (size (entries cfg))))%bool = false) as ->.
  { apply orb_false_iff. split; [apply Z.ltb_ge|rewrite Z.gtb_ltb; apply Z.ltb_ge]; lia. }
  destruct (order cfg !! Z.to_nat (k - 1)) as [id|] eqn:Hid.
  - assert (id ∈ sorted_ids cfg) as Hmem.
    { rewrite <- Hperm. by eapply list_elem_of_lookup_2. }
    apply list_elem_of_lookup in Hmem as [j Hj].
    destruct (sorted_ids_lookup cfg j id Hj) as [[p Hp] _].
    exists id, p. split; [done|]. split; [done|]. split.
    + unfold earlier_menu. replace (Z.to_nat k) with (S (Z.to_nat (k - 1))) by lia.
      change (([OutPrintln "Select profile:"] ++ ?t)%list !! S ?i) with (t !! i).
      rewrite lookup_app_l
        by (apply lookup_lt_is_Some; erewrite menu_from_lookup by done; eauto).
      rewrite (menu_from_lookup cfg 0 _ _ id Hid). unfold menu_line, profile_at.
      rewrite Hp. replace (0 + Z.of_nat (Z.to_nat (k - 1)) + 1) with k by lia. reflexivity.
    + unfold profile_at. rewrite Hp. reflexivity.
  - apply lookup_ge_None in Hid. lia.
Qed.

Lemma earlier_cmdChoose_applies_kth_met_witness :
  let w := with_config two_profiles (quiet_world [Some ""; Some ""; Some ""] "1") in
  let order := λ _ : Config, ["work"; "home"] in
  ∃ id p,
    order two_profiles !! 0%nat = Some id ∧
    entries two_profiles !! id = Some p ∧
    earlier_menu two_profiles (order two_profiles) !! 1%nat =
      Some (OutPrintf "  [%d] %s: %s <%s>\n"
              [AInt 1; AStr id; AStr (GitUser p); AStr (GitEmail p)]) ∧
    Earlier.cmdChoose order [] w =
      match applyProfile p "local"
              (earlier_prompted two_profiles (order two_profiles) (loadConfig w).2) with
      | (Val None, w3) =>
        (Val None, print_out [OutPrintf "Applied profile %q to local repo\n" [AStr id]] w3)
      | other => other
      end.
Proof.
  intros w order.
  assert (loadConfig w = (Val (inl (two_profiles, config_path "/home/u/.config")),
                          (loadConfig w).2)) as Hload by (vm_compute; reflexivity).
  assert (order two_profiles ≡ₚ sorted_ids two_profiles) as Hperm.
  { assert (sorted_ids two_profiles = ["home"; "work"]) as -> by (vm_compute; reflexivity).
    apply perm_swap. }
  assert (Sscanf_d (input_line w) = Some 1) as Hscan by (vm_compute; reflexivity).
  assert (1 ≤ 1 ≤ Z.of_nat (size (entries two_profiles))) as Hk
    by (vm_compute; split; discriminate).
  exact (earlier_cmdChoose_applies_kth_met order [] w _ two_profiles _ 1 Hload Hperm Hscan Hk).
Defined.

(* ===================================================================== *)
(** ** The order of the profiles in [list] and [choose] *)

(** With a config that is not empty, [choose] has printed its menu, however
    it ends. *)
Lemma cmdChoose_shows_menu args w cfg path w1 :
  loadConfig w = (Val (inl (cfg, path)), w1) →
  size (entries cfg) ≠ 0%nat →
  ∃ more, stdout (cmdChoose args w).2 = (stdout w ++ choose_menu cfg ++ more)%list.
Proof.
  intros Hload Hsize.
  destruct (loadConfig_frames _ _ _ Hload) as (_ & _ & _ & Hout & _).
  assert (stdout (prompted cfg w1) = (stdout w ++ choose_menu cfg)%list) as Hmenu.
  { unfold prompted, after_read. cbn. by rewrite Hout. }
  rewrite (cmdChoose_run args w cfg path w1 Hload).
  destruct (Nat.eqb_spec (size (entries cfg)) 0) as [H0|_]; [done|].
  destruct (String.eqb (input_line w1) "");
    [exists []; cbn [snd]; by rewrite Hmenu, !app_nil_r|].
  destruct (Sscanf_d (input_line w1)) as [choice|];
    [|exists []; cbn [snd]; by rewrite Hmenu, !app_nil_r].
  destruct ((choice <? 1) || (choice >? Z.of_nat (size (entries cfg))))%bool;
    [exists []; cbn [snd]; by rewrite Hmenu, !app_nil_r|].
  destruct (sorted_ids cfg !! Z.to_nat (choice - 1)) as [id|].
  - pose proof (applyProfile_quiet (profile_at cfg id) "local" (prompted cfg w1)) as Hquiet.
    unfold keeps in Hquiet.
    destruct (applyProfile (profile_at cfg id) "local" (prompted cfg w1)) as [[[e|]|c] w3].
    all: cbn [snd] in Hquiet |- *.
    all: assert (stdout w3 = stdout (prompted cfg w1)) as Hout3 by congruence.
    + exists []. by rewrite Hout3, Hmenu, !app_nil_r.
    + eexists. cbn [stdout print_out set_stdout]. by rewrite Hout3, Hmenu, <- app_assoc.
    + exists []. by rewrite Hout3, Hmenu, !app_nil_r.
  - exists []. transitivity (stdout (prompted cfg w1)); [reflexivity|].
    by rewrite Hmenu, !app_nil_r.
Qed.

(** [list] and [choose] go through the profiles in the same order: the
    identifier on the i-th line that [list] prints for a profile is the one
    that [choose] prints with the number i in its menu. *)
Theorem cmdList_cmdChoose_same_order (w w1 : World) (cfg : Config) (path : string)
    (i : nat) (id : string) :
  loadConfig w = (Val (inl (cfg, path)), w1) →
  sorted_ids cfg !! i = Some id →
  (∃ w', cmdList [] w = (Val None, w') ∧
         stdout w' !! (length (stdout w) + S i)%nat = Some (list_line cfg id)) ∧
  stdout (cmdChoose [] w).2 !! (length (stdout w) + S i)%nat =
    Some (menu_line cfg (Z.of_nat i) id).
Proof.
  intros Hload Hid.
  destruct (loadConfig_frames _ _ _ Hload) as (_ & _ & _ & Hout & _).
  pose proof (lookup_lt_Some _ _ _ Hid) as Hlt. rewrite sorted_ids_length in Hlt.
  split.
  - unfold cmdList. rewrite run_bind, Hload. cbv beta iota.
    destruct (Nat.eqb_spec (size (entries cfg)) 0) as [H0|_]; [lia|].
    rewrite run_bind, to_stdout_run. rewrite run_bind, list_lines_run, print_out_app.
    rewrite run_ret. eexists. split; [reflexivity|].
    rewrite stdout_print_out, Hout, lookup_app_r by lia.
    replace (length (stdout w) + S i - length (stdout w))%nat with (S i) by lia.
    change (([?h] ++ ?t)%list !! S i) with (t !! i).
    by rewrite list_lookup_fmap, Hid.
  - destruct (cmdChoose_shows_menu [] w cfg path w1 Hload ltac:(lia)) as [more ->].
    rewrite lookup_app_r by lia.
    replace (length (stdout w) + S i - length (stdout w))%nat with (S i) by lia.
    assert (choose_menu cfg !! S i = Some (menu_line cfg (Z.of_nat i) id)) as Hline.
    { unfold choose_menu.
      change (([OutPrintln "Select profile:"] ++ ?t)%list !! S i) with (t !! i).
      rewrite lookup_app_l
        by (apply lookup_lt_is_Some; erewrite menu_from_lookup by done; eauto).
      by rewrite (menu_from_lookup cfg 0 _ i id Hid), Z.add_0_l. }
    by rewrite (lookup_app_l_Some _ _ _ _ Hline).
Qed.

Lemma cmdList_cmdChoose_same_order_witness :
  let w := with_config two_profiles (quiet_world [] "") in
  (∃ w', cmdList [] w = (Val None, w') ∧
         stdout w' !! (length (stdout w) + 2)%nat = Some (list_line two_profiles "work")) ∧
  stdout (cmdChoose [] w).2 !! (length (stdout w) + 2)%nat =
    Some (menu_line two_profiles 1 "work").
Proof.
  intros w.
  assert (loadConfig w = (Val (inl (two_profiles, config_path "/home/u/.config")),
                          (loadConfig w).2)) as Hload by (vm_compute; reflexivity).
  assert (sorted_ids two_profiles !! 1%nat = Some "work") as Hid by (vm_compute; reflexivity).
  exact (cmdList_cmdChoose_same_order w _ two_profiles _ 1 "work" Hload Hid).
Defined.
